(** * umami-cli: the export pipeline of [umami.mjs]

    A shallow embedding of the functions of [src/umami.mjs] that carry the
    logic of the [export-path-visitors] command:

    - [normalizePath]    (lines 80-110), the path normalizer;
    - [resolveAuthArgs]  (lines 170-190), the auth resolver;
    - [getAuthHeaders]   (lines 192-238), the credential exchange;
    - [extractRows]      (lines 240-245);
    - the pagination loop and the row aggregation of [exportPathVisitors]
      (lines 265-287), and the checks before the loop (lines 247-262);
    - [parseArgs] (lines 112-143) and [main] (lines 299-314), the command
      line;
    - [die], [toNumber] and [normalizeBaseUrl] (lines 63-78).

    JavaScript strings are sequences of UTF-16 code units, JSON values are
    an inductive type, [die] (which writes a message and exits the process)
    is the [Died] case of a result type, an exception that nothing catches
    is its [Thrown] case, and the replies of the analytics server are an
    explicit parameter of the functions that perform requests.  The
    [totals] object is a finite map from path keys to numbers.  Finite
    JavaScript numbers are modelled by rationals with exact addition, and
    the offsets of the requests by integers: the program's doubles compute
    the same as long as the sums are whole numbers of at most [2^53]. *)

From Stdlib Require Import ZArith NArith QArith Lqa List String Ascii Permutation Lia.
From stdpp Require Import base option list gmap.

Local Open Scope Z_scope.

(** ** JavaScript strings *)

(** A string is the list of its UTF-16 code units. *)
Abbreviation jsstring := (list N).

(** An ASCII literal as a JavaScript string. *)
Definition lit (s : string) : jsstring :=
  List.map N_of_ascii (list_ascii_of_string s).

Definition chSlash : N := 47.     (* '/' *)
Definition chQuestion : N := 63.  (* '?' *)
Definition chHash : N := 35.      (* '#' *)
Definition chColon : N := 58.     (* ':' *)

Definition jsstring_eqb (a b : jsstring) : bool := bool_decide (a = b).

(** [!s] for a string: only the empty string is falsy. *)
Definition isEmptyStr (s : jsstring) : bool :=
  match s with [] => true | _ => false end.

(** The code units [String.prototype.trim] strips: ECMAScript's WhiteSpace
    and LineTerminator productions (TAB, VT, FF, SP, NBSP, ZWNBSP, the
    Unicode space separators, LF, CR, LS, PS). *)
Definition isWhiteSpace (c : N) : bool :=
  ((9 <=? c) && (c <=? 13) || (c =? 32) || (c =? 160) || (c =? 5760)
   || (8192 <=? c) && (c <=? 8202) || (c =? 8232) || (c =? 8233)
   || (c =? 8239) || (c =? 8287) || (c =? 12288) || (c =? 65279))%N.

Fixpoint trimStart (s : jsstring) : jsstring :=
  match s with
  | c :: t => if isWhiteSpace c then trimStart t else s
  | [] => []
  end.

Definition trimEnd (s : jsstring) : jsstring := rev (trimStart (rev s)).

(** [s.trim()] *)
Definition trim (s : jsstring) : jsstring := trimEnd (trimStart s).

(** [s.indexOf(c)] for a one-character needle: the first position of [c],
    or [-1]. *)
Fixpoint indexOfFrom (c : N) (s : jsstring) (i : Z) : Z :=
  match s with
  | [] => -1
  | d :: t => if (d =? c)%N then i else indexOfFrom c t (i + 1)
  end.

Definition indexOf (c : N) (s : jsstring) : Z := indexOfFrom c s 0.

(** [s.slice(0, n)] for [n >= 0]. *)
Definition slice0 (n : Z) (s : jsstring) : jsstring := firstn (Z.to_nat n) s.

(** [s.startsWith('/')] and [s.endsWith('/')]. *)
Definition startsWithSlash (s : jsstring) : bool :=
  match s with c :: _ => (c =? chSlash)%N | [] => false end.

Definition endsWithSlash (s : jsstring) : bool := startsWithSlash (rev s).

(** [s.replace(/\/{2,}/g, '/')]: every maximal run of two or more slashes
    becomes one slash. *)
Fixpoint collapseSlashes (s : jsstring) : jsstring :=
  match s with
  | a :: t =>
      match t with
      | b :: _ =>
          if ((a =? chSlash) && (b =? chSlash))%N then collapseSlashes t
          else a :: collapseSlashes t
      | [] => [a]
      end
  | [] => []
  end.

(** The regular expression [/^[a-zA-Z][a-zA-Z0-9+.-]*:\/\//] of line 86. *)
Definition isAlpha (c : N) : bool :=
  ((65 <=? c) && (c <=? 90) || (97 <=? c) && (c <=? 122))%N.

Definition isSchemeChar (c : N) : bool :=
  (isAlpha c || (48 <=? c) && (c <=? 57) || (c =? 43) || (c =? 46) || (c =? 45))%N.

Fixpoint afterSchemeChars (s : jsstring) : jsstring :=
  match s with
  | c :: t => if isSchemeChar c then afterSchemeChars t else s
  | [] => []
  end.

Definition looksLikeUrl (s : jsstring) : bool :=
  match s with
  | c :: t =>
      isAlpha c &&
      match afterSchemeChars t with
      | c1 :: c2 :: c3 :: _ => ((c1 =? chColon) && (c2 =? chSlash) && (c3 =? chSlash))%N
      | _ => false
      end
  | [] => false
  end.

(** [[q, h].filter((i) => i >= 0).sort((a, b) => a - b)[0]]: the numeric
    sort of the indices that were found, then its first element
    ([None] for [undefined]). *)
Fixpoint insertSorted (x : Z) (l : list Z) : list Z :=
  match l with
  | [] => [x]
  | y :: t => if x <=? y then x :: l else y :: insertSorted x t
  end.

Definition sortNumeric (l : list Z) : list Z := foldr insertSorted [] l.

Definition firstCut (q h : Z) : option Z :=
  head (sortNumeric (List.filter (fun i => 0 <=? i) [q; h])).

(** ** JavaScript values *)

(** A number: finite (here an exact rational), or one of the three values
    that [Number.isFinite] rejects. *)
Inductive JsNumber :=
  | NumFinite (q : Q)
  | NumNaN
  | NumPosInf
  | NumNegInf.

(** The values a parsed JSON document, a command-line argument or an
    environment variable can be.  An object is the list of its own
    properties, where a parsed document has every key once; a lookup
    takes the first entry of a key. *)
#[warnings="-register-all"]
Inductive JsValue :=
  | JUndefined
  | JNull
  | JBool (b : bool)
  | JNum (n : JsNumber)
  | JStr (s : jsstring)
  | JArr (elems : list JsValue)
  | JObj (props : list (jsstring * JsValue)).

(** [a ?? b] *)
Definition nullish (a b : JsValue) : JsValue :=
  match a with
  | JUndefined | JNull => b
  | _ => a
  end.

(** ToBoolean: what [!v], [v ? _ : _], [||] and [filter(Boolean)] test. *)
Definition truthy (v : JsValue) : bool :=
  match v with
  | JUndefined | JNull => false
  | JBool b => b
  | JNum (NumFinite q) => negb (Qeq_bool q 0)
  | JNum NumNaN => false
  | JNum _ => true
  | JStr s => negb (isEmptyStr s)
  | JArr _ | JObj _ => true
  end.

Fixpoint lookupProp (key : jsstring) (props : list (jsstring * JsValue)) : JsValue :=
  match props with
  | [] => JUndefined
  | (k, v) :: t => if jsstring_eqb k key then v else lookupProp key t
  end.

(** [v?.key] for the keys the program reads ([name], [visitors], [token],
    [websiteId], [data], [rows]): none of them is a property of a string,
    a number, a boolean or an array, nor one that objects inherit, so
    only an own property of an object can answer. *)
Definition optProp (v : JsValue) (key : jsstring) : JsValue :=
  match v with
  | JObj props => lookupProp key props
  | _ => JUndefined
  end.


(** ** Fatal errors

    [die(message)] writes the message to the error stream and exits the
    process: the function that calls it returns nothing.  One constructor
    per call site of [die]; [message] gives the fixed text of the message
    (the interpolated URL, status or body of the run is left out). *)
Inductive Fatal :=
  | MissingAuth            (* line 182 *)
  | AmbiguousAuth          (* line 183 *)
  | IncompleteUserpass     (* line 186 *)
  | RequestFailed          (* line 161 *)
  | HttpError              (* line 165 *)
  | InvalidJson            (* line 151 *)
  | ShareMissingToken      (* line 199 *)
  | ShareMissingWebsiteId  (* line 201 *)
  | MissingToken           (* line 211 *)
  | MissingWebsiteId       (* lines 212 and 231 *)
  | LoginMissingToken      (* line 230 *)
  | UnexpectedShape.       (* line 277 *)

Definition message (e : Fatal) : string :=
  match e with
  | MissingAuth =>
      "Missing auth: provide --shareId OR --token OR --username/--password (or env vars)."
  | AmbiguousAuth =>
      "Ambiguous auth: provide only one of --shareId, --token, or --username/--password (or env vars)."
  | IncompleteUserpass =>
      "Missing auth: --username and --password are both required (or UMAMI_USERNAME/UMAMI_PASSWORD)."
  | RequestFailed => "Request failed: "
  | HttpError => "HTTP "
  | InvalidJson => "Invalid JSON response (status "
  | ShareMissingToken => "Share response missing token: "
  | ShareMissingWebsiteId =>
      "Missing websiteId: provide --websiteId or use a shareId that returns websiteId."
  | MissingToken => "Missing token: provide --token or UMAMI_TOKEN."
  | MissingWebsiteId => "Missing websiteId: provide --websiteId or UMAMI_WEBSITE_ID."
  | LoginMissingToken => "Login response missing token: "
  | UnexpectedShape => "Unexpected response shape from metrics endpoint."
  end.

(** An exception that nothing catches: it ends the run as well.  The
    modelled code can raise two: the [TypeError] of a conversion to a
    primitive value (see [ToString] below), and the error of
    [response.text()] when the body of a response cannot be read, which
    [readJsonStrict] awaits outside its [try]. *)
Inductive Exception :=
  | TypeError
  | BodyError.

(** How a piece of the program ends: with a value, in [die], or with an
    uncaught exception. *)
Inductive Result (A : Type) :=
  | Ok (a : A)
  | Died (e : Fatal)
  | Thrown (x : Exception).

Arguments Ok {A} a.
Arguments Died {A} e.
Arguments Thrown {A} x.

#[export] Instance Result_bind : MBind Result := fun A C k r =>
  match r with
  | Ok a => k a
  | Died e => Died e
  | Thrown x => Thrown x
  end.

(** A conversion that can only give a value or throw a [TypeError] is an
    [option], [None] being the exception; [orThrow] puts it back in the
    run. *)
Definition orThrow {A : Type} (o : option A) : Result A :=
  match o with
  | Some a => Ok a
  | None => Thrown TypeError
  end.

(** ** Platform functions

    Three functions of the JavaScript runtime that the program calls and
    does not define.  The development is parametric in them: every theorem
    holds for whatever these functions compute. *)
Class Builtins := {
  (** [new URL(raw).pathname]; [None] when the constructor throws. *)
  URL_pathname : jsstring -> option jsstring;
  (** [String(n)] for a number. *)
  NumberToString : JsNumber -> jsstring;
  (** [Number(s)] for a string. *)
  StringToNumber : jsstring -> JsNumber;
}.

Section Conversions.
Context {B : Builtins}.

(** Whether an object has an own property of this name. *)
Fixpoint hasOwnProp (key : jsstring) (props : list (jsstring * JsValue)) : bool :=
  match props with
  | [] => false
  | (k, _) :: t => jsstring_eqb k key || hasOwnProp key t
  end.

(** [String(v)].

    An array converts through [Array.prototype.join]: its elements are
    converted in turn and joined with commas, [null] and [undefined]
    giving the empty string.

    A plain object converts through OrdinaryToPrimitive, which calls the
    object's [toString] and [valueOf] when they are functions and takes
    the first primitive result.  The inherited [valueOf] returns the
    object itself, and the inherited [toString] returns
    ["[object Object]"].  An own property named [toString] hides the
    inherited function, and in a parsed JSON document it is never a
    function: then no method gives a primitive and the conversion throws a
    [TypeError]. *)
Fixpoint ToString (v : JsValue) : option jsstring :=
  match v with
  | JUndefined => Some (lit "undefined")
  | JNull => Some (lit "null")
  | JBool true => Some (lit "true")
  | JBool false => Some (lit "false")
  | JNum n => Some (NumberToString n)
  | JStr s => Some s
  | JArr elems =>
      (fix join (l : list JsValue) : option jsstring :=
         match l with
         | [] => Some []
         | e :: t =>
             s ← match e with
                 | JUndefined | JNull => Some []
                 | _ => ToString e
                 end;
             match t with
             | [] => Some s
             | _ => rest ← join t; Some (s ++ lit "," ++ rest)
             end
         end) elems
  | JObj props =>
      if hasOwnProp (lit "toString") props then None
      else Some (lit "[object Object]")
  end.

(** [Number(v)].  An array or an object is first converted to a
    primitive, which for the values of a JSON document is the string that
    [ToString] gives (or the same [TypeError]). *)
Definition ToNumber (v : JsValue) : option JsNumber :=
  match v with
  | JUndefined => Some NumNaN
  | JNull => Some (NumFinite 0)
  | JBool true => Some (NumFinite 1)
  | JBool false => Some (NumFinite 0)
  | JNum n => Some n
  | JStr s => Some (StringToNumber s)
  | JArr _ | JObj _ => s ← ToString v; Some (StringToNumber s)
  end.

(** ** The path normalizer (lines 80-110)

    [None] when [String(name)] throws; nothing else in the function can. *)
Definition normalizePath (name : JsValue) : option jsstring :=
  match name with
  | JUndefined | JNull => Some (lit "/")
  | _ =>
      str ← ToString name;
      let raw := trim str in
      if isEmptyStr raw then Some (lit "/") else
      (* a full URL: take the pathname, or keep raw when parsing throws *)
      let raw :=
        if looksLikeUrl raw then
          match URL_pathname raw with
          | Some p => if isEmptyStr p then lit "/" else p
          | None => raw
          end
        else raw in
      let q := indexOf chQuestion raw in
      let h := indexOf chHash raw in
      let raw :=
        match firstCut q h with
        | Some cut => slice0 cut raw
        | None => raw
        end in
      let raw := collapseSlashes raw in
      let raw := if startsWithSlash raw then raw else chSlash :: raw in
      let raw :=
        if (1 <? Z.of_nat (length raw)) && endsWithSlash raw then raw
        else if negb (jsstring_eqb raw (lit "/")) then raw ++ lit "/"
        else raw in
      Some (if isEmptyStr raw then lit "/" else raw)
  end.

End Conversions.

(** A sample platform, used to run the definitions on concrete inputs.
    [sampleUrlPathname] handles URLs of the plain form
    [scheme://host/path?query#fragment]: it skips the scheme and the host
    and returns the path up to the first [?] or [#] (or ["/"] when the path
    is empty).  Numbers print as the empty string and strings convert to
    [NaN]; the examples below never convert between numbers and strings. *)
Fixpoint dropUntilAny (stop : list N) (s : jsstring) : jsstring :=
  match s with
  | c :: t => if bool_decide (c ∈ stop) then s else dropUntilAny stop t
  | [] => []
  end.

Fixpoint takeUntilAny (stop : list N) (s : jsstring) : jsstring :=
  match s with
  | c :: t => if bool_decide (c ∈ stop) then [] else c :: takeUntilAny stop t
  | [] => []
  end.

Definition sampleUrlPathname (s : jsstring) : option jsstring :=
  match afterSchemeChars s with
  | _ :: _ :: _ :: rest =>
      let p := takeUntilAny [chQuestion; chHash]
                 (dropUntilAny [chSlash; chQuestion; chHash] rest) in
      Some (if isEmptyStr p then lit "/" else p)
  | _ => None
  end.

Definition samplePlatform : Builtins := {|
  URL_pathname := sampleUrlPathname;
  NumberToString := fun _ => [];
  StringToNumber := fun _ => NumNaN;
|}.


(** ** The auth resolver (lines 170-190) *)

(** The four options of the parsed command line that the resolver reads;
    an option that was not given is [JUndefined]. *)
Record Args := {
  arg_shareId : JsValue;
  arg_username : JsValue;
  arg_password : JsValue;
  arg_token : JsValue;
}.

(** The four variables of [process.env] that the resolver reads: a string,
    or nothing when the variable is not set. *)
Record Env := {
  UMAMI_SHARE_ID : option jsstring;
  UMAMI_USERNAME : option jsstring;
  UMAMI_PASSWORD : option jsstring;
  UMAMI_TOKEN : option jsstring;
}.

Definition envValue (o : option jsstring) : JsValue :=
  match o with
  | Some s => JStr s
  | None => JUndefined
  end.

Inductive Mode := share | token_mode | userpass.

(** The object [resolveAuthArgs] returns. *)
Record AuthSpec := {
  mode : Mode;
  shareId : JsValue;
  username : JsValue;
  password : JsValue;
  token : JsValue;
}.

(** [list.filter(Boolean)] on a list whose entries are a mode name or
    [null]. *)
Definition filterBoolean (l : list (option Mode)) : list Mode := omap id l.

Definition resolveAuthArgs (args : Args) (env : Env) : Result AuthSpec :=
  let shareId := nullish (arg_shareId args) (envValue (UMAMI_SHARE_ID env)) in
  let username := nullish (arg_username args) (envValue (UMAMI_USERNAME env)) in
  let password := nullish (arg_password args) (envValue (UMAMI_PASSWORD env)) in
  let token := nullish (arg_token args) (envValue (UMAMI_TOKEN env)) in
  let modes := filterBoolean
    [ if truthy shareId then Some share else None;
      if truthy token then Some token_mode else None;
      if truthy username || truthy password then Some userpass else None ] in
  match modes with
  | [] => Died MissingAuth
  | m :: rest =>
      if (1 <? Z.of_nat (length modes)) then Died AmbiguousAuth
      else
        match m with
        | userpass =>
            if negb (truthy username) || negb (truthy password)
            then Died IncompleteUserpass
            else Ok {| mode := m; shareId := shareId; username := username;
                       password := password; token := token |}
        | _ => Ok {| mode := m; shareId := shareId; username := username;
                     password := password; token := token |}
        end
  end.

(** ** Requests *)

(** The body of a response: lost when reading it fails, else a text,
    given by the JSON value it parses to or by nothing when it is not
    JSON. *)
Inductive Body :=
  | BodyLost
  | BodyText (json : option JsValue).

(** What [fetch] gives for one request: no response at all (it rejects),
    or a response with its [ok] flag and its body. *)
Inductive HttpReply :=
  | NoResponse
  | Response (ok : bool) (body : Body).

(** [fetchOrDie] (lines 155-168): the response when there is one and it
    is [ok].  For a response that is not [ok], a body that cannot be read
    counts as empty (line 164). *)
Definition fetchOrDie (reply : HttpReply) : Result Body :=
  match reply with
  | NoResponse => Died RequestFailed
  | Response false _ => Died HttpError
  | Response true body => Ok body
  end.

(** [readJsonStrict] (lines 145-153); [response.text()] is awaited before
    the [try]. *)
Definition readJsonStrict (body : Body) : Result JsValue :=
  match body with
  | BodyLost => Thrown BodyError
  | BodyText None => Died InvalidJson
  | BodyText (Some json) => Ok json
  end.

(** The two calls that every request is made of (lines 195-196, 223-228
    and 274-275). *)
Definition fetchJson (reply : HttpReply) : Result JsValue :=
  res ← fetchOrDie reply; readJsonStrict res.

(** The analytics server, as the replies it gives: to the share lookup of
    a share id, to the login with a username and a password, and to the
    metrics request at an offset (the other components of that request are
    the same for every page of a run). *)
Record Server := {
  shareEndpoint : JsValue -> HttpReply;
  loginEndpoint : JsValue -> JsValue -> HttpReply;
  metricsEndpoint : Z -> HttpReply;
}.

(** ** The credential exchange (lines 192-238) *)

Record Credentials := {
  websiteId : JsValue;
  headers : list (string * JsValue);
}.

Section Pipeline.
Context {B : Builtins}.

Definition getAuthHeaders (srv : Server) (auth : AuthSpec) (websiteIdArg : JsValue)
  : Result Credentials :=
  match mode auth with
  | share =>
      json ← fetchJson (shareEndpoint srv (shareId auth));
      let shareToken := optProp json (lit "token") in
      let shareWebsiteId := optProp json (lit "websiteId") in
      if negb (truthy shareToken) then Died ShareMissingToken else
      let websiteId := nullish websiteIdArg shareWebsiteId in
      if negb (truthy websiteId) then Died ShareMissingWebsiteId else
      Ok {| websiteId := websiteId;
            headers := [("x-umami-share-token", shareToken)] |}
  | token_mode =>
      if negb (truthy (token auth)) then Died MissingToken else
      if negb (truthy websiteIdArg) then Died MissingWebsiteId else
      bearer ← orThrow (ToString (token auth));
      Ok {| websiteId := websiteIdArg;
            headers := [("authorization", JStr (lit "Bearer " ++ bearer))] |}
  | userpass =>
      json ← fetchJson (loginEndpoint srv (username auth) (password auth));
      let token := optProp json (lit "token") in
      if negb (truthy token) then Died LoginMissingToken else
      if negb (truthy websiteIdArg) then Died MissingWebsiteId else
      bearer ← orThrow (ToString token);
      Ok {| websiteId := websiteIdArg;
            headers := [("authorization", JStr (lit "Bearer " ++ bearer))] |}
  end%string.

(** ** Rows of a metrics response (lines 240-245) *)

Definition isArray (v : JsValue) : bool :=
  match v with JArr _ => true | _ => false end.

Definition asArray (v : JsValue) : option (list JsValue) :=
  match v with JArr rows => Some rows | _ => None end.

Definition extractRows (json : JsValue) : option (list JsValue) :=
  if isArray json then asArray json
  else if truthy json && isArray (optProp json (lit "data"))
       then asArray (optProp json (lit "data"))
  else if truthy json && isArray (optProp json (lit "rows"))
       then asArray (optProp json (lit "rows"))
  else None.

(** ** The aggregation of one page (lines 280-286)

    One row: [Number(...)] comes first and can throw; a value that is not
    finite skips the row before its name is looked at; then the name is
    normalized, which can throw as well, and the total of its key grows by
    the number.  [None] is the uncaught [TypeError].  The sum is the exact
    one; the program rounds it to a double, which changes nothing for
    whole numbers of at most [2^53]. *)
Definition accumulateRow (totals : gmap jsstring Q) (row : JsValue)
  : option (gmap jsstring Q) :=
  let name := optProp row (lit "name") in
  visitors ← ToNumber (nullish (optProp row (lit "visitors")) (JNum (NumFinite 0)));
  match visitors with
  | NumFinite v =>
      path ← normalizePath name;
      Some (<[ path := Qplus (default 0%Q (totals !! path)) v ]> totals)
  | _ => Some totals
  end.

(** [for (const row of rows) { ... }] *)
Fixpoint accumulatePage (totals : gmap jsstring Q) (rows : list JsValue)
  : option (gmap jsstring Q) :=
  match rows with
  | [] => Some totals
  | row :: rest => totals' ← accumulateRow totals row; accumulatePage totals' rest
  end.

(** ** The pagination loop (lines 267-287)

    The loop has no bound of its own, so the model counts iterations:
    [None] means that [fuel] requests were made and the loop is still
    running; [Some r] is how the loop ended, [Ok totals] at [break],
    [Died e] where the run exits in [die], [Thrown x] where a row raises
    or a body raises an exception.  The reply to a request is taken from
    the server by the offset of the request: the other parts of the URL
    are values fixed before the loop, and the building of the URL (lines
    268-272) is not modelled here, so [paginate] is the loop of a run
    whose website id [encodeURIComponent] accepts; [exportLoop] below adds
    the exception that it throws otherwise, before the first request.
    The offset is an exact integer: the program's double is that integer
    as long as the offsets are whole numbers of at most [2^53] (see
    [exactOffsets]). *)
Fixpoint paginate (srv : Server) (limit : Z) (fuel : nat) (offset : Z)
    (totals : gmap jsstring Q) : option (Result (gmap jsstring Q)) :=
  match fuel with
  | O => None
  | S fuel' =>
      match fetchJson (metricsEndpoint srv offset) with
      | Ok json =>
          match extractRows json with
          | None => Some (Died UnexpectedShape)
          | Some rows =>
              if (Z.of_nat (length rows) =? 0) then Some (Ok totals)
              else
                match accumulatePage totals rows with
                | Some totals' => paginate srv limit fuel' (offset + limit) totals'
                | None => Some (Thrown TypeError)
                end
          end
      | Died e => Some (Died e)
      | Thrown x => Some (Thrown x)
      end
  end.

End Pipeline.

(** * Vocabulary of the properties *)

(** Two slashes in a row somewhere in the string. *)
Fixpoint hasDoubleSlash (s : jsstring) : bool :=
  match s with
  | a :: t =>
      match t with
      | b :: _ => ((a =? chSlash) && (b =? chSlash))%N || hasDoubleSlash t
      | [] => false
      end
  | [] => false
  end.

(** What the normalizer returns: a string that starts and ends with a
    slash, holds no [?] and no [#], and never two slashes in a row. *)
Definition PathKey (s : jsstring) : Prop :=
  startsWithSlash s = true /\ endsWithSlash s = true /\
  (chQuestion ∉ s) /\ (chHash ∉ s) /\ hasDoubleSlash s = false.

(** Lines 96-109, from the string that reaches line 96. *)
Definition finishPath (raw : jsstring) : jsstring :=
  let q := indexOf chQuestion raw in
  let h := indexOf chHash raw in
  let raw :=
    match firstCut q h with
    | Some cut => slice0 cut raw
    | None => raw
    end in
  let raw := collapseSlashes raw in
  let raw := if startsWithSlash raw then raw else chSlash :: raw in
  let raw :=
    if (1 <? Z.of_nat (length raw)) && endsWithSlash raw then raw
    else if negb (jsstring_eqb raw (lit "/")) then raw ++ lit "/"
    else raw in
  if isEmptyStr raw then lit "/" else raw.

(** The two readings a row gets at lines 281-284: the number its
    [visitors] field converts to, and the key its [name] normalizes to;
    [None] when the conversion throws. *)
Definition visitorsOf `{B : Builtins} (row : JsValue) : option JsNumber :=
  ToNumber (nullish (optProp row (lit "visitors")) (JNum (NumFinite 0))).

Definition pathOf `{B : Builtins} (row : JsValue) : option jsstring :=
  normalizePath (optProp row (lit "name")).

(** What a row adds, whatever the totals are: nothing when its number is
    not finite, else a number for a key; [None] when the row throws. *)
Definition contribution `{B : Builtins} (row : JsValue)
  : option (option (jsstring * Q)) :=
  visitors ← visitorsOf row;
  match visitors with
  | NumFinite v => path ← pathOf row; Some (Some (path, v))
  | _ => Some None
  end.

Definition addTo (totals : gmap jsstring Q) (c : option (jsstring * Q))
  : gmap jsstring Q :=
  match c with
  | Some (path, v) => <[ path := Qplus (default 0%Q (totals !! path)) v ]> totals
  | None => totals
  end.

(** A row whose conversions do not throw. *)
Definition convertible `{B : Builtins} (row : JsValue) : Prop :=
  is_Some (contribution row).

(** The pages of a run accumulated one after the other. *)
Fixpoint accumulatePages `{B : Builtins} (totals : gmap jsstring Q)
    (pages : list (list JsValue)) : option (gmap jsstring Q) :=
  match pages with
  | [] => Some totals
  | p :: rest => totals' ← accumulatePage totals p; accumulatePages totals' rest
  end.

(** The rows that a metrics request at [offset] yields, when it yields
    any. *)
Definition pageAt (srv : Server) (offset : Z) : option (list JsValue) :=
  match fetchJson (metricsEndpoint srv offset) with
  | Ok json => extractRows json
  | _ => None
  end.

(** [srv] answers the requests at [offset], [offset + limit], ... with the
    non-empty [pages], in this order, and the request after them with an
    empty page. *)
Fixpoint servesPages (srv : Server) (limit offset : Z) (pages : list (list JsValue))
  : Prop :=
  match pages with
  | [] => pageAt srv offset = Some []
  | p :: rest =>
      p <> [] /\ pageAt srv offset = Some p /\
      servesPages srv limit (offset + limit) rest
  end.

(** A server for the metrics endpoint only, which answers the request at
    offset [i * limit] (and the offsets up to the next multiple) with the
    [i]-th of [pages] as a bare array, and every later request with an
    empty array. *)
Definition pagesServer (limit : Z) (pages : list (list JsValue)) : Server := {|
  shareEndpoint := fun _ => NoResponse;
  loginEndpoint := fun _ _ => NoResponse;
  metricsEndpoint := fun offset =>
    Response true (BodyText (Some (JArr (nth (Z.to_nat (offset / limit)) pages []))));
|}.

(** A row [{ name, visitors }] with a string name and a finite number. *)
Definition mkRow (name : string) (visitors : Q) : JsValue :=
  JObj [(lit "name", JStr (lit name)); (lit "visitors", JNum (NumFinite visitors))].

(** A row whose [visitors] is an object with a property named
    [toString]; as JSON, [{"name": "/a", "visitors": {"toString": 1}}]. *)
Definition unconvertibleRow : JsValue :=
  JObj [(lit "name", JStr (lit "/a"));
        (lit "visitors", JObj [(lit "toString", JNum (NumFinite 1))])].

(** A value that is not an array and not an object. *)
Definition primitive (v : JsValue) : bool :=
  match v with
  | JArr _ | JObj _ => false
  | _ => true
  end.

(** An auth input is present when the value the resolver ends up with,
    the argument or else the environment variable, is truthy. *)
Definition present (arg : JsValue) (fallback : option jsstring) : bool :=
  truthy (nullish arg (envValue fallback)).

Definition shareIdPresent (args : Args) (env : Env) : bool :=
  present (arg_shareId args) (UMAMI_SHARE_ID env).
Definition tokenPresent (args : Args) (env : Env) : bool :=
  present (arg_token args) (UMAMI_TOKEN env).
Definition usernamePresent (args : Args) (env : Env) : bool :=
  present (arg_username args) (UMAMI_USERNAME env).
Definition passwordPresent (args : Args) (env : Env) : bool :=
  present (arg_password args) (UMAMI_PASSWORD env).

(** The present modes: [share] iff the share id is present, [token_mode]
    iff the token is, [userpass] iff the username or the password is. *)
Definition presentModes (args : Args) (env : Env) : list Mode :=
  (if shareIdPresent args env then [share] else []) ++
  (if tokenPresent args env then [token_mode] else []) ++
  (if usernamePresent args env || passwordPresent args env then [userpass] else []).

(** The three errors of the resolver are configuration errors. *)
Definition isConfigError (e : Fatal) : Prop :=
  e = MissingAuth \/ e = AmbiguousAuth \/ e = IncompleteUserpass.

(** The four auth inputs, each with its argument and its environment
    variable. *)
Inductive AuthField := FShareId | FUsername | FPassword | FToken.

Definition argOf (f : AuthField) (args : Args) : JsValue :=
  match f with
  | FShareId => arg_shareId args
  | FUsername => arg_username args
  | FPassword => arg_password args
  | FToken => arg_token args
  end.

Definition envOf (f : AuthField) (env : Env) : option jsstring :=
  match f with
  | FShareId => UMAMI_SHARE_ID env
  | FUsername => UMAMI_USERNAME env
  | FPassword => UMAMI_PASSWORD env
  | FToken => UMAMI_TOKEN env
  end.

(** The environment with one of the four variables set to [v] (or unset). *)
Definition setEnv (f : AuthField) (v : option jsstring) (env : Env) : Env :=
  match f with
  | FShareId => {| UMAMI_SHARE_ID := v; UMAMI_USERNAME := UMAMI_USERNAME env;
                   UMAMI_PASSWORD := UMAMI_PASSWORD env; UMAMI_TOKEN := UMAMI_TOKEN env |}
  | FUsername => {| UMAMI_SHARE_ID := UMAMI_SHARE_ID env; UMAMI_USERNAME := v;
                    UMAMI_PASSWORD := UMAMI_PASSWORD env; UMAMI_TOKEN := UMAMI_TOKEN env |}
  | FPassword => {| UMAMI_SHARE_ID := UMAMI_SHARE_ID env;
                    UMAMI_USERNAME := UMAMI_USERNAME env;
                    UMAMI_PASSWORD := v; UMAMI_TOKEN := UMAMI_TOKEN env |}
  | FToken => {| UMAMI_SHARE_ID := UMAMI_SHARE_ID env;
                 UMAMI_USERNAME := UMAMI_USERNAME env;
                 UMAMI_PASSWORD := UMAMI_PASSWORD env; UMAMI_TOKEN := v |}
  end.

(** No variable set. *)
Definition noEnv : Env :=
  {| UMAMI_SHARE_ID := None; UMAMI_USERNAME := None;
     UMAMI_PASSWORD := None; UMAMI_TOKEN := None |}.

(** Every stored total is at least zero. *)
Definition nonnegTotals (t : gmap jsstring Q) : Prop :=
  forall k v, t !! k = Some v -> (0 <= v)%Q.

(** Every key of [t] is a key of [t'], with a value at least as large. *)
Definition totalsLe (t t' : gmap jsstring Q) : Prop :=
  forall k v, t !! k = Some v -> exists v', t' !! k = Some v' /\ (v <= v')%Q.

(** A row that, when it counts at all, counts for zero or more. *)
Definition nonnegRow `{B : Builtins} (row : JsValue) : Prop :=
  forall v, visitorsOf row = Some (NumFinite v) -> (0 <= v)%Q.

(** An argument counts as supplied to [??] when it is neither [undefined]
    nor [null]. *)
Definition supplied (v : JsValue) : bool :=
  match v with
  | JUndefined | JNull => false
  | _ => true
  end.

(** A server whose share lookup always answers with the JSON value
    [json], and which answers nothing else. *)
Definition shareServer (json : JsValue) : Server := {|
  shareEndpoint := fun _ => Response true (BodyText (Some json));
  loginEndpoint := fun _ _ => NoResponse;
  metricsEndpoint := fun _ => NoResponse;
|}.

(** The auth of share mode with the share id ["S1"]. *)
Definition shareAuth : AuthSpec :=
  {| mode := share; shareId := JStr (lit "S1"); username := JUndefined;
     password := JUndefined; token := JUndefined |}.

(** The server of the end-to-end scenario: the share lookup of ["S1"]
    answers [{token: "T", websiteId: "W"}]; the metrics request at offset
    0 answers [[{name: "/a", visitors: 3}, {name: "/a/", visitors: 2}]] and
    the one at offset [limit] answers [[]]. *)
Definition scenarioServer (limit : Z) : Server := {|
  shareEndpoint := fun id =>
    match id with
    | JStr s =>
        if jsstring_eqb s (lit "S1")
        then Response true
               (BodyText (Some (JObj [(lit "token", JStr (lit "T"));
                                      (lit "websiteId", JStr (lit "W"))])))
        else Response false (BodyText None)
    | _ => Response false (BodyText None)
    end;
  loginEndpoint := fun _ _ => NoResponse;
  metricsEndpoint := fun offset =>
    if offset =? 0
    then Response true (BodyText (Some (JArr [mkRow "/a" 3; mkRow "/a/" 2])))
    else if offset =? limit then Response true (BodyText (Some (JArr [])))
    else NoResponse;
|}.

(** * The command line and the start of a run *)

(** ** More string operations *)

Definition chEquals : N := 61.  (* '=' *)
Definition chDash : N := 45.    (* '-' *)
Definition chLF : N := 10.      (* line feed *)

(** [s.startsWith(p)] *)
Fixpoint startsWith (p s : jsstring) : bool :=
  match p, s with
  | [], _ => true
  | c :: p', d :: s' => (c =? d)%N && startsWith p' s'
  | _ :: _, [] => false
  end.

(** [s.slice(b)] and [s.slice(b, e)] for indices that are not negative. *)
Definition sliceFrom (b : Z) (s : jsstring) : jsstring := skipn (Z.to_nat b) s.

Definition slice (b e : Z) (s : jsstring) : jsstring :=
  firstn (Z.to_nat (e - b)) (skipn (Z.to_nat b) s).

(** [s.replace(/\/+$/g, '')]: the slashes at the end are removed. *)
Fixpoint dropSlashes (s : jsstring) : jsstring :=
  match s with
  | c :: t => if (c =? chSlash)%N then dropSlashes t else s
  | [] => []
  end.

Definition stripTrailingSlashes (s : jsstring) : jsstring :=
  rev (dropSlashes (rev s)).

(** ** How the process stops

    [die] (lines 63-66) writes [String(message)] without the whitespace at
    its end, and a line feed, to the error stream, and exits with code 1;
    the regular expression [\s] matches the code units that [trim]
    strips. *)
Definition dieOutput (message : jsstring) : jsstring := trimEnd message ++ [chLF].

(** The [die] calls of [toNumber], [exportPathVisitors] and [main], with
    what their messages interpolate. *)
Inductive ParamError :=
  | MissingBaseUrl                                  (* line 251 *)
  | InvalidNumber (name : string) (value : JsValue) (* line 71 *)
  | MissingStartAt                                  (* line 256 *)
  | MissingEndAt                                    (* line 257 *)
  | InvalidLimit (limit : Q)                        (* line 259 *)
  | UnknownCommand (cmd : JsValue).                 (* line 313 *)

(** Every way in which a run stops before the pagination starts:
    [printHelp] and [printExportHelp] write their text and exit, and so do
    [die] and an exception that nothing catches. *)
Inductive StopReason :=
  | ShowHelp
  | ShowExportHelp
  | BadParam (e : ParamError)
  | Fatality (e : Fatal)
  | Uncaught (x : Exception).

(** The exit code: the two help functions are only called with their
    default, 0; [die] is only called with its default, 1, which is also
    the code of an uncaught exception. *)
Definition exitCode (s : StopReason) : Z :=
  match s with
  | ShowHelp | ShowExportHelp => 0
  | _ => 1
  end.

Inductive Run (A : Type) :=
  | Continue (a : A)
  | Stop (s : StopReason).

Arguments Continue {A} a.
Arguments Stop {A} s.

#[export] Instance Run_bind : MBind Run := fun A C k r =>
  match r with
  | Continue a => k a
  | Stop s => Stop s
  end.

Definition ofResult {A : Type} (r : Result A) : Run A :=
  match r with
  | Ok a => Continue a
  | Died e => Stop (Fatality e)
  | Thrown x => Stop (Uncaught x)
  end.

Definition ofConversion {A : Type} (o : option A) : Run A :=
  match o with
  | Some a => Continue a
  | None => Stop (Uncaught TypeError)
  end.

(** ** The arguments object (lines 112-143)

    The object that [parseArgs] builds, as the map of its own properties;
    its positional arguments are the array under the key ["_"]. *)

(** [args.key] and [args[key]] for a key that objects do not inherit. *)
Definition getProp (args : gmap jsstring JsValue) (key : jsstring) : JsValue :=
  default JUndefined (args !! key).

(** [args[key] = value] for a value that is a string or [true].  The key
    ["__proto__"] reaches the setter that objects inherit, which ignores
    a value that is not an object; every other key becomes, or stays, an
    own property. *)
Definition setProp (key : jsstring) (value : JsValue) (args : gmap jsstring JsValue)
  : gmap jsstring JsValue :=
  if jsstring_eqb key (lit "__proto__") then args else <[ key := value ]> args.

(** [args._.push(...items)]: a [TypeError] when [args._] is no longer the
    array, since a string and [true] have no [push]. *)
Definition pushAll (items : list jsstring) (args : gmap jsstring JsValue)
  : option (gmap jsstring JsValue) :=
  match args !! lit "_" with
  | Some (JArr l) => Some (<[ lit "_" := JArr (l ++ List.map JStr items) ]> args)
  | _ => None
  end.

(** The loop of [parseArgs], on the arguments from index [i] on. *)
Fixpoint parseLoop (argv : list jsstring) (args : gmap jsstring JsValue)
  : option (gmap jsstring JsValue) :=
  match argv with
  | [] => Some args
  | a :: rest =>
      if jsstring_eqb a (lit "-h") || jsstring_eqb a (lit "--help")
      then parseLoop rest (setProp (lit "help") (JBool true) args)
      else if jsstring_eqb a (lit "--") then pushAll rest args
      else if startsWith (lit "--") a then
        let eq := indexOf chEquals a in
        if negb (eq =? -1)
        then parseLoop rest (setProp (slice 2 eq a) (JStr (sliceFrom (eq + 1) a)) args)
        else
          let key := sliceFrom 2 a in
          match rest with
          | next :: rest' =>
              if startsWith (lit "-") next
              then parseLoop rest (setProp key (JBool true) args)
              else parseLoop rest' (setProp key (JStr next) args)
          | [] => parseLoop rest (setProp key (JBool true) args)
          end
      else
        args' ← pushAll [a] args;
        parseLoop rest args'
  end.

Definition parseArgs (argv : list jsstring) : option (gmap jsstring JsValue) :=
  parseLoop argv {[ lit "_" := JArr [] ]}.

(** ** Numbers and the base URL (lines 68-78) *)

Section Parameters.
Context {B : Builtins}.

(** [toNumber(value, name)]: nothing for an option that is absent or
    empty, else its number, which must be finite. *)
Definition toNumber (value : JsValue) (name : string) : Run (option Q) :=
  match value with
  | JUndefined | JNull | JStr [] => Continue None
  | _ =>
      n ← ofConversion (ToNumber value);
      match n with
      | NumFinite q => Continue (Some q)
      | _ => Stop (BadParam (InvalidNumber name value))
      end
  end.

(** [normalizeBaseUrl(raw)]: a falsy value is returned as it is. *)
Definition normalizeBaseUrl (raw : JsValue) : option JsValue :=
  if negb (truthy raw) then Some raw
  else s ← ToString raw; Some (JStr (stripTrailingSlashes (trim s))).

(** ** The start of [exportPathVisitors] (lines 247-262)

    [prepareExport] is the function up to the pagination loop: it stops
    where the function exits (the help text, a [die], an exception), and
    otherwise gives the values that the loop and the output use. *)

Definition DEFAULT_LIMIT : Q := 500.

(** [Number.isInteger(q)] for a finite number. *)
Definition isInteger (q : Q) : bool := (Qden (Qred q) =? 1)%positive.

(** The environment variables that the command reads. *)
Record Environment := {
  authEnv : Env;
  UMAMI_BASE_URL : option jsstring;
  UMAMI_WEBSITE_ID : option jsstring;
}.

(** The four options that [resolveAuthArgs] reads in the arguments
    object. *)
Definition authArgs (args : gmap jsstring JsValue) : Args :=
  {| arg_shareId := getProp args (lit "shareId");
     arg_username := getProp args (lit "username");
     arg_password := getProp args (lit "password");
     arg_token := getProp args (lit "token") |}.

(** What the function has in hand when the pagination loop starts. *)
Record Prepared := {
  baseUrl : JsValue;
  startAt : Q;
  endAt : Q;
  limit : Q;
  credentials : Credentials;
  outPath : JsValue;
}.

Definition prepareExport (args : gmap jsstring JsValue) (env : Environment)
    (srv : Server) : Run Prepared :=
  if truthy (getProp args (lit "help")) || truthy (getProp args (lit "h"))
  then Stop ShowExportHelp else
  baseUrl ← ofConversion
    (normalizeBaseUrl (nullish (getProp args (lit "baseUrl"))
                               (envValue (UMAMI_BASE_URL env))));
  if negb (truthy baseUrl) then Stop (BadParam MissingBaseUrl) else
  let websiteIdArg :=
    nullish (getProp args (lit "websiteId")) (envValue (UMAMI_WEBSITE_ID env)) in
  startAt ← toNumber (getProp args (lit "startAt")) "startAt";
  endAt ← toNumber (getProp args (lit "endAt")) "endAt";
  match startAt, endAt with
  | None, _ => Stop (BadParam MissingStartAt)
  | Some _, None => Stop (BadParam MissingEndAt)
  | Some startAt, Some endAt =>
      limit ← toNumber (nullish (getProp args (lit "limit"))
                                (JNum (NumFinite DEFAULT_LIMIT))) "limit";
      let limit := default DEFAULT_LIMIT limit in
      if negb (isInteger limit) || Qle_bool limit 0
      then Stop (BadParam (InvalidLimit limit)) else
      auth ← ofResult (resolveAuthArgs (authArgs args) (authEnv env));
      cred ← ofResult (getAuthHeaders srv auth websiteIdArg);
      Continue {| baseUrl := baseUrl; startAt := startAt; endAt := endAt;
                  limit := limit; credentials := cred;
                  outPath := getProp args (lit "out") |}
  end.

(** ** [main] (lines 299-314), on [process.argv.slice(2)]

    [tail argv] is [process.argv.slice(3)].  The result is that of the
    call of [exportPathVisitors], taken up to the start of its loop, when
    [main] gets that far. *)

(** [v[0]]: an element of an array, a character of a string. *)
Definition index0 (v : JsValue) : JsValue :=
  match v with
  | JArr (x :: _) => x
  | JStr (c :: _) => JStr [c]
  | _ => JUndefined
  end.

(** [v === 'literal'] *)
Definition isString (v : JsValue) (s : jsstring) : bool :=
  match v with
  | JStr x => jsstring_eqb x s
  | _ => false
  end.

Definition main (argv : list jsstring) (env : Environment) (srv : Server)
  : Run Prepared :=
  args ← ofConversion (parseArgs argv);
  let cmd := index0 (getProp args (lit "_")) in
  if negb (truthy cmd) || isString cmd (lit "help") || isString cmd (lit "--help")
     || isString cmd (lit "-h")
  then Stop ShowHelp
  else if isString cmd (lit "export-path-visitors") then
    if truthy (getProp args (lit "help"))
    then prepareExport {[ lit "help" := JBool true ]} env srv
    else
      args' ← ofConversion (parseArgs (tail argv));
      prepareExport args' env srv
  else if truthy (getProp args (lit "help")) then Stop ShowHelp
  else Stop (BadParam (UnknownCommand cmd)).

End Parameters.

(** ** The loop with the URL of its requests (lines 267-287)

    Every turn of the loop builds the URL of its request before it
    fetches.  Of the values in the URL, four are numbers and the base URL
    is a string, which always encode; [encodeURIComponent(websiteId)] can
    throw, and it does so in the first turn, before any request: a
    [TypeError] when the website id does not convert to a string, a
    [URIError] when the string holds a surrogate without its pair. *)

Definition isHighSurrogate (c : N) : bool := ((55296 <=? c) && (c <=? 56319))%N.
Definition isLowSurrogate (c : N) : bool := ((56320 <=? c) && (c <=? 57343))%N.

(** No surrogate is on its own. *)
Fixpoint wellFormed (s : jsstring) : bool :=
  match s with
  | [] => true
  | c :: t =>
      if isHighSurrogate c then
        match t with
        | d :: t' => isLowSurrogate d && wellFormed t'
        | [] => false
        end
      else negb (isLowSurrogate c) && wellFormed t
  end.

Inductive UrlException :=
  | UrlTypeError
  | UrlURIError.

(** What [encodeURIComponent(v)] throws; [None] when it returns. *)
Definition encodeURIComponent_throws `{B : Builtins} (v : JsValue)
  : option UrlException :=
  match ToString v with
  | None => Some UrlTypeError
  | Some s => if wellFormed s then None else Some UrlURIError
  end.

(** How the loop ends: at the URL of its first request, or as [paginate]
    says. *)
Inductive LoopEnd :=
  | NoUrl (x : UrlException)
  | Paginated (r : Result (gmap jsstring Q)).

(** The loop as [exportPathVisitors] runs it, from offset 0 and empty
    totals; [None] when it is still running after [fuel] requests. *)
Definition exportLoop `{B : Builtins} (websiteId : JsValue) (srv : Server)
    (limit : Z) (fuel : nat) : option LoopEnd :=
  match encodeURIComponent_throws websiteId with
  | Some x => Some (NoUrl x)
  | None => r ← paginate srv limit fuel 0 ∅; Some (Paginated r)
  end.

(** ** Vocabulary of the command line *)

(** An option token [--key=value]. *)
Definition eqToken (key value : jsstring) : jsstring :=
  lit "--" ++ key ++ [chEquals] ++ value.

(** An option token [--key]. *)
Definition keyToken (key : jsstring) : jsstring := lit "--" ++ key.

(** A key that [--key] and [--key=value] name: it holds no [=], and
    [--key] is neither [--] nor [--help]. *)
Definition plainKey (key : jsstring) : Prop :=
  (chEquals ∉ key) /\ key <> [] /\ key <> lit "help".


(** A token that assigns to the key ["_"], where the positional arguments
    are: [--_] and [--_=value]. *)
Definition clobbersPositional (tok : jsstring) : bool :=
  jsstring_eqb tok (lit "--_") || startsWith (lit "--_=") tok.

(** The values that the parser gives to an option. *)
Definition optionValue (v : JsValue) : Prop :=
  v = JBool true \/ exists s, v = JStr s.

(** An arguments object as the parser builds it: the positional
    arguments are an array of strings, and every option is a string or
    [true]. *)
Definition parsedArgs (args : gmap jsstring JsValue) (positional : list jsstring)
  : Prop :=
  args !! lit "_" = Some (JArr (List.map JStr positional)) /\
  forall key v, key <> lit "_" -> args !! key = Some v -> optionValue v.

(** The positional arguments are no longer an array. *)
Definition clobbered (args : gmap jsstring JsValue) : Prop :=
  forall l, args !! lit "_" <> Some (JArr l).

(** No environment variable is set. *)
Definition noEnvironment : Environment :=
  {| authEnv := noEnv; UMAMI_BASE_URL := None; UMAMI_WEBSITE_ID := None |}.

(** ** Vocabulary of strings *)

Definition allWhiteSpace (s : jsstring) : Prop :=
  Forall (fun c => isWhiteSpace c = true) s.

Definition allSlashes (s : jsstring) : Prop := Forall (fun c => c = chSlash) s.

Definition startsWithSpace (s : jsstring) : bool :=
  match s with c :: _ => isWhiteSpace c | [] => false end.

Definition endsWithSpace (s : jsstring) : bool := startsWithSpace (rev s).

(** ** Vocabulary of the pagination *)

(** The program keeps the offset in a double and adds [limit] to it at
    every turn of the loop.  From an offset that is not negative, with a
    [limit] above zero, the offsets of the first [requests] requests and
    of the one after them are integers of at most [2^53]: a double holds
    each of them exactly and adds them without rounding, so that they are
    the integers [offset + limit * i] of the model. *)
Definition exactOffsets (limit offset : Z) (requests : nat) : Prop :=
  0 <= offset /\ 0 < limit /\ offset + limit * Z.of_nat requests <= 2 ^ 53.

(** One request of the loop (lines 274-277): the rows of the page, or how
    the run ends there. *)
Definition requestPage (srv : Server) (offset : Z) : Result (list JsValue) :=
  json ← fetchJson (metricsEndpoint srv offset);
  match extractRows json with
  | Some rows => Ok rows
  | None => Died UnexpectedShape
  end.




(** ** Vocabulary of the credential exchange *)

(** The arguments [--token T], and the auth that the resolver returns for
    them. *)
Definition tokenArgs : Args :=
  {| arg_shareId := JUndefined; arg_username := JUndefined;
     arg_password := JUndefined; arg_token := JStr (lit "T") |}.

Definition tokenAuth : AuthSpec :=
  {| mode := token_mode; shareId := JUndefined; username := JUndefined;
     password := JUndefined; token := JStr (lit "T") |}.

(** The auth of userpass mode with the user ["u"] and the password
    ["p"]. *)
Definition userpassAuth : AuthSpec :=
  {| mode := userpass; shareId := JUndefined; username := JStr (lit "u");
     password := JStr (lit "p"); token := JUndefined |}.

(** A server whose login always answers with the JSON value [json], and
    which answers nothing else. *)
Definition loginServer (json : JsValue) : Server := {|
  shareEndpoint := fun _ => NoResponse;
  loginEndpoint := fun _ _ => Response true (BodyText (Some json));
  metricsEndpoint := fun _ => NoResponse;
|}.

(** The name of the header that each mode authenticates with. *)
Definition headerName (m : Mode) : string :=
  match m with
  | share => "x-umami-share-token"
  | _ => "authorization"
  end.

(** ** Vocabulary of the start of a run *)

(** The ways of stopping that come before any request: the help text, a
    parameter that is missing or invalid, and the configuration errors of
    the auth resolver. *)
Definition beforeRequests (s : StopReason) : Prop :=
  s = ShowExportHelp \/ (exists e, s = BadParam e) \/
  (exists e, s = Fatality e /\ isConfigError e).

(** Arguments for a run in token mode, as the parser builds them from
    [--baseUrl https://h/ --startAt --endAt --token T --websiteId W]. *)
Definition sampleArgs : gmap jsstring JsValue :=
  <[ lit "websiteId" := JStr (lit "W") ]>
  (<[ lit "token" := JStr (lit "T") ]>
  (<[ lit "endAt" := JBool true ]>
  (<[ lit "startAt" := JBool true ]>
  (<[ lit "baseUrl" := JStr (lit "https://h/") ]> {[ lit "_" := JArr [] ]})))).

(** What the run of [sampleArgs] starts its loop with. *)
Definition samplePrepared : Prepared :=
  {| baseUrl := JStr (lit "https://h"); startAt := 1; endAt := 1; limit := 500;
     credentials :=
       {| websiteId := JStr (lit "W");
          headers := [("authorization"%string, JStr (lit "Bearer T"))] |};
     outPath := JUndefined |}.

(** The environment in which only [UMAMI_BASE_URL] is set. *)
Definition baseUrlEnvironment (url : jsstring) : Environment :=
  {| authEnv := noEnv; UMAMI_BASE_URL := Some url; UMAMI_WEBSITE_ID := None |}.

(** ** Vocabulary for comparing command lines *)

(** The positional arguments are still an array. *)
Definition hasPositional (args : gmap jsstring JsValue) : bool :=
  match args !! lit "_" with
  | Some (JArr _) => true
  | _ => false
  end.

(** Two arguments objects that agree on every key outside [keys], and of
    which both or none have an array of positional arguments. *)
Definition sameArgs (keys : list jsstring) (a b : gmap jsstring JsValue) : Prop :=
  (forall k, k ∉ keys -> a !! k = b !! k) /\
  hasPositional a = hasPositional b.

(** Two runs of the parser that both throw, or return such objects. *)
Definition sameResults (keys : list jsstring)
    (r1 r2 : option (gmap jsstring JsValue)) : Prop :=
  match r1, r2 with
  | Some a, Some b => sameArgs keys a b
  | None, None => True
  | _, _ => False
  end.

(** The name of the one command. *)
Definition exportCommand : jsstring := lit "export-path-visitors".

(** ** Vocabulary of the totals *)

(** The sum of the values of the totals. *)
Definition totalVisitors (totals : gmap jsstring Q) : Q :=
  map_fold (fun _ v acc => Qplus acc v) 0%Q totals.

(** What a row counts for: its number of visitors when that is finite,
    and nothing otherwise. *)
Definition counted `{B : Builtins} (row : JsValue) : Q :=
  match contribution row with
  | Some (Some (_, v)) => v
  | _ => 0%Q
  end.

Definition countedSum `{B : Builtins} (rows : list JsValue) : Q :=
  foldr (fun row acc => Qplus (counted row) acc) 0%Q rows.

(** A row that counts for a whole number, zero or more. *)
Definition wholeCount `{B : Builtins} (row : JsValue) : Prop :=
  exists n : Z, 0 <= n /\ (counted row == inject_Z n)%Q.

(** Rows whose counts the program adds without rounding: whole numbers,
    not negative, with a sum of at most [2^53].  Every total is then a
    whole number of at most [2^53] at every step, which a double holds
    exactly, and the sums of line 285 are the exact sums of the model. *)
Definition exactCounts `{B : Builtins} (rows : list JsValue) : Prop :=
  Forall wholeCount rows /\ (countedSum rows <= inject_Z (2 ^ 53))%Q.

(** Every key of the totals is a path key. *)
Definition pathKeys (totals : gmap jsstring Q) : Prop :=
  forall k, is_Some (totals !! k) -> PathKey k.
(** * Properties *)

(** ** Strings *)

Lemma startsWithSlash_inv (s : jsstring) :
  startsWithSlash s = true -> exists t, s = chSlash :: t.
Proof.
  destruct s as [|c t]; simpl; [discriminate|].
  intros H. apply N.eqb_eq in H. subst c. now exists t.
Qed.

Lemma trimStart_slash (s : jsstring) :
  startsWithSlash s = true -> trimStart s = s.
Proof.
  intros H. destruct (startsWithSlash_inv s H) as [t ->]. reflexivity.
Qed.

Lemma trim_slashes (s : jsstring) :
  startsWithSlash s = true -> endsWithSlash s = true -> trim s = s.
Proof.
  intros Hs He. unfold trim, trimEnd. rewrite (trimStart_slash s Hs).
  rewrite (trimStart_slash (rev s) He). apply rev_involutive.
Qed.

Lemma endsWithSlash_snoc (s : jsstring) (c : N) :
  endsWithSlash (s ++ [c]) = (c =? chSlash)%N.
Proof. unfold endsWithSlash. rewrite rev_unit. reflexivity. Qed.

Lemma endsWithSlash_cons2 (a b : N) (t : jsstring) :
  endsWithSlash (a :: b :: t) = endsWithSlash (b :: t).
Proof.
  unfold endsWithSlash. simpl.
  destruct (rev t ++ [b]) as [|x l] eqn:E.
  - destruct (rev t); discriminate.
  - reflexivity.
Qed.

(** [indexOf] gives [-1] or a position before which the character does
    not occur. *)
Lemma indexOfFrom_notin (c : N) (s : jsstring) (i : Z) :
  c ∉ s -> indexOfFrom c s i = -1.
Proof.
  revert i. induction s as [|d t IH]; intros i Hn; simpl; [reflexivity|].
  apply not_elem_of_cons in Hn as [Hd Ht].
  destruct (N.eqb_spec d c); [congruence|]. now apply IH.
Qed.

Lemma indexOfFrom_none (c : N) (s : jsstring) (i : Z) :
  0 <= i -> indexOfFrom c s i = -1 -> c ∉ s.
Proof.
  revert i. induction s as [|d t IH]; intros i Hi H; [apply not_elem_of_nil|].
  simpl in H. destruct (N.eqb_spec d c) as [->|Hne]; [lia|].
  apply not_elem_of_cons. split; [congruence|]. apply (IH (i + 1)); [lia|assumption].
Qed.

Lemma indexOfFrom_range (c : N) (s : jsstring) (i : Z) :
  0 <= i -> indexOfFrom c s i = -1 \/ i <= indexOfFrom c s i.
Proof.
  revert i. induction s as [|d t IH]; intros i Hi; simpl; [now left|].
  destruct (d =? c)%N; [right; lia|].
  destruct (IH (i + 1)) as [H|H]; [lia|now left|right; lia].
Qed.

Lemma indexOfFrom_prefix (c : N) (s : jsstring) (i : Z) (n : nat) :
  0 <= i ->
  indexOfFrom c s i = -1 \/ Z.of_nat n <= indexOfFrom c s i - i ->
  c ∉ firstn n s.
Proof.
  revert i n. induction s as [|d t IH]; intros i n Hi H.
  - rewrite firstn_nil. apply not_elem_of_nil.
  - destruct n as [|n]; [apply not_elem_of_nil|].
    simpl in *. destruct (N.eqb_spec d c) as [->|Hne]; [lia|].
    apply not_elem_of_cons. split; [congruence|].
    apply (IH (i + 1)); lia.
Qed.

Lemma firstCut_spec (q h : Z) :
  (q = -1 \/ 0 <= q) -> (h = -1 \/ 0 <= h) ->
  match firstCut q h with
  | Some c => 0 <= c /\ (q = -1 \/ c <= q) /\ (h = -1 \/ c <= h)
  | None => q = -1 /\ h = -1
  end.
Proof.
  intros Hq Hh. unfold firstCut. simpl.
  destruct (Z.leb_spec 0 q), (Z.leb_spec 0 h); simpl;
    try destruct (Z.leb_spec q h); simpl; lia.
Qed.

(** Cutting at the first [?] or [#] leaves neither character. *)
Lemma cut_clean (raw : jsstring) :
  let cut := match firstCut (indexOf chQuestion raw) (indexOf chHash raw) with
             | Some c => slice0 c raw
             | None => raw
             end in
  (chQuestion ∉ cut) /\ (chHash ∉ cut).
Proof.
  unfold indexOf.
  pose proof (indexOfFrom_range chQuestion raw 0 ltac:(lia)) as Hq.
  pose proof (indexOfFrom_range chHash raw 0 ltac:(lia)) as Hh.
  pose proof (firstCut_spec _ _ Hq Hh) as Hc.
  destruct (firstCut _ _) as [c|]; simpl.
  - destruct Hc as (Hc0 & Hcq & Hch). unfold slice0. split.
    + apply (indexOfFrom_prefix _ _ 0); [lia|]. rewrite Z2Nat.id by lia. lia.
    + apply (indexOfFrom_prefix _ _ 0); [lia|]. rewrite Z2Nat.id by lia. lia.
  - destruct Hc as [Hq1 Hh1]. split.
    + apply (indexOfFrom_none _ _ 0); [lia|assumption].
    + apply (indexOfFrom_none _ _ 0); [lia|assumption].
Qed.

(** One step of [collapseSlashes], and of [hasDoubleSlash], on a string of
    two characters or more. *)
Ltac collapse_step a b t :=
  change (collapseSlashes (a :: b :: t))
    with (if ((a =? chSlash) && (b =? chSlash))%N then collapseSlashes (b :: t)
          else a :: collapseSlashes (b :: t)).

Ltac double_step a b t :=
  change (hasDoubleSlash (a :: b :: t))
    with (((a =? chSlash) && (b =? chSlash))%N || hasDoubleSlash (b :: t)).

Lemma collapseSlashes_elem (x : N) (s : jsstring) :
  x ∈ collapseSlashes s -> x ∈ s.
Proof.
  induction s as [|a t IH]; [trivial|].
  destruct t as [|b t']; [trivial|].
  collapse_step a b t'.
  destruct ((a =? chSlash) && (b =? chSlash))%N; intros H.
  - right. auto.
  - apply elem_of_cons in H as [->|H]; [left|right; auto].
Qed.

Lemma collapseSlashes_head (s : jsstring) :
  startsWithSlash (collapseSlashes s) = startsWithSlash s.
Proof.
  induction s as [|a t IH]; [reflexivity|].
  destruct t as [|b t']; [reflexivity|].
  collapse_step a b t'.
  destruct (N.eqb_spec a chSlash) as [->|Ha]; simpl andb.
  - destruct (N.eqb_spec b chSlash) as [->|Hb]; [|reflexivity].
    rewrite IH. reflexivity.
  - simpl. now apply N.eqb_neq in Ha as ->.
Qed.

Lemma collapseSlashes_single (s : jsstring) :
  hasDoubleSlash (collapseSlashes s) = false.
Proof.
  induction s as [|a t IH]; [reflexivity|].
  destruct t as [|b t']; [reflexivity|].
  collapse_step a b t'.
  destruct ((a =? chSlash) && (b =? chSlash))%N eqn:E; [exact IH|].
  pose proof (collapseSlashes_head (b :: t')) as Hh.
  destruct (collapseSlashes (b :: t')) as [|c r] eqn:Ec; [reflexivity|].
  double_step a c r.
  rewrite IH, orb_false_r. simpl in Hh. rewrite Hh. exact E.
Qed.

Lemma collapseSlashes_id (s : jsstring) :
  hasDoubleSlash s = false -> collapseSlashes s = s.
Proof.
  induction s as [|a t IH]; [reflexivity|].
  destruct t as [|b t']; [reflexivity|].
  double_step a b t'.
  collapse_step a b t'.
  intros H. apply orb_false_iff in H as [-> H]. now rewrite IH.
Qed.

Lemma hasDoubleSlash_snoc (s : jsstring) :
  hasDoubleSlash s = false -> endsWithSlash s = false ->
  hasDoubleSlash (s ++ [chSlash]) = false.
Proof.
  induction s as [|a t IH]; [reflexivity|].
  destruct t as [|b t'].
  - intros _ He. unfold endsWithSlash in He. simpl in *. now rewrite He.
  - double_step a b t'.
    rewrite endsWithSlash_cons2. intros H He.
    apply orb_false_iff in H as [Hab H].
    change (hasDoubleSlash ((a :: b :: t') ++ [chSlash]))
      with (((a =? chSlash) && (b =? chSlash))%N
            || hasDoubleSlash ((b :: t') ++ [chSlash])).
    now rewrite Hab, IH.
Qed.

(** ** The path normalizer *)

Lemma PathKey_root : PathKey (lit "/").
Proof.
  repeat split; try reflexivity; intros H;
    apply list_elem_of_singleton in H; discriminate.
Qed.

Lemma finishPath_PathKey (raw : jsstring) : PathKey (finishPath raw).
Proof.
  unfold finishPath.
  destruct (cut_clean raw) as [Hq Hh]. cbv zeta in Hq, Hh.
  set (r1 := match firstCut _ _ with Some c => slice0 c raw | None => raw end) in *.
  clearbody r1.
  assert (Hq2 : chQuestion ∉ collapseSlashes r1)
    by (intros H; apply Hq, collapseSlashes_elem, H).
  assert (Hh2 : chHash ∉ collapseSlashes r1)
    by (intros H; apply Hh, collapseSlashes_elem, H).
  pose proof (collapseSlashes_single r1) as Hd.
  set (r2 := collapseSlashes r1) in *. clearbody r2.
  set (r3 := if startsWithSlash r2 then r2 else chSlash :: r2).
  assert (H3 : startsWithSlash r3 = true /\ (chQuestion ∉ r3) /\ (chHash ∉ r3)
                /\ hasDoubleSlash r3 = false).
  { subst r3. destruct (startsWithSlash r2) eqn:E; [auto|].
    repeat split.
    - intros H. apply elem_of_cons in H as [H|H]; [discriminate|auto].
    - intros H. apply elem_of_cons in H as [H|H]; [discriminate|auto].
    - destruct r2 as [|c r]; [reflexivity|].
      double_step chSlash c r.
      simpl in E. now rewrite E, Hd. }
  clearbody r3. destruct H3 as (Hs & Hq3 & Hh3 & Hd3).
  destruct (startsWithSlash_inv r3 Hs) as [t ->].
  destruct ((1 <? Z.of_nat (length (chSlash :: t))) && endsWithSlash (chSlash :: t))
    eqn:E.
  - apply andb_true_iff in E as [_ E]. simpl. repeat split; assumption.
  - destruct t as [|b t']; [simpl; apply PathKey_root|].
    assert (He : endsWithSlash (chSlash :: b :: t') = false).
    { apply andb_false_iff in E as [E|E]; [|exact E].
      apply Z.ltb_ge in E. simpl length in E. lia. }
    replace (negb (jsstring_eqb (chSlash :: b :: t') (lit "/"))) with true
      by (unfold jsstring_eqb; rewrite bool_decide_eq_false_2; [reflexivity|discriminate]).
    simpl isEmptyStr. cbv iota.
    repeat split.
    + change (lit "/") with [chSlash]. apply endsWithSlash_snoc.
    + intros H. apply elem_of_app in H as [H|H]; [auto|].
      apply list_elem_of_singleton in H; discriminate.
    + intros H. apply elem_of_app in H as [H|H]; [auto|].
      apply list_elem_of_singleton in H; discriminate.
    + change (lit "/") with [chSlash]. now apply hasDoubleSlash_snoc.
Qed.

Lemma finishPath_fix (s : jsstring) : PathKey s -> finishPath s = s.
Proof.
  intros (Hs & He & Hq & Hh & Hd). unfold finishPath, indexOf.
  rewrite (indexOfFrom_notin _ _ 0 Hq), (indexOfFrom_notin _ _ 0 Hh).
  change (firstCut (-1) (-1)) with (@None Z). cbv iota zeta.
  rewrite (collapseSlashes_id s Hd), Hs, He.
  destruct (startsWithSlash_inv s Hs) as [t ->].
  destruct t as [|b t']; [reflexivity|].
  replace (1 <? Z.of_nat (length (chSlash :: b :: t'))) with true; [reflexivity|].
  symmetry. apply Z.ltb_lt. simpl length. lia.
Qed.

Section NormalizerFacts.
Context {B : Builtins}.

(** Lines 82-93: the trimmed string, replaced by the pathname when it
    looks like a URL that the platform can parse. *)
Lemma normalizePath_stages (name : JsValue) :
  name <> JUndefined -> name <> JNull ->
  normalizePath name =
    str ← ToString name;
    let raw := trim str in
    Some (if isEmptyStr raw then lit "/"
          else finishPath
                 (if looksLikeUrl raw then
                    match URL_pathname raw with
                    | Some p => if isEmptyStr p then lit "/" else p
                    | None => raw
                    end
                  else raw)).
Proof.
  intros Hu Hn. destruct name; try congruence; unfold normalizePath;
    (destruct (ToString _) as [str|]; [|reflexivity]); simpl;
    destruct (isEmptyStr (trim str)); reflexivity.
Qed.

(** Every result of the normalizer is a path key. *)
Lemma normalizePath_PathKey (name : JsValue) (p : jsstring) :
  normalizePath name = Some p -> PathKey p.
Proof.
  destruct name; try (intros [= <-]; apply PathKey_root);
    (rewrite normalizePath_stages by discriminate;
     destruct (ToString _) as [str|]; [|discriminate]; simpl;
     intros [= <-]; destruct (isEmptyStr _);
     [apply PathKey_root|apply finishPath_PathKey]).
Qed.

(** A string never makes the normalizer throw. *)
Lemma normalizePath_string (s : jsstring) : is_Some (normalizePath (JStr s)).
Proof. rewrite normalizePath_stages by discriminate. simpl. eauto. Qed.

(** A path key is left as it is. *)
Lemma normalizePath_PathKey_id (s : jsstring) :
  PathKey s -> normalizePath (JStr s) = Some s.
Proof.
  intros HP. rewrite normalizePath_stages by discriminate. simpl.
  destruct HP as (Hs & He & Hrest).
  rewrite (trim_slashes s Hs He).
  assert (Hem : isEmptyStr s = false /\ looksLikeUrl s = false)
    by (destruct (startsWithSlash_inv s Hs) as [t ->]; split; reflexivity).
  destruct Hem as [-> ->]. f_equal. apply finishPath_fix. repeat split; tauto.
Qed.

End NormalizerFacts.

(** ** Exact sums

    Sums of rationals that differ only in the order of their terms are the
    same fraction, numerator and denominator, not just equivalent ones. *)


Lemma Qplus_swap_eq (x a b : Q) : Qplus (Qplus x a) b = Qplus (Qplus x b) a.
Proof.
  destruct x as [xn xd], a as [an ad], b as [bn bd]. unfold Qplus. simpl.
  f_equal.
  - rewrite !Pos2Z.inj_mul. ring.
  - rewrite <- !Pos.mul_assoc. f_equal. apply Pos.mul_comm.
Qed.

(** ** The aggregation *)

Lemma addTo_comm (totals : gmap jsstring Q) (c1 c2 : option (jsstring * Q)) :
  addTo (addTo totals c1) c2 = addTo (addTo totals c2) c1.
Proof.
  destruct c1 as [[p1 v1]|], c2 as [[p2 v2]|]; try reflexivity. simpl.
  destruct (decide (p1 = p2)) as [->|Hne].
  - rewrite !lookup_insert_eq, !insert_insert_eq. simpl.
    now rewrite Qplus_swap_eq.
  - rewrite !lookup_insert_ne by congruence. apply insert_insert_ne. congruence.
Qed.

Section AggregationFacts.
Context {B : Builtins}.

(** A row acts on the totals through its contribution alone. *)
Lemma accumulateRow_contribution (totals : gmap jsstring Q) (row : JsValue) :
  accumulateRow totals row = c ← contribution row; Some (addTo totals c).
Proof.
  unfold accumulateRow, contribution, visitorsOf, pathOf.
  destruct (ToNumber _) as [[v| | |]|]; try reflexivity. simpl.
  destruct (normalizePath _); reflexivity.
Qed.


Lemma accumulateRow_add (totals : gmap jsstring Q) (row : JsValue) (v : Q)
    (p : jsstring) :
  visitorsOf row = Some (NumFinite v) -> pathOf row = Some p ->
  accumulateRow totals row =
    Some (<[ p := Qplus (default 0%Q (totals !! p)) v ]> totals).
Proof.
  intros Hv Hp. rewrite accumulateRow_contribution. unfold contribution.
  rewrite Hv. simpl. rewrite Hp. reflexivity.
Qed.

Lemma accumulateRow_throws (totals : gmap jsstring Q) (row : JsValue) :
  accumulateRow totals row = None <-> contribution row = None.
Proof.
  rewrite accumulateRow_contribution. destruct (contribution row); simpl;
    split; congruence.
Qed.

(** Two rows can be accumulated in either order. *)
Lemma accumulateRow_comm (totals : gmap jsstring Q) (r1 r2 : JsValue) :
  (t ← accumulateRow totals r1; accumulateRow t r2) =
  (t ← accumulateRow totals r2; accumulateRow t r1).
Proof.
  rewrite (accumulateRow_contribution totals r1), (accumulateRow_contribution totals r2).
  destruct (contribution r1) as [c1|] eqn:E1, (contribution r2) as [c2|] eqn:E2;
    simpl; rewrite ?accumulateRow_contribution, ?E1, ?E2; simpl; try reflexivity.
  now rewrite addTo_comm.
Qed.

Lemma accumulatePage_perm (rows1 rows2 : list JsValue) :
  Permutation rows1 rows2 ->
  forall totals, accumulatePage totals rows1 = accumulatePage totals rows2.
Proof.
  induction 1 as [|x l1 l2 _ IH|x y l|l1 l2 l3 _ IH1 _ IH2]; intros totals.
  - reflexivity.
  - simpl. destruct (accumulateRow totals x); simpl; [apply IH|reflexivity].
  - pose proof (accumulateRow_comm totals x y) as Hc.
    simpl. destruct (accumulateRow totals y) as [ty|] eqn:Ey,
      (accumulateRow totals x) as [tx|] eqn:Ex; simpl in *.
    + destruct (accumulateRow ty x), (accumulateRow tx y); simpl in *;
        congruence.
    + now destruct (accumulateRow ty x).
    + now destruct (accumulateRow tx y).
    + reflexivity.
  - now rewrite IH1.
Qed.

Lemma accumulatePage_cons (totals : gmap jsstring Q) (row : JsValue)
    (rest : list JsValue) :
  accumulatePage totals (row :: rest) =
  (t ← accumulateRow totals row; accumulatePage t rest).
Proof. reflexivity. Qed.

Lemma accumulatePage_app (totals : gmap jsstring Q) (rows1 rows2 : list JsValue) :
  accumulatePage totals (rows1 ++ rows2) =
  (t ← accumulatePage totals rows1; accumulatePage t rows2).
Proof.
  revert totals. induction rows1 as [|r rows1 IH]; intros totals; simpl;
    [reflexivity|].
  destruct (accumulateRow totals r); simpl; [apply IH|reflexivity].
Qed.

(** Page after page is the same as all the rows in one page. *)
Lemma accumulatePages_concat (pages : list (list JsValue)) :
  forall totals,
    accumulatePages totals pages = accumulatePage totals (concat pages).
Proof.
  induction pages as [|p rest IH]; intros totals; simpl; [reflexivity|].
  rewrite accumulatePage_app. destruct (accumulatePage totals p); simpl;
    [apply IH|reflexivity].
Qed.

(** Rows that convert never stop a page. *)
Lemma accumulatePage_convertible (rows : list JsValue) :
  Forall convertible rows ->
  forall totals, is_Some (accumulatePage totals rows).
Proof.
  induction 1 as [|r rows [c Hc] _ IH]; intros totals; simpl; [eauto|].
  rewrite accumulateRow_contribution, Hc. simpl. apply IH.
Qed.

End AggregationFacts.

(** ** The pagination loop *)

Section PaginationFacts.
Context {B : Builtins}.
Variable srv : Server.
Variable limit : Z.

(** An empty page ends the loop with the totals as they are. *)
Lemma paginate_stop (fuel : nat) (offset : Z) (totals : gmap jsstring Q) :
  pageAt srv offset = Some [] ->
  paginate srv limit (S fuel) offset totals = Some (Ok totals).
Proof.
  unfold pageAt. simpl.
  destruct (fetchJson _) as [json|e|x]; try discriminate. now intros ->.
Qed.

(** A page with rows, however few, is accumulated and the next request is
    made [limit] further. *)
Lemma paginate_step (fuel : nat) (offset : Z) (totals totals' : gmap jsstring Q)
    (rows : list JsValue) :
  pageAt srv offset = Some rows -> rows <> [] ->
  accumulatePage totals rows = Some totals' ->
  paginate srv limit (S fuel) offset totals =
  paginate srv limit fuel (offset + limit) totals'.
Proof.
  unfold pageAt. simpl.
  destruct (fetchJson _) as [json|e|x]; try discriminate. intros -> Hne Hacc.
  destruct rows; [congruence|]. simpl length. cbv iota beta.
  replace (Z.of_nat (S (length rows)) =? 0) with false by (symmetry; apply Z.eqb_neq; lia).
  now rewrite Hacc.
Qed.

(** A row that throws ends the run there. *)
Lemma paginate_throw (fuel : nat) (offset : Z) (totals : gmap jsstring Q)
    (rows : list JsValue) :
  pageAt srv offset = Some rows ->
  accumulatePage totals rows = None ->
  paginate srv limit (S fuel) offset totals = Some (Thrown TypeError).
Proof.
  unfold pageAt. simpl.
  destruct (fetchJson _) as [json|e|x]; try discriminate. intros -> Hacc.
  destruct rows; [discriminate|]. simpl length.
  replace (Z.of_nat (S (length rows)) =? 0) with false by (symmetry; apply Z.eqb_neq; lia).
  now rewrite Hacc.
Qed.

(** A request that yields no rows array ends the run, and not at
    [break]. *)
Lemma paginate_abort (fuel : nat) (offset : Z) (totals : gmap jsstring Q) :
  pageAt srv offset = None ->
  exists r, paginate srv limit (S fuel) offset totals = Some r /\
            forall t, r <> Ok t.
Proof.
  unfold pageAt. simpl.
  destruct (fetchJson _) as [json|e|x].
  - intros ->. eexists. split; [reflexivity|discriminate].
  - intros _. eexists. split; [reflexivity|discriminate].
  - intros _. eexists. split; [reflexivity|discriminate].
Qed.

(** Pages that are served are accumulated in order; the run returns the
    totals, or ends at the first row that throws. *)
Lemma paginate_served (pages : list (list JsValue)) :
  forall (fuel : nat) (offset : Z) (totals : gmap jsstring Q),
    servesPages srv limit offset pages ->
    (length pages < fuel)%nat ->
    paginate srv limit fuel offset totals =
    Some (orThrow (accumulatePages totals pages)).
Proof.
  induction pages as [|p rest IH]; intros fuel offset totals Hs Hf;
    (destruct fuel as [|fuel]; [simpl in Hf; lia|]).
  - now apply paginate_stop.
  - destruct Hs as (Hne & Hp & Hrest). simpl in Hf.
    change (accumulatePages totals (p :: rest))
      with (t0 ← accumulatePage totals p; accumulatePages t0 rest).
    destruct (accumulatePage totals p) as [t'|] eqn:Hacc.
    + rewrite (paginate_step _ _ _ t' p Hp Hne Hacc). apply IH; [assumption|lia].
    + now apply (paginate_throw _ _ _ p).
Qed.

Lemma paginate_finished (fuel : nat) :
  forall (offset : Z) (totals t : gmap jsstring Q),
    paginate srv limit fuel offset totals = Some (Ok t) ->
    exists pages,
      (length pages < fuel)%nat /\ servesPages srv limit offset pages /\
      accumulatePages totals pages = Some t.
Proof.
  induction fuel as [|fuel IH]; intros offset totals t H; [discriminate|].
  destruct (pageAt srv offset) as [rows|] eqn:Hp.
  - destruct rows as [|r rows].
    + rewrite (paginate_stop _ _ _ Hp) in H. injection H as <-.
      exists []. simpl. repeat split; [lia|assumption].
    + destruct (accumulatePage totals (r :: rows)) as [t'|] eqn:Hacc.
      * rewrite (paginate_step _ _ _ t' _ Hp) in H by (discriminate || assumption).
        destruct (IH _ _ _ H) as (pages & Hl & Hs & Ht).
        exists ((r :: rows) :: pages). split; [simpl; lia|]. split.
        -- simpl. repeat split; [discriminate|assumption|assumption].
        -- change (accumulatePages totals ((r :: rows) :: pages))
             with (t0 ← accumulatePage totals (r :: rows); accumulatePages t0 pages).
           rewrite Hacc. exact Ht.
      * rewrite (paginate_throw _ _ _ _ Hp Hacc) in H. discriminate.
  - destruct (paginate_abort fuel offset totals Hp) as (r & Hr & Hno).
    rewrite Hr in H. injection H as ->. now destruct (Hno t).
Qed.

(** While every request yields rows, the loop never reaches [break]: it
    is still running, or a row has thrown. *)
Lemma paginate_no_break :
  (forall offset, exists rows, pageAt srv offset = Some rows /\ rows <> []) ->
  forall (fuel : nat) (offset : Z) (totals : gmap jsstring Q),
    paginate srv limit fuel offset totals = None \/
    paginate srv limit fuel offset totals = Some (Thrown TypeError).
Proof.
  intros Hall. induction fuel as [|fuel IH]; intros offset totals; [now left|].
  destruct (Hall offset) as (rows & Hp & Hne).
  destruct (accumulatePage totals rows) as [t'|] eqn:Hacc.
  - rewrite (paginate_step _ _ _ t' rows Hp Hne Hacc). apply IH.
  - right. now apply (paginate_throw _ _ _ rows).
Qed.

(** And when no row throws, it is still running after any number of
    requests. *)
Lemma paginate_forever :
  (forall offset, exists rows,
     pageAt srv offset = Some rows /\ rows <> [] /\ Forall convertible rows) ->
  forall (fuel : nat) (offset : Z) (totals : gmap jsstring Q),
    paginate srv limit fuel offset totals = None.
Proof.
  intros Hall. induction fuel as [|fuel IH]; intros offset totals; [reflexivity|].
  destruct (Hall offset) as (rows & Hp & Hne & Hconv).
  destruct (accumulatePage_convertible rows Hconv totals) as [t' Hacc].
  rewrite (paginate_step _ _ _ t' rows Hp Hne Hacc). apply IH.
Qed.

End PaginationFacts.

(** ** The auth resolver *)

(** The resolver, read off the list of present modes. *)
Lemma resolveAuthArgs_cases (args : Args) (env : Env) :
  resolveAuthArgs args env =
    let spec m :=
      {| mode := m;
         shareId := nullish (arg_shareId args) (envValue (UMAMI_SHARE_ID env));
         username := nullish (arg_username args) (envValue (UMAMI_USERNAME env));
         password := nullish (arg_password args) (envValue (UMAMI_PASSWORD env));
         token := nullish (arg_token args) (envValue (UMAMI_TOKEN env)) |} in
    match presentModes args env with
    | [] => Died MissingAuth
    | [userpass] =>
        if usernamePresent args env && passwordPresent args env
        then Ok (spec userpass) else Died IncompleteUserpass
    | [m] => Ok (spec m)
    | _ => Died AmbiguousAuth
    end.
Proof.
  unfold resolveAuthArgs, presentModes, shareIdPresent, tokenPresent,
    usernamePresent, passwordPresent, present.
  destruct (truthy (nullish (arg_shareId args) _)),
           (truthy (nullish (arg_token args) _)),
           (truthy (nullish (arg_username args) _)),
           (truthy (nullish (arg_password args) _)); reflexivity.
Qed.

(** ** Non-negative rows *)

Lemma totalsLe_refl (t : gmap jsstring Q) : totalsLe t t.
Proof. intros k v Hk. exists v. split; [assumption|lra]. Qed.

Lemma totalsLe_trans (t1 t2 t3 : gmap jsstring Q) :
  totalsLe t1 t2 -> totalsLe t2 t3 -> totalsLe t1 t3.
Proof.
  intros H12 H23 k v Hk. destruct (H12 k v Hk) as (v2 & Hk2 & Hle2).
  destruct (H23 k v2 Hk2) as (v3 & Hk3 & Hle3). exists v3. split; [assumption|lra].
Qed.

Lemma nonnegTotals_empty : nonnegTotals ∅.
Proof. intros k v Hk. rewrite lookup_empty in Hk. discriminate. Qed.

Lemma addTo_lookup (totals : gmap jsstring Q) (p k : jsstring) (v : Q) :
  addTo totals (Some (p, v)) !! k =
    if decide (p = k) then Some (Qplus (default 0%Q (totals !! k)) v)
    else totals !! k.
Proof.
  simpl. rewrite lookup_insert. destruct (decide (p = k)) as [->|]; reflexivity.
Qed.

Lemma addTo_nonneg (totals : gmap jsstring Q) (p : jsstring) (v : Q) :
  nonnegTotals totals -> (0 <= v)%Q ->
  nonnegTotals (addTo totals (Some (p, v))) /\
  totalsLe totals (addTo totals (Some (p, v))).
Proof.
  intros Ht Hv. split.
  - intros k x. rewrite addTo_lookup. destruct (decide _); [|apply Ht].
    intros [= <-].
    assert (0 <= default 0 (totals !! k))%Q
      by (destruct (totals !! k) as [y|] eqn:E; simpl; [eapply Ht, E|lra]).
    lra.
  - intros k x Hk. rewrite addTo_lookup. destruct (decide _).
    + rewrite Hk. simpl. eexists. split; [reflexivity|lra].
    + exists x. split; [assumption|lra].
Qed.

Section NonNegative.
Context {B : Builtins}.

Lemma accumulateRow_nonneg (totals totals' : gmap jsstring Q) (row : JsValue) :
  accumulateRow totals row = Some totals' ->
  nonnegTotals totals -> nonnegRow row ->
  nonnegTotals totals' /\ totalsLe totals totals'.
Proof.
  rewrite accumulateRow_contribution. unfold contribution. intros H Ht Hr.
  destruct (visitorsOf row) as [[v| | |]|] eqn:Hv; simpl in H;
    try (injection H as <-; split; [assumption|apply totalsLe_refl]);
    try discriminate.
  destruct (pathOf row) as [p|]; [|discriminate]. simpl in H. injection H as <-.
  apply addTo_nonneg; [assumption|]. now apply Hr.
Qed.

Lemma accumulatePage_nonneg (rows : list JsValue) :
  forall totals totals',
    accumulatePage totals rows = Some totals' ->
    nonnegTotals totals -> Forall nonnegRow rows ->
    nonnegTotals totals' /\ totalsLe totals totals'.
Proof.
  induction rows as [|r rows IH]; intros totals totals' H Ht Hr; simpl in H.
  - injection H as <-. split; [assumption|apply totalsLe_refl].
  - apply Forall_cons in Hr as [Hr Hrs].
    destruct (accumulateRow totals r) as [t1|] eqn:E1; [|discriminate]. simpl in H.
    destruct (accumulateRow_nonneg _ _ _ E1 Ht Hr) as [Hn1 Hle1].
    destruct (IH _ _ H Hn1 Hrs) as [Hn Hle].
    split; [assumption|]. eapply totalsLe_trans; eassumption.
Qed.

Lemma paginate_nonneg (srv : Server) (limit : Z) (fuel : nat) :
  (forall offset rows, pageAt srv offset = Some rows -> Forall nonnegRow rows) ->
  forall (offset : Z) (totals t : gmap jsstring Q),
    nonnegTotals totals ->
    paginate srv limit fuel offset totals = Some (Ok t) ->
    nonnegTotals t /\ totalsLe totals t.
Proof.
  intros Hrows. induction fuel as [|fuel IH]; intros offset totals t Ht H;
    [discriminate|].
  destruct (pageAt srv offset) as [rows|] eqn:Hp.
  - destruct rows as [|r rows].
    + rewrite (paginate_stop _ _ _ _ _ Hp) in H. injection H as <-.
      split; [assumption|apply totalsLe_refl].
    + destruct (accumulatePage totals (r :: rows)) as [t'|] eqn:Hacc.
      * rewrite (paginate_step _ _ _ _ _ t' _ Hp) in H by (discriminate || assumption).
        destruct (accumulatePage_nonneg _ _ _ Hacc Ht (Hrows _ _ Hp)) as [Hn Hle].
        destruct (IH _ _ _ Hn H) as [Hn' Hle'].
        split; [assumption|]. eapply totalsLe_trans; eassumption.
      * rewrite (paginate_throw _ _ _ _ _ _ Hp Hacc) in H. discriminate.
  - destruct (paginate_abort srv limit fuel offset totals Hp) as (r & Hr & Hno).
    rewrite Hr in H. injection H as ->. now destruct (Hno t).
Qed.

End NonNegative.

(** * The claims *)

(** ** Auth resolution *)


(** C9.  When userpass is the only present mode and the username or the
    password is missing, the resolver fails with the incomplete-credentials
    error, whose message is neither the no-auth message nor the ambiguity
    message. *)
Theorem resolveAuthArgs_incomplete_userpass (args : Args) (env : Env) :
  presentModes args env = [userpass] ->
  usernamePresent args env && passwordPresent args env = false ->
  resolveAuthArgs args env = Died IncompleteUserpass /\
  message IncompleteUserpass <> message MissingAuth /\
  message IncompleteUserpass <> message AmbiguousAuth.
Proof.
  intros Hm Hup. rewrite resolveAuthArgs_cases. cbv zeta. rewrite Hm, Hup.
  repeat split; discriminate.
Qed.

Lemma resolveAuthArgs_incomplete_userpass_witness :
  let args := {| arg_shareId := JUndefined; arg_username := JStr (lit "alice");
                 arg_password := JUndefined; arg_token := JUndefined |} in
  presentModes args noEnv = [userpass] /\
  usernamePresent args noEnv && passwordPresent args noEnv = false /\
  resolveAuthArgs args noEnv = Died IncompleteUserpass.
Proof.
  cbv zeta. split; [reflexivity|]. split; [reflexivity|].
  apply (resolveAuthArgs_incomplete_userpass _ noEnv); reflexivity.
Defined.

(** C10.  An auth argument given as the empty string shadows its
    environment variable and still counts as absent: the result of the
    resolver does not depend on that variable, the input is not present,
    and, for example, the token argument [""] with a non-empty
    [UMAMI_TOKEN] and nothing else ends in the no-auth error, not in token
    mode. *)
Theorem empty_argument_shadows_environment :
  (forall (f : AuthField) (args : Args) (env : Env) (v : option jsstring),
     argOf f args = JStr [] ->
     resolveAuthArgs args (setEnv f v env) = resolveAuthArgs args env /\
     present (argOf f args) (envOf f env) = false) /\
  (forall t : jsstring,
     t <> [] ->
     let args := {| arg_shareId := JUndefined; arg_username := JUndefined;
                    arg_password := JUndefined; arg_token := JStr [] |} in
     let env := setEnv FToken (Some t) noEnv in
     present JUndefined (UMAMI_TOKEN env) = true /\
     tokenPresent args env = false /\
     resolveAuthArgs args env = Died MissingAuth).
Proof.
  split.
  - intros f args env v Harg. split.
    + destruct args, env, f; simpl in Harg; subst; reflexivity.
    + rewrite Harg. reflexivity.
  - intros t Ht. cbv zeta. destruct t; [congruence|]. repeat split.
Qed.

(** ** The path normalizer *)

(** C3.  The path normalizer is idempotent: on every string it returns a
    key, and normalizing that key returns it again, whatever the
    platform's URL parser computes. *)
Theorem normalizePath_idempotent `{B : Builtins} (x : jsstring) :
  exists y,
    normalizePath (JStr x) = Some y /\ normalizePath (JStr y) = Some y.
Proof.
  destruct (normalizePath_string x) as [y Hy]. exists y. split; [exact Hy|].
  apply normalizePath_PathKey_id. exact (normalizePath_PathKey _ _ Hy).
Qed.

(** C5.  The normalizer maps ["foo"], ["/foo"], ["/foo/"],
    ["https://h/foo?q=1"] and ["//foo//"] to ["/foo/"], and [""], [null]
    and ["/"] to ["/"].  The URL example goes through the platform's
    parser, which is assumed to give that URL the pathname ["/foo"]. *)
Theorem normalizePath_examples `{B : Builtins} :
  URL_pathname (lit "https://h/foo?q=1") = Some (lit "/foo") ->
  normalizePath (JStr (lit "foo")) = Some (lit "/foo/") /\
  normalizePath (JStr (lit "/foo")) = Some (lit "/foo/") /\
  normalizePath (JStr (lit "/foo/")) = Some (lit "/foo/") /\
  normalizePath (JStr (lit "https://h/foo?q=1")) = Some (lit "/foo/") /\
  normalizePath (JStr (lit "//foo//")) = Some (lit "/foo/") /\
  normalizePath (JStr (lit "")) = Some (lit "/") /\
  normalizePath JNull = Some (lit "/") /\
  normalizePath (JStr (lit "/")) = Some (lit "/").
Proof.
  intros Hurl. repeat split; try reflexivity.
  rewrite normalizePath_stages by discriminate. simpl mbind. cbv zeta.
  change (trim (lit "https://h/foo?q=1")) with (lit "https://h/foo?q=1").
  change (looksLikeUrl (lit "https://h/foo?q=1")) with true.
  rewrite Hurl. reflexivity.
Qed.

Lemma normalizePath_examples_witness :
  @URL_pathname samplePlatform (lit "https://h/foo?q=1") = Some (lit "/foo") /\
  @normalizePath samplePlatform (JStr (lit "https://h/foo?q=1")) = Some (lit "/foo/").
Proof.
  split; [reflexivity|].
  apply (@normalizePath_examples samplePlatform). reflexivity.
Defined.

(** ** Pagination *)

(** Rows that a page accumulates have all converted. *)
Lemma accumulatePage_converted `{B : Builtins} (rows : list JsValue) :
  forall totals totals' : gmap jsstring Q,
    accumulatePage totals rows = Some totals' -> Forall convertible rows.
Proof.
  induction rows as [|r rows IH]; intros totals totals' H; [constructor|].
  rewrite accumulatePage_cons in H.
  destruct (accumulateRow totals r) as [t1|] eqn:E1; [|discriminate].
  simpl in H. constructor; [|now apply (IH t1 totals')].
  rewrite accumulateRow_contribution in E1. unfold convertible.
  destruct (contribution r); [eauto|discriminate].
Qed.

(** C2, where the code departs from it.  A server whose pages have 500,
    500, 3 and 0 rows, at the offsets 0, 500, 1000 and 1500 with
    [limit = 500], does not make the loop accumulate three pages and end
    at the empty one when a row of those pages does not convert: with a
    website id that encodes, the loop throws at the page of that row, by
    its third request at the latest, never ends at [break], and no totals
    of the three pages exist.  The loop then ends while every fetched page
    was non-empty. *)
Theorem pagination_aborts_at_a_row_that_throws `{B : Builtins} (websiteId : JsValue)
    (srv : Server) (p0 p1 p2 : list JsValue) :
  encodeURIComponent_throws websiteId = None ->
  length p0 = 500%nat -> length p1 = 500%nat -> length p2 = 3%nat ->
  pageAt srv 0 = Some p0 -> pageAt srv 500 = Some p1 ->
  pageAt srv 1000 = Some p2 -> pageAt srv 1500 = Some [] ->
  ~ Forall convertible (p0 ++ p1 ++ p2) ->
  (forall fuel, (3 <= fuel)%nat ->
     exportLoop websiteId srv 500 fuel = Some (Paginated (Thrown TypeError))) /\
  (forall fuel t, exportLoop websiteId srv 500 fuel <> Some (Paginated (Ok t))) /\
  accumulatePages ∅ [p0; p1; p2] = None.
Proof.
  intros Hurl H0 H1 H2 Hp0 Hp1 Hp2 _ Hbad.
  cut ((forall fuel, (3 <= fuel)%nat ->
          paginate srv 500 fuel 0 ∅ = Some (Thrown TypeError)) /\
       (forall fuel t, paginate srv 500 fuel 0 ∅ <> Some (Ok t)) /\
       accumulatePages ∅ [p0; p1; p2] = None).
  { intros (Hthrow & Hnever & Hnone). unfold exportLoop. rewrite Hurl.
    split; [|split; [|exact Hnone]].
    - intros fuel Hf. now rewrite (Hthrow fuel Hf).
    - intros fuel t. specialize (Hnever fuel t).
      destruct (paginate srv 500 fuel 0 ∅) as [r|]; simpl; congruence. }
  assert (Hne : p0 <> [] /\ p1 <> [] /\ p2 <> [])
    by (repeat split; intros ->; discriminate).
  destruct Hne as (N0 & N1 & N2).
  change (accumulatePages ∅ [p0; p1; p2])
    with (t0 ← accumulatePage ∅ p0; t1 ← accumulatePage t0 p1;
          t2 ← accumulatePage t1 p2; Some t2).
  destruct (accumulatePage ∅ p0) as [t0|] eqn:A0.
  2: { split; [|split; [|reflexivity]].
       - intros [|fuel] Hf; [lia|]. now apply (paginate_throw srv 500 fuel 0 ∅ p0).
       - intros [|fuel] t; [discriminate|].
         now rewrite (paginate_throw srv 500 fuel 0 ∅ p0). }
  destruct (accumulatePage t0 p1) as [t1|] eqn:A1.
  2: { split; [|split; [|simpl; rewrite A1; reflexivity]].
       - intros [|[|fuel]] Hf; try lia.
         rewrite (paginate_step srv 500 _ _ _ t0 p0 Hp0 N0 A0).
         now apply (paginate_throw srv 500 fuel 500 t0 p1).
       - intros [|[|fuel]] t; try discriminate.
         + now rewrite (paginate_step srv 500 _ _ _ t0 p0 Hp0 N0 A0).
         + rewrite (paginate_step srv 500 _ _ _ t0 p0 Hp0 N0 A0).
           now rewrite (paginate_throw srv 500 fuel 500 t0 p1). }
  destruct (accumulatePage t1 p2) as [t2|] eqn:A2.
  { destruct Hbad. repeat (apply Forall_app; split);
      eauto using accumulatePage_converted. }
  split; [|split; [|simpl; rewrite A1; simpl; rewrite A2; reflexivity]].
  - intros [|[|[|fuel]]] Hf; try lia.
    rewrite (paginate_step srv 500 _ _ _ t0 p0 Hp0 N0 A0).
    rewrite (paginate_step srv 500 _ _ _ t1 p1 Hp1 N1 A1).
    now apply (paginate_throw srv 500 fuel 1000 t1 p2).
  - intros [|[|[|fuel]]] t; try discriminate.
    + now rewrite (paginate_step srv 500 _ _ _ t0 p0 Hp0 N0 A0).
    + rewrite (paginate_step srv 500 _ _ _ t0 p0 Hp0 N0 A0).
      now rewrite (paginate_step srv 500 _ _ _ t1 p1 Hp1 N1 A1).
    + rewrite (paginate_step srv 500 _ _ _ t0 p0 Hp0 N0 A0).
      rewrite (paginate_step srv 500 _ _ _ t1 p1 Hp1 N1 A1).
      now rewrite (paginate_throw srv 500 fuel 1000 t1 p2).
Qed.

(** A server with pages of 500, 500, 3 and 0 rows, of which the last row
    but one has a [visitors] that does not convert, asked for the website
    ["W"]. *)
Lemma pagination_aborts_at_a_row_that_throws_witness :
  let p0 := repeat (mkRow "/a" 1) 500 in
  let p1 := repeat (mkRow "/b" 1) 500 in
  let p2 := [mkRow "a" 2; unconvertibleRow; mkRow "a" 2] in
  let srv := pagesServer 500 [p0; p1; p2] in
  pageAt srv 1500 = Some [] /\
  @exportLoop samplePlatform (JStr (lit "W")) srv 500 4
    = Some (Paginated (Thrown TypeError)) /\
  @accumulatePages samplePlatform ∅ [p0; p1; p2] = None.
Proof.
  cbv zeta. split; [reflexivity|].
  destruct (@pagination_aborts_at_a_row_that_throws samplePlatform (JStr (lit "W"))
              (pagesServer 500 [repeat (mkRow "/a" 1) 500; repeat (mkRow "/b" 1) 500;
                                [mkRow "a" 2; unconvertibleRow; mkRow "a" 2]])
              (repeat (mkRow "/a" 1) 500) (repeat (mkRow "/b" 1) 500)
              [mkRow "a" 2; unconvertibleRow; mkRow "a" 2])
    as (Hthrow & _ & Hnone); try reflexivity.
  - intros H. apply Forall_app in H as [_ H]. apply Forall_app in H as [_ H].
    apply Forall_cons in H as [_ H]. apply Forall_cons in H as [[c Hc] _].
    discriminate Hc.
  - split; [apply Hthrow; lia|exact Hnone].
Defined.
(** ** Aggregation *)

Section ToleratedRows.
Context {B : Builtins}.



End ToleratedRows.

(** C7, where the code departs from it.  A row whose [visitors] is an
    object with a [toString] property does not parse to a finite number,
    and it is not skipped: [Number] throws on it, nothing catches the
    exception, and the page and the run end there, whatever the other rows
    are and whatever the platform's conversions compute. *)
Theorem unconvertible_row_aborts_the_run `{B : Builtins} :
  visitorsOf unconvertibleRow = None /\
  (forall totals : gmap jsstring Q, accumulateRow totals unconvertibleRow = None) /\
  (forall (totals : gmap jsstring Q) (before after : list JsValue),
     accumulatePage totals (before ++ unconvertibleRow :: after) = None) /\
  (forall (limit : Z) (fuel : nat),
     paginate (pagesServer limit [[mkRow "/a" 3; unconvertibleRow; mkRow "/a" 2]])
       limit (S fuel) 0 ∅ = Some (Thrown TypeError)).
Proof.
  assert (Hv : visitorsOf unconvertibleRow = None) by reflexivity.
  assert (Hrow : forall totals : gmap jsstring Q,
             accumulateRow totals unconvertibleRow = None)
    by (intros totals; apply accumulateRow_throws; unfold contribution;
        now rewrite Hv).
  assert (Hpage : forall (totals : gmap jsstring Q) (before after : list JsValue),
             accumulatePage totals (before ++ unconvertibleRow :: after) = None).
  { intros totals before after. rewrite accumulatePage_app.
    destruct (accumulatePage totals before) as [t|]; [|reflexivity].
    change (accumulatePage t (unconvertibleRow :: after) = None).
    rewrite accumulatePage_cons, Hrow. reflexivity. }
  split; [exact Hv|]. split; [exact Hrow|]. split; [exact Hpage|].
  intros limit fuel.
  apply (paginate_throw _ limit fuel 0 ∅
           [mkRow "/a" 3; unconvertibleRow; mkRow "/a" 2]).
  - reflexivity.
  - apply (Hpage ∅ [mkRow "/a" 3] [mkRow "/a" 2]).
Qed.

(** C8.  Aggregation is a commutative fold.  Two sequences of pages that
    hold the same rows, in any order and cut into pages in any way, give
    the same totals, from any starting totals; so two runs whose servers
    serve such pages end in the same way, with the same totals. *)
Theorem aggregation_is_commutative `{B : Builtins} (pages1 pages2 : list (list JsValue)) :
  Permutation (concat pages1) (concat pages2) ->
  (forall totals : gmap jsstring Q,
     accumulatePages totals pages1 = accumulatePages totals pages2) /\
  (forall (srv1 srv2 : Server) (limit1 limit2 : Z) (fuel1 fuel2 : nat),
     servesPages srv1 limit1 0 pages1 -> servesPages srv2 limit2 0 pages2 ->
     (length pages1 < fuel1)%nat -> (length pages2 < fuel2)%nat ->
     paginate srv1 limit1 fuel1 0 ∅ = paginate srv2 limit2 fuel2 0 ∅ /\
     paginate srv1 limit1 fuel1 0 ∅ = Some (orThrow (accumulatePages ∅ pages1))).
Proof.
  intros Hperm.
  assert (Heq : forall totals : gmap jsstring Q,
             accumulatePages totals pages1 = accumulatePages totals pages2).
  { intros totals. rewrite !accumulatePages_concat. now apply accumulatePage_perm. }
  split; [exact Heq|].
  intros srv1 srv2 limit1 limit2 fuel1 fuel2 Hs1 Hs2 Hf1 Hf2.
  rewrite (paginate_served srv1 limit1 pages1 fuel1 0 ∅ Hs1 Hf1).
  rewrite (paginate_served srv2 limit2 pages2 fuel2 0 ∅ Hs2 Hf2).
  now rewrite Heq.
Qed.

Lemma aggregation_is_commutative_witness :
  let a := mkRow "/a" 3 in
  let b := mkRow "/a/" 2 in
  let c := mkRow "https://h/b?x=1" (1 # 2) in
  let t : gmap jsstring Q := <[lit "/a/" := 5%Q]> (<[lit "/b/" := (1 # 2)%Q]> ∅) in
  Permutation (concat [[a; b]; [c]]) (concat [[c]; [b]; [a]]) /\
  @accumulatePages samplePlatform ∅ [[a; b]; [c]] = Some t /\
  @accumulatePages samplePlatform ∅ [[c]; [b]; [a]] = Some t.
Proof.
  cbv zeta.
  assert (H : Permutation (concat [[mkRow "/a" 3; mkRow "/a/" 2];
                                    [mkRow "https://h/b?x=1" (1 # 2)]])
                (concat [[mkRow "https://h/b?x=1" (1 # 2)];
                         [mkRow "/a/" 2]; [mkRow "/a" 3]])).
  { exact (Permutation_rev [mkRow "/a" 3; mkRow "/a/" 2;
                            mkRow "https://h/b?x=1" (1 # 2)]). }
  split; [exact H|].
  rewrite <- (proj1 (@aggregation_is_commutative samplePlatform _ _ H) ∅).
  split; reflexivity.
Defined.

(** C4, as the code has it.  The totals are sums of whatever finite
    numbers the rows carry, so they are non-negative, and never decrease,
    when those numbers are non-negative: accumulating rows that each count
    for zero or more into non-negative totals gives non-negative totals in
    which every key is kept with a value at least as large; and a run over
    pages of such rows ends with non-negative totals. *)
Theorem totals_nonnegative_for_nonnegative_rows `{B : Builtins} :
  (forall (totals totals' : gmap jsstring Q) (rows : list JsValue),
     nonnegTotals totals -> Forall nonnegRow rows ->
     accumulatePage totals rows = Some totals' ->
     nonnegTotals totals' /\ totalsLe totals totals') /\
  (forall (srv : Server) (limit : Z) (fuel : nat) (t : gmap jsstring Q),
     (forall offset rows, pageAt srv offset = Some rows -> Forall nonnegRow rows) ->
     paginate srv limit fuel 0 ∅ = Some (Ok t) ->
     nonnegTotals t).
Proof.
  split.
  - intros totals totals' rows Ht Hr Hacc.
    exact (accumulatePage_nonneg rows totals totals' Hacc Ht Hr).
  - intros srv limit fuel t Hrows H.
    exact (proj1 (paginate_nonneg srv limit fuel Hrows 0 ∅ t nonnegTotals_empty H)).
Qed.

Lemma totals_nonnegative_for_nonnegative_rows_witness :
  let rows := [mkRow "/a" 3; mkRow "/a/" 2; JNull] in
  let t : gmap jsstring Q := <[lit "/a/" := 5%Q]> (<[lit "/" := 0%Q]> ∅) in
  Forall (@nonnegRow samplePlatform) rows /\
  @accumulatePage samplePlatform ∅ rows = Some t /\
  nonnegTotals t /\ totalsLe ∅ t.
Proof.
  cbv zeta.
  assert (Hrows : Forall (@nonnegRow samplePlatform)
                    [mkRow "/a" 3; mkRow "/a/" 2; JNull]).
  { repeat constructor; intros v [= <-]; discriminate. }
  assert (Hacc : @accumulatePage samplePlatform ∅ [mkRow "/a" 3; mkRow "/a/" 2; JNull]
                 = Some (<[lit "/a/" := 5%Q]> (<[lit "/" := 0%Q]> ∅)))
    by reflexivity.
  split; [exact Hrows|]. split; [exact Hacc|].
  exact (proj1 (@totals_nonnegative_for_nonnegative_rows samplePlatform)
           ∅ _ _ nonnegTotals_empty Hrows Hacc).
Defined.

(** C4, as stated, fails: a row with a negative finite [visitors] is
    accumulated like any other.  One row [{name: "/a", visitors: -5}]
    gives the total -5 for the key ["/a/"]; and after [{name: "/a",
    visitors: 3}] the row [{name: "/a", visitors: -1}] lowers the total of
    that key from 3 to 2. *)
Lemma totals_can_be_negative :
  let acc := @accumulatePage samplePlatform in
  let t5 : gmap jsstring Q := <[lit "/a/" := (-5)%Q]> ∅ in
  let t3 : gmap jsstring Q := <[lit "/a/" := 3%Q]> ∅ in
  let t2 : gmap jsstring Q := <[lit "/a/" := 2%Q]> ∅ in
  acc ∅ [mkRow "/a" (-5)] = Some t5 /\ ~ nonnegTotals t5 /\
  acc ∅ [mkRow "/a" 3] = Some t3 /\
  acc t3 [mkRow "/a" (-1)] = Some t2 /\ ~ totalsLe t3 t2.
Proof.
  cbv zeta. split; [reflexivity|]. split; [|split; [reflexivity|split; [reflexivity|]]].
  - intros Hn. specialize (Hn (lit "/a/") (-5)%Q eq_refl). lra.
  - intros Hle. destruct (Hle (lit "/a/") 3%Q eq_refl) as (v' & Hv' & Hcmp).
    vm_compute in Hv'. injection Hv' as <-. apply Hcmp. reflexivity.
Qed.

(** ** The credential exchange *)

(** C6, as the code has it.  In share mode, once the share lookup has
    answered with JSON: the exchange fails when the answer has no truthy
    [token]; otherwise the effective website identifier is [websiteIdArg]
    when that is neither [undefined] nor [null], else the [websiteId] of
    the answer; the exchange fails exactly when this identifier is falsy,
    and otherwise returns it with the share token in the
    [x-umami-share-token] header. *)
Theorem getAuthHeaders_share `{B : Builtins} (srv : Server) (auth : AuthSpec)
    (websiteIdArg json : JsValue) :
  mode auth = share ->
  fetchJson (shareEndpoint srv (shareId auth)) = Ok json ->
  let shareToken := optProp json (lit "token") in
  let effective :=
    if supplied websiteIdArg then websiteIdArg else optProp json (lit "websiteId") in
  (truthy shareToken = false ->
     getAuthHeaders srv auth websiteIdArg = Died ShareMissingToken) /\
  (truthy shareToken = true ->
     ((exists e, getAuthHeaders srv auth websiteIdArg = Died e) <->
      truthy effective = false) /\
     (truthy effective = false ->
      getAuthHeaders srv auth websiteIdArg = Died ShareMissingWebsiteId) /\
     (truthy effective = true ->
      getAuthHeaders srv auth websiteIdArg =
      Ok {| websiteId := effective;
            headers := [("x-umami-share-token"%string, shareToken)] |})).
Proof.
  intros Hmode Hfetch shareToken effective.
  assert (Heff : nullish websiteIdArg (optProp json (lit "websiteId")) = effective)
    by (subst effective; destruct websiteIdArg; reflexivity).
  unfold getAuthHeaders. rewrite Hmode, Hfetch. simpl mbind. rewrite Heff.
  fold shareToken. split.
  - intros ->. reflexivity.
  - intros ->. simpl negb. cbv iota.
    destruct (truthy effective); simpl negb; cbv iota; repeat split;
      try reflexivity; try discriminate; try (intros [e He]; discriminate He).
    intros _. eauto.
Qed.

Lemma getAuthHeaders_share_witness :
  let json := JObj [(lit "token", JStr (lit "T")); (lit "websiteId", JStr (lit "W"))] in
  mode shareAuth = share /\
  fetchJson (shareEndpoint (shareServer json) (shareId shareAuth)) = Ok json /\
  @getAuthHeaders samplePlatform (shareServer json) shareAuth JUndefined =
  Ok {| websiteId := JStr (lit "W");
        headers := [("x-umami-share-token"%string, JStr (lit "T"))] |}.
Proof.
  cbv zeta. split; [reflexivity|]. split; [reflexivity|].
  apply (proj2 (proj2 (proj2 (@getAuthHeaders_share samplePlatform
           (shareServer (JObj [(lit "token", JStr (lit "T"));
                               (lit "websiteId", JStr (lit "W"))]))
           shareAuth JUndefined _ eq_refl eq_refl) eq_refl)) eq_refl).
Defined.

(** C6, as stated, fails: with the share answer [{token: "T", websiteId:
    "W"}], which has a token and a website identifier, and [websiteIdArg]
    the empty string, the exchange dies for want of a website identifier;
    it neither uses the identifier of the share answer nor waits for both
    to be missing. *)
Lemma share_websiteId_empty_argument :
  let json := JObj [(lit "token", JStr (lit "T")); (lit "websiteId", JStr (lit "W"))] in
  fetchJson (shareEndpoint (shareServer json) (shareId shareAuth)) = Ok json /\
  truthy (optProp json (lit "token")) = true /\
  truthy (optProp json (lit "websiteId")) = true /\
  @getAuthHeaders samplePlatform (shareServer json) shareAuth (JStr []) =
  Died ShareMissingWebsiteId.
Proof. cbv zeta. repeat split. Qed.

(** ** The whole pipeline *)

(** X2.  The end-to-end scenario: with the share id ["S1"] and no other
    auth input, a share lookup that answers [{token: "T", websiteId:
    "W"}], a first metrics page [[{name: "/a", visitors: 3}, {name: "/a/",
    visitors: 2}]] and an empty second page, the resolver selects share
    mode, the exchange gives the website ["W"] with the share token ["T"]
    in its header, and the loop returns the totals [{"/a/": 5}] at its
    second request. *)
Theorem end_to_end_scenario `{B : Builtins} :
  let args := {| arg_shareId := JStr (lit "S1"); arg_username := JUndefined;
                 arg_password := JUndefined; arg_token := JUndefined |} in
  resolveAuthArgs args noEnv = Ok shareAuth /\
  getAuthHeaders (scenarioServer 500) shareAuth JUndefined =
    Ok {| websiteId := JStr (lit "W");
          headers := [("x-umami-share-token"%string, JStr (lit "T"))] |} /\
  paginate (scenarioServer 500) 500 1 0 ∅ = None /\
  paginate (scenarioServer 500) 500 2 0 ∅ = Some (Ok (<[lit "/a/" := 5%Q]> ∅)).
Proof. cbv zeta. repeat split. Qed.

(** * The command line *)

(** ** Tokens *)

Lemma indexOfFrom_app_found (c : N) (pre post : jsstring) (i : Z) :
  c ∉ pre ->
  indexOfFrom c (pre ++ c :: post) i = i + Z.of_nat (length pre).
Proof.
  revert i. induction pre as [|d pre IH]; intros i Hn; simpl.
  - rewrite N.eqb_refl. lia.
  - apply not_elem_of_cons in Hn as [Hd Hn].
    destruct (N.eqb_spec d c); [congruence|]. rewrite IH by assumption. lia.
Qed.

Lemma eqToken_parts (key value : jsstring) :
  chEquals ∉ key ->
  let a := eqToken key value in
  indexOf chEquals a = 2 + Z.of_nat (length key) /\
  slice 2 (indexOf chEquals a) a = key /\
  sliceFrom (indexOf chEquals a + 1) a = value.
Proof.
  intros Hk a.
  assert (Hi : indexOf chEquals a = 2 + Z.of_nat (length key)).
  { unfold a, eqToken, indexOf. change (lit "--") with [chDash; chDash].
    simpl. rewrite (indexOfFrom_app_found chEquals key value _ Hk). lia. }
  rewrite Hi. split; [reflexivity|]. unfold a, eqToken, slice, sliceFrom.
  change (lit "--") with [chDash; chDash]. split.
  - replace (Z.to_nat (2 + Z.of_nat (length key) - 2)) with (length key) by lia.
    simpl. now rewrite ?drop_0, take_app_length.
  - replace (Z.to_nat (2 + Z.of_nat (length key) + 1)) with (S (S (length key + 1)))
      by lia.
    change (drop (S (S (length key + 1))) ([chDash; chDash] ++ key ++ [chEquals] ++ value))
      with (drop (length key + 1) (key ++ [chEquals] ++ value)).
    rewrite (app_assoc key [chEquals] value), drop_app_length'; [reflexivity|].
    rewrite length_app. reflexivity.
Qed.

Lemma keyToken_parts (key : jsstring) :
  chEquals ∉ key ->
  indexOf chEquals (keyToken key) = -1 /\ sliceFrom 2 (keyToken key) = key.
Proof.
  intros Hk. split; [|reflexivity].
  unfold keyToken, indexOf. change (lit "--") with [chDash; chDash]. simpl.
  now apply indexOfFrom_notin.
Qed.

(** A token that holds [=] is none of the three fixed tokens. *)
Lemma equals_not_fixed (a : jsstring) :
  chEquals ∈ a ->
  jsstring_eqb a (lit "-h") = false /\ jsstring_eqb a (lit "--help") = false /\
  jsstring_eqb a (lit "--") = false.
Proof.
  intros Hin. repeat split; apply bool_decide_eq_false_2; intros ->;
    apply list_elem_of_In in Hin; simpl in Hin; intuition discriminate.
Qed.

(** What one [--key=value] does. *)
Lemma parseLoop_eqToken (key value : jsstring) (rest : list jsstring)
    (args : gmap jsstring JsValue) :
  chEquals ∉ key ->
  parseLoop (eqToken key value :: rest) args =
  parseLoop rest (setProp key (JStr value) args).
Proof.
  intros Hk. destruct (eqToken_parts key value Hk) as (Hi & Hkey & Hval).
  cbv zeta in *.
  assert (Hin : chEquals ∈ eqToken key value)
    by (unfold eqToken; rewrite !elem_of_app; right; right; left; left).
  destruct (equals_not_fixed _ Hin) as (H1 & H2 & H3).
  unfold parseLoop at 1; fold parseLoop. rewrite H1, H2, H3. simpl orb. cbv iota.
  replace (startsWith (lit "--") (eqToken key value)) with true by reflexivity.
  cbv zeta. rewrite Hkey, Hval, Hi.
  replace (2 + Z.of_nat (length key) =? -1) with false
    by (symmetry; apply Z.eqb_neq; lia).
  reflexivity.
Qed.

(** What [--key] does, by the token after it. *)
Lemma parseLoop_keyToken (key : jsstring) (rest : list jsstring)
    (args : gmap jsstring JsValue) :
  plainKey key ->
  parseLoop (keyToken key :: rest) args =
  match rest with
  | next :: rest' =>
      if startsWith (lit "-") next
      then parseLoop rest (setProp key (JBool true) args)
      else parseLoop rest' (setProp key (JStr next) args)
  | [] => Some (setProp key (JBool true) args)
  end.
Proof.
  intros (Hk & Hne & Hhelp). destruct (keyToken_parts key Hk) as [Hi Hkey].
  unfold parseLoop at 1; fold parseLoop.
  replace (jsstring_eqb (keyToken key) (lit "-h")) with false by reflexivity.
  replace (jsstring_eqb (keyToken key) (lit "--help")) with false
    by (symmetry; apply bool_decide_eq_false_2; intros H; apply Hhelp;
        now injection H).
  replace (jsstring_eqb (keyToken key) (lit "--")) with false
    by (symmetry; apply bool_decide_eq_false_2; intros H; apply Hne;
        now injection H).
  replace (startsWith (lit "--") (keyToken key)) with true by reflexivity.
  simpl orb. cbv iota zeta. rewrite Hi, Hkey. simpl negb. cbv iota.
  destruct rest; reflexivity.
Qed.

(** ** The loop, token by token *)

Lemma parseLoop_cons (a : jsstring) (rest : list jsstring)
    (args : gmap jsstring JsValue) :
  parseLoop (a :: rest) args =
    if jsstring_eqb a (lit "-h") || jsstring_eqb a (lit "--help")
    then parseLoop rest (setProp (lit "help") (JBool true) args)
    else if jsstring_eqb a (lit "--") then pushAll rest args
    else if startsWith (lit "--") a then
      if negb (indexOf chEquals a =? -1)
      then parseLoop rest
             (setProp (slice 2 (indexOf chEquals a) a)
                      (JStr (sliceFrom (indexOf chEquals a + 1) a)) args)
      else
        match rest with
        | next :: rest' =>
            if startsWith (lit "-") next
            then parseLoop rest (setProp (sliceFrom 2 a) (JBool true) args)
            else parseLoop rest' (setProp (sliceFrom 2 a) (JStr next) args)
        | [] => Some (setProp (sliceFrom 2 a) (JBool true) args)
        end
    else args' ← pushAll [a] args; parseLoop rest args'.
Proof. destruct rest; reflexivity. Qed.

(** The tokens before one that starts with a dash are parsed on their
    own, as long as [--] is not among them. *)
Lemma parseLoop_split_bounded (n : nat) :
  forall (pre : list jsstring) (tok : jsstring) (rest : list jsstring)
         (args : gmap jsstring JsValue),
    (length pre <= n)%nat ->
    lit "--" ∉ pre -> startsWith (lit "-") tok = true ->
    parseLoop (pre ++ tok :: rest) args =
    (a ← parseLoop pre args; parseLoop (tok :: rest) a).
Proof.
  induction n as [|n IH]; intros pre tok rest args Hlen Hpre Htok.
  - destruct pre; [reflexivity|simpl in Hlen; lia].
  - destruct pre as [|a pre]; [reflexivity|].
    apply not_elem_of_cons in Hpre as [Ha Hpre]. simpl in Hlen.
    change ((a :: pre) ++ tok :: rest) with (a :: (pre ++ tok :: rest)).
    rewrite (parseLoop_cons a (pre ++ tok :: rest)), (parseLoop_cons a pre).
    destruct (jsstring_eqb a (lit "-h") || jsstring_eqb a (lit "--help"));
      [apply IH; [lia|assumption..]|].
    replace (jsstring_eqb a (lit "--")) with false
      by (symmetry; apply bool_decide_eq_false_2; congruence).
    destruct (startsWith (lit "--") a).
    + destruct (negb (indexOf chEquals a =? -1));
        [apply IH; [lia|assumption..]|].
      destruct pre as [|next pre'].
      * change ([] ++ tok :: rest) with (tok :: rest). cbv beta iota.
        rewrite Htok. reflexivity.
      * change ((next :: pre') ++ tok :: rest) with (next :: (pre' ++ tok :: rest)).
        cbv beta iota. destruct (startsWith (lit "-") next).
        -- apply (IH (next :: pre')); [simpl in *; lia|assumption..].
        -- apply not_elem_of_cons in Hpre as [_ Hpre'].
           apply IH; [simpl in *; lia|assumption..].
    + destruct (pushAll [a] args) as [args'|]; [|reflexivity].
      simpl. apply IH; [lia|assumption..].
Qed.

Lemma parseLoop_split (pre : list jsstring) (tok : jsstring) (rest : list jsstring)
    (args : gmap jsstring JsValue) :
  lit "--" ∉ pre -> startsWith (lit "-") tok = true ->
  parseLoop (pre ++ tok :: rest) args =
  (a ← parseLoop pre args; parseLoop (tok :: rest) a).
Proof. apply (parseLoop_split_bounded (length pre)). lia. Qed.

Lemma parseLoop_split_some (pre : list jsstring) (tok : jsstring) (rest : list jsstring)
    (args a : gmap jsstring JsValue) :
  lit "--" ∉ pre -> startsWith (lit "-") tok = true ->
  parseLoop pre args = Some a ->
  parseLoop (pre ++ tok :: rest) args = parseLoop (tok :: rest) a.
Proof.
  intros Hpre Htok Ha. rewrite parseLoop_split by assumption. now rewrite Ha.
Qed.

Lemma parseLoop_split_none (pre : list jsstring) (tok : jsstring) (rest : list jsstring)
    (args : gmap jsstring JsValue) :
  lit "--" ∉ pre -> startsWith (lit "-") tok = true ->
  parseLoop pre args = None ->
  parseLoop (pre ++ tok :: rest) args = None.
Proof.
  intros Hpre Htok Ha. rewrite parseLoop_split by assumption. now rewrite Ha.
Qed.

(** ** What the parser does with options *)

(** X3.  Everything after the first [--] is positional.  When [--] is not
    among the tokens of [pre], the tokens after [pre ++ ["--"]] are added
    to the positional arguments as they are, also those that look like
    options, and nothing else of the result changes. *)
Theorem parseArgs_after_terminator (pre rest : list jsstring)
    (args : gmap jsstring JsValue) (positional : list JsValue) :
  lit "--" ∉ pre ->
  parseArgs pre = Some args ->
  args !! lit "_" = Some (JArr positional) ->
  parseArgs (pre ++ lit "--" :: rest) =
  Some (<[ lit "_" := JArr (positional ++ List.map JStr rest) ]> args).
Proof.
  intros Hpre Hparse Hpos. unfold parseArgs in *.
  rewrite (parseLoop_split_some pre _ _ _ args Hpre) by (reflexivity || assumption).
  change (pushAll rest args = Some (<[ lit "_" := JArr (positional ++ List.map JStr rest) ]> args)).
  unfold pushAll. now rewrite Hpos.
Qed.

Lemma parseArgs_after_terminator_witness :
  parseArgs ([lit "--limit"; lit "5"; lit "cmd"] ++ lit "--" :: [lit "--help"; lit "x"]) =
  Some (<[ lit "_" := JArr ([JStr (lit "cmd")] ++ [JStr (lit "--help"); JStr (lit "x")]) ]>
          (<[ lit "limit" := JStr (lit "5") ]> {[ lit "_" := JArr [JStr (lit "cmd")] ]})).
Proof.
  apply (parseArgs_after_terminator [lit "--limit"; lit "5"; lit "cmd"]).
  - intros H. apply list_elem_of_In in H. simpl in H. intuition discriminate.
  - vm_compute. reflexivity.
  - reflexivity.
Defined.

(** X4.  [--key=value] and [--key value] are the same.  Before any [--],
    for a key without [=] that is not empty and not [help], and a value
    that does not start with a dash, the one token [--key=value] and the
    two tokens [--key] and [value] give the same result, whatever comes
    before and after them. *)
Theorem parseArgs_equals_form (pre rest : list jsstring) (key value : jsstring) :
  lit "--" ∉ pre -> plainKey key -> startsWith (lit "-") value = false ->
  parseArgs (pre ++ eqToken key value :: rest) =
  parseArgs (pre ++ keyToken key :: value :: rest).
Proof.
  intros Hpre Hkey Hval. unfold parseArgs.
  generalize ({[ lit "_" := JArr [] ]} : gmap jsstring JsValue). intros args.
  destruct (parseLoop pre args) as [a|] eqn:Ha.
  2: { now rewrite !parseLoop_split_none. }
  rewrite !(parseLoop_split_some _ _ _ _ a) by (assumption || reflexivity).
  rewrite parseLoop_eqToken by apply Hkey.
  rewrite parseLoop_keyToken by assumption. now rewrite Hval.
Qed.

Lemma parseArgs_equals_form_witness :
  parseArgs ([lit "export"] ++ eqToken (lit "limit") (lit "5") :: [lit "-h"]) =
  parseArgs ([lit "export"] ++ keyToken (lit "limit") :: lit "5" :: [lit "-h"]).
Proof.
  apply (parseArgs_equals_form [lit "export"] [lit "-h"] (lit "limit") (lit "5")).
  - intros H. apply list_elem_of_In in H. simpl in H. intuition discriminate.
  - repeat split; try discriminate.
    intros H. apply list_elem_of_In in H. simpl in H. intuition discriminate.
  - reflexivity.
Defined.

(** X5.  The last occurrence of an option wins, and the prototype is out
    of reach.  Before any [--], a token [--key=value] at the end sets
    [key] to [value] in the result of the tokens before it, whatever they
    set it to; except that the key [__proto__] changes nothing. *)
Theorem parseArgs_last_wins (pre : list jsstring) (key value : jsstring)
    (args : gmap jsstring JsValue) :
  lit "--" ∉ pre -> chEquals ∉ key ->
  parseArgs pre = Some args ->
  parseArgs (pre ++ [eqToken key value]) =
    Some (if jsstring_eqb key (lit "__proto__") then args
          else <[ key := JStr value ]> args) /\
  (key <> lit "__proto__" ->
   forall args', parseArgs (pre ++ [eqToken key value]) = Some args' ->
     getProp args' key = JStr value).
Proof.
  intros Hpre Hkey Hparse.
  assert (H : parseArgs (pre ++ [eqToken key value]) =
              Some (setProp key (JStr value) args)).
  { unfold parseArgs in *.
    rewrite (parseLoop_split_some pre _ _ _ args Hpre) by (reflexivity || assumption).
    now rewrite parseLoop_eqToken. }
  split; [exact H|]. intros Hne args' H'. rewrite H in H'. injection H' as <-.
  unfold setProp, getProp, jsstring_eqb. rewrite bool_decide_eq_false_2 by assumption.
  now rewrite lookup_insert_eq.
Qed.

Lemma parseArgs_last_wins_witness :
  parseArgs ([lit "--limit=5"; lit "--limit"; lit "7"] ++ [eqToken (lit "limit") (lit "9")]) =
  Some (<[ lit "limit" := JStr (lit "9") ]>
          (<[ lit "limit" := JStr (lit "7") ]> {[ lit "_" := JArr [] ]})).
Proof.
  refine (proj1 (parseArgs_last_wins [lit "--limit=5"; lit "--limit"; lit "7"]
                   (lit "limit") (lit "9") _ _ _ _)).
  - intros H. apply list_elem_of_In in H. simpl in H. intuition discriminate.
  - intros H. apply list_elem_of_In in H. simpl in H. intuition discriminate.
  - vm_compute. reflexivity.
Defined.

(** ** Induction over the loop

    One case per branch of the loop body; [r] is what the rest of the
    loop returns. *)
Section ParseInduction.

Variable P : list jsstring -> gmap jsstring JsValue ->
             option (gmap jsstring JsValue) -> Prop.

Hypothesis P_done : forall args, P [] args (Some args).

Hypothesis P_help : forall a rest args r,
  a = lit "-h" \/ a = lit "--help" ->
  P rest (setProp (lit "help") (JBool true) args) r ->
  P (a :: rest) args r.

Hypothesis P_terminator : forall rest args,
  P (lit "--" :: rest) args (pushAll rest args).

Hypothesis P_equals : forall a rest args r,
  startsWith (lit "--") a = true -> indexOf chEquals a <> -1 ->
  P rest (setProp (slice 2 (indexOf chEquals a) a)
                  (JStr (sliceFrom (indexOf chEquals a + 1) a)) args) r ->
  P (a :: rest) args r.

Hypothesis P_flag : forall a rest args r,
  startsWith (lit "--") a = true -> a <> lit "--" -> a <> lit "--help" ->
  indexOf chEquals a = -1 ->
  match rest with next :: _ => startsWith (lit "-") next = true | [] => True end ->
  P rest (setProp (sliceFrom 2 a) (JBool true) args) r ->
  P (a :: rest) args r.

Hypothesis P_value : forall a next rest args r,
  startsWith (lit "--") a = true -> a <> lit "--" -> a <> lit "--help" ->
  indexOf chEquals a = -1 -> startsWith (lit "-") next = false ->
  P rest (setProp (sliceFrom 2 a) (JStr next) args) r ->
  P (a :: next :: rest) args r.

Hypothesis P_positional : forall a rest args args' r,
  startsWith (lit "--") a = false -> a <> lit "-h" ->
  pushAll [a] args = Some args' ->
  P rest args' r ->
  P (a :: rest) args r.

Hypothesis P_throw : forall a rest args,
  startsWith (lit "--") a = false -> a <> lit "-h" ->
  pushAll [a] args = None ->
  P (a :: rest) args None.

Lemma parseLoop_induction_bounded (n : nat) :
  forall argv args, (length argv <= n)%nat -> P argv args (parseLoop argv args).
Proof.
  induction n as [|n IH]; intros argv args Hlen.
  - destruct argv; [apply P_done|simpl in Hlen; lia].
  - destruct argv as [|a rest]; [apply P_done|]. simpl in Hlen.
    rewrite parseLoop_cons. unfold jsstring_eqb.
    destruct (decide (a = lit "-h")) as [Hh|Hh].
    { rewrite bool_decide_eq_true_2 by assumption. simpl orb. cbv iota.
      apply P_help; [now left|]. apply IH. lia. }
    rewrite (bool_decide_eq_false_2 _ Hh).
    destruct (decide (a = lit "--help")) as [Hhelp|Hhelp].
    { rewrite bool_decide_eq_true_2 by assumption. simpl orb. cbv iota.
      apply P_help; [now right|]. apply IH. lia. }
    rewrite (bool_decide_eq_false_2 _ Hhelp). simpl orb. cbv iota.
    destruct (decide (a = lit "--")) as [->|Hend].
    { rewrite bool_decide_eq_true_2 by reflexivity. apply P_terminator. }
    rewrite (bool_decide_eq_false_2 _ Hend). cbv iota.
    destruct (startsWith (lit "--") a) eqn:Hopt.
    + destruct (Z.eqb_spec (indexOf chEquals a) (-1)) as [Heq|Heq]; simpl negb; cbv iota.
      * destruct rest as [|next rest'].
        -- apply (P_flag a [] args); try assumption; [exact I|apply P_done].
        -- destruct (startsWith (lit "-") next) eqn:Hnext.
           ++ apply P_flag; try assumption. apply IH. simpl in *. lia.
           ++ apply P_value; try assumption. apply IH. simpl in *. lia.
      * apply P_equals; try assumption. apply IH. lia.
    + destruct (pushAll [a] args) as [args'|] eqn:Hpush.
      * apply (P_positional a rest args args'); try assumption. apply IH. lia.
      * now apply P_throw.
Qed.

Lemma parseLoop_induction (argv : list jsstring) (args : gmap jsstring JsValue) :
  P argv args (parseLoop argv args).
Proof. apply (parseLoop_induction_bounded (length argv)). lia. Qed.

End ParseInduction.

(** ** The keys that tokens name *)

Lemma startsWith_app (p s : jsstring) :
  startsWith p s = true -> s = p ++ skipn (length p) s.
Proof.
  revert s. induction p as [|c p IH]; intros s H; [reflexivity|].
  destruct s as [|d s]; [discriminate|]. simpl in H.
  apply andb_true_iff in H as [Hc Hp]. apply N.eqb_eq in Hc as ->.
  simpl. f_equal. now apply IH.
Qed.


Lemma clobbersPositional_cases (tok : jsstring) :
  clobbersPositional tok = true ->
  tok = keyToken (lit "_") \/ exists value, tok = eqToken (lit "_") value.
Proof.
  unfold clobbersPositional. intros H. apply orb_true_iff in H as [H|H].
  - left. now apply bool_decide_eq_true_1 in H.
  - right. exists (skipn 4 tok). now apply startsWith_app in H.
Qed.

Lemma flag_key_not_positional (a : jsstring) :
  startsWith (lit "--") a = true -> clobbersPositional a = false ->
  sliceFrom 2 a <> lit "_".
Proof.
  intros Ha Hc Hk. apply startsWith_app in Ha.
  change (skipn (length (lit "--")) a) with (sliceFrom 2 a) in Ha.
  rewrite Hk in Ha. subst a. discriminate Hc.
Qed.

Lemma equals_key_not_positional (a : jsstring) :
  startsWith (lit "--") a = true -> indexOf chEquals a <> -1 ->
  clobbersPositional a = false ->
  slice 2 (indexOf chEquals a) a <> lit "_".
Proof.
  intros Ha Hi Hc Hk.
  apply startsWith_app in Ha. remember (skipn (length (lit "--")) a) as t eqn:Ht.
  clear Ht. subst a. change (lit "--" ++ t) with (chDash :: chDash :: t) in *.
  unfold indexOf in *. simpl in Hi, Hk.
  destruct t as [|c2 t]; [simpl in Hi; congruence|]. simpl in Hi, Hk.
  destruct (N.eqb_spec c2 chEquals) as [->|H2]; [discriminate Hk|].
  destruct t as [|c3 t]; [simpl in Hi; congruence|]. simpl in Hi, Hk.
  destruct (N.eqb_spec c3 chEquals) as [->|H3].
  - simpl in Hk. injection Hk as ->. discriminate Hc.
  - destruct (indexOfFrom_range chEquals t (0 + 1 + 1 + 1 + 1)) as [E|E]; [lia|congruence|].
    unfold slice in Hk.
    replace (Z.to_nat (indexOfFrom chEquals t (0 + 1 + 1 + 1 + 1) - 2))
      with (S (S (Z.to_nat (indexOfFrom chEquals t (0 + 1 + 1 + 1 + 1) - 4)))) in Hk by lia.
    simpl in Hk. discriminate Hk.
Qed.

(** ** What the loop keeps *)

Lemma optionValue_true : optionValue (JBool true).
Proof. now left. Qed.

Lemma optionValue_string (s : jsstring) : optionValue (JStr s).
Proof. right. now exists s. Qed.

Lemma parsedArgs_setProp (key : jsstring) (v : JsValue)
    (args : gmap jsstring JsValue) (l : list jsstring) :
  key <> lit "_" -> optionValue v -> parsedArgs args l ->
  parsedArgs (setProp key v args) l.
Proof.
  intros Hk Hv [Hpos Hopt]. unfold setProp.
  destruct (jsstring_eqb key (lit "__proto__")); [now split|]. split.
  - now rewrite lookup_insert_ne.
  - intros k w Hkw. destruct (decide (key = k)) as [->|Hne].
    + rewrite lookup_insert_eq. now intros [= <-].
    + rewrite lookup_insert_ne by assumption. now apply Hopt.
Qed.

Lemma parsedArgs_pushAll (items : list jsstring)
    (args : gmap jsstring JsValue) (l : list jsstring) :
  parsedArgs args l ->
  exists args', pushAll items args = Some args' /\ parsedArgs args' (l ++ items).
Proof.
  intros [Hpos Hopt]. unfold pushAll. rewrite Hpos. eexists. split; [reflexivity|].
  split.
  - rewrite lookup_insert_eq, List.map_app. reflexivity.
  - intros k w Hk. rewrite lookup_insert_ne by congruence. now apply Hopt.
Qed.

Lemma parseLoop_parsedArgs (argv : list jsstring) (args : gmap jsstring JsValue) :
  Forall (fun tok => clobbersPositional tok = false) argv ->
  forall l0, parsedArgs args l0 ->
  exists args' l, parseLoop argv args = Some args' /\
                  parsedArgs args' (l0 ++ l) /\ sublist l argv.
Proof.
  apply (parseLoop_induction (fun argv args r =>
    Forall (fun tok => clobbersPositional tok = false) argv ->
    forall l0, parsedArgs args l0 ->
    exists args' l, r = Some args' /\ parsedArgs args' (l0 ++ l) /\ sublist l argv)).
  - intros a _ l0 Hinv. exists a, []. rewrite app_nil_r. repeat split; try apply Hinv.
    constructor.
  - intros a rest a0 r Ha IH Hall l0 Hinv. apply Forall_cons in Hall as [_ Hall].
    destruct (IH Hall l0) as (args' & l & -> & Hinv' & Hsub).
    { apply parsedArgs_setProp; [discriminate|apply optionValue_true|assumption]. }
    exists args', l. repeat split; try apply Hinv'. now apply sublist_cons.
  - intros rest a0 Hall l0 Hinv.
    destruct (parsedArgs_pushAll rest a0 l0 Hinv) as (args' & -> & Hinv').
    exists args', rest. repeat split; try apply Hinv'. now apply sublist_cons.
  - intros a rest a0 r Ha Hi IH Hall l0 Hinv. apply Forall_cons in Hall as [Hc Hall].
    destruct (IH Hall l0) as (args' & l & -> & Hinv' & Hsub).
    { apply parsedArgs_setProp; [|apply optionValue_string|assumption].
      now apply equals_key_not_positional. }
    exists args', l. repeat split; try apply Hinv'. now apply sublist_cons.
  - intros a rest a0 r Ha _ _ Hi _ IH Hall l0 Hinv.
    apply Forall_cons in Hall as [Hc Hall].
    destruct (IH Hall l0) as (args' & l & -> & Hinv' & Hsub).
    { apply parsedArgs_setProp; [|apply optionValue_true|assumption].
      now apply flag_key_not_positional. }
    exists args', l. repeat split; try apply Hinv'. now apply sublist_cons.
  - intros a next rest a0 r Ha _ _ Hi Hnext IH Hall l0 Hinv.
    apply Forall_cons in Hall as [Hc Hall]. apply Forall_cons in Hall as [_ Hall].
    destruct (IH Hall l0) as (args' & l & -> & Hinv' & Hsub).
    { apply parsedArgs_setProp; [|apply optionValue_string|assumption].
      now apply flag_key_not_positional. }
    exists args', l. repeat split; try apply Hinv'. now do 2 apply sublist_cons.
  - intros a rest a0 args' r Ha _ Hpush IH Hall l0 Hinv.
    apply Forall_cons in Hall as [_ Hall].
    destruct (parsedArgs_pushAll [a] a0 l0 Hinv) as (args'' & Hpush' & Hinv').
    rewrite Hpush in Hpush'. injection Hpush' as <-.
    destruct (IH Hall _ Hinv') as (args'' & l & -> & Hinv'' & Hsub).
    exists args'', (a :: l). rewrite <- app_assoc in Hinv''.
    repeat split; try apply Hinv''. now apply sublist_skip.
  - intros a rest a0 Ha _ Hpush Hall l0 Hinv.
    destruct (parsedArgs_pushAll [a] a0 l0 Hinv) as (args'' & Hpush' & _).
    congruence.
Qed.

Lemma clobbered_setProp (key : jsstring) (v : JsValue)
    (args : gmap jsstring JsValue) :
  optionValue v -> clobbered args -> clobbered (setProp key v args).
Proof.
  intros Hv Hc l. unfold setProp.
  destruct (jsstring_eqb key (lit "__proto__")); [apply Hc|].
  destruct (decide (key = lit "_")) as [->|Hne].
  - rewrite lookup_insert_eq. destruct Hv as [->|[s ->]]; discriminate.
  - rewrite lookup_insert_ne by assumption. apply Hc.
Qed.

Lemma clobbered_pushAll (items : list jsstring) (args : gmap jsstring JsValue) :
  clobbered args -> pushAll items args = None.
Proof.
  intros Hc. unfold pushAll. destruct (args !! lit "_") as [[]|] eqn:E; try reflexivity.
  now destruct (Hc elems).
Qed.

Lemma parseLoop_clobbered (argv : list jsstring) (args : gmap jsstring JsValue) :
  clobbered args -> lit "--" ∈ argv -> parseLoop argv args = None.
Proof.
  apply (parseLoop_induction (fun argv args r =>
    clobbered args -> lit "--" ∈ argv -> r = None)).
  - intros a _ H. now apply elem_of_nil in H.
  - intros a rest a0 r Ha IH Hc Hin. apply IH.
    + apply clobbered_setProp; [apply optionValue_true|assumption].
    + apply elem_of_cons in Hin as [Hin|Hin]; [|assumption].
      destruct Ha; subst a; discriminate Hin.
  - intros rest a0 Hc _. now apply clobbered_pushAll.
  - intros a rest a0 r Ha Hi IH Hc Hin. apply IH.
    + apply clobbered_setProp; [apply optionValue_string|assumption].
    + apply elem_of_cons in Hin as [Hin|Hin]; [|assumption].
      subst a. now destruct Hi.
  - intros a rest a0 r Ha Hne _ Hi _ IH Hc Hin. apply IH.
    + apply clobbered_setProp; [apply optionValue_true|assumption].
    + apply elem_of_cons in Hin as [Hin|Hin]; [congruence|assumption].
  - intros a next rest a0 r Ha Hne _ Hi Hnext IH Hc Hin. apply IH.
    + apply clobbered_setProp; [apply optionValue_string|assumption].
    + apply elem_of_cons in Hin as [Hin|Hin]; [congruence|].
      apply elem_of_cons in Hin as [Hin|Hin]; [|assumption].
      subst next. discriminate Hnext.
  - intros a rest a0 args' r Ha _ Hpush _ Hc _.
    rewrite clobbered_pushAll in Hpush by assumption. discriminate.
  - reflexivity.
Qed.

(** X6.  The parser returns unless a token assigns to [_].  When no token
    is [--_] or starts with [--_=], [parseArgs] returns an object whose
    positional arguments are an array of strings, tokens of the command
    line in their order, and whose options are strings or [true]. *)
Theorem parseArgs_returns (argv : list jsstring) :
  Forall (fun tok => clobbersPositional tok = false) argv ->
  exists args positional,
    parseArgs argv = Some args /\ parsedArgs args positional /\
    sublist positional argv.
Proof.
  intros Hall.
  destruct (parseLoop_parsedArgs argv {[ lit "_" := JArr [] ]} Hall [])
    as (args & l & H & Hinv & Hsub).
  - split; [reflexivity|]. intros key v Hk.
    rewrite lookup_singleton_ne by congruence. discriminate.
  - now exists args, l.
Qed.

Lemma parseArgs_returns_witness :
  exists args positional,
    parseArgs [lit "export"; lit "--limit"; lit "5"; lit "--"; lit "-x"] = Some args /\
    parsedArgs args positional /\
    sublist positional [lit "export"; lit "--limit"; lit "5"; lit "--"; lit "-x"].
Proof.
  apply (parseArgs_returns [lit "export"; lit "--limit"; lit "5"; lit "--"; lit "-x"]).
  repeat constructor.
Defined.

Section CommandLine.
Context {B : Builtins}.

(** X7.  An option named [_] breaks the parser.  After a token [--_] or
    [--_=value], the positional arguments are no longer an array, and
    the [--] that comes later on the command line makes [parseArgs] raise
    a [TypeError] that nothing catches: the run ends without an error
    message of the program, whatever the command is. *)
Theorem main_throws_after_positional_option (pre : list jsstring) (tok : jsstring)
    (rest : list jsstring) (env : Environment) (srv : Server) :
  lit "--" ∉ pre -> clobbersPositional tok = true -> lit "--" ∈ rest ->
  parseArgs (pre ++ tok :: rest) = None /\
  main (pre ++ tok :: rest) env srv = Stop (Uncaught TypeError).
Proof.
  intros Hpre Htok Hrest.
  assert (Hdash : startsWith (lit "-") tok = true).
  { destruct (clobbersPositional_cases tok Htok) as [->|[v ->]]; reflexivity. }
  assert (H : parseArgs (pre ++ tok :: rest) = None).
  { unfold parseArgs.
    destruct (parseLoop pre {[ lit "_" := JArr [] ]}) as [a|] eqn:Ha;
      [|now apply parseLoop_split_none].
    rewrite (parseLoop_split_some pre tok rest _ a) by assumption.
    assert (Hset : forall v, optionValue v -> clobbered (setProp (lit "_") v a)).
    { intros v Hv l. unfold setProp. simpl. rewrite lookup_insert_eq.
      destruct Hv as [->|[s ->]]; discriminate. }
    destruct (clobbersPositional_cases tok Htok) as [->|[v ->]].
    - rewrite parseLoop_keyToken.
      2: { repeat split; try discriminate. intros Hin.
           apply list_elem_of_In in Hin. simpl in Hin. intuition discriminate. }
      destruct rest as [|next rest']; [now apply elem_of_nil in Hrest|].
      destruct (startsWith (lit "-") next) eqn:Hnext.
      + apply parseLoop_clobbered; [apply Hset, optionValue_true|assumption].
      + apply parseLoop_clobbered; [apply Hset, optionValue_string|].
        apply elem_of_cons in Hrest as [Hrest|Hrest]; [|assumption].
        subst next. discriminate Hnext.
    - rewrite parseLoop_eqToken.
      2: { intros Hin. apply list_elem_of_In in Hin. simpl in Hin.
           intuition discriminate. }
      apply parseLoop_clobbered; [apply Hset, optionValue_string|assumption]. }
  split; [exact H|]. unfold main. now rewrite H.
Qed.

(** X8.  A value that starts with a dash is not taken.  Let the command
    line end with [--key value], after tokens without [--] that parse to
    an object with its array of positional arguments, where the key has
    no [=], is not empty and is none of [help], [_] and [__proto__], and
    the value starts with one dash, not with two, and is not [-h] (a
    negative number, say).  Then the option becomes [true] and the value
    is added to the positional arguments; [toNumber] reads such an option
    as the number 1. *)
Theorem parseArgs_dash_value (pre : list jsstring) (key value : jsstring)
    (args : gmap jsstring JsValue) (positional : list JsValue) (name : string) :
  lit "--" ∉ pre -> plainKey key ->
  key <> lit "_" -> key <> lit "__proto__" ->
  startsWith (lit "-") value = true -> startsWith (lit "--") value = false ->
  value <> lit "-h" ->
  parseArgs pre = Some args -> args !! lit "_" = Some (JArr positional) ->
  exists args',
    parseArgs (pre ++ [keyToken key; value]) = Some args' /\
    getProp args' key = JBool true /\
    getProp args' (lit "_") = JArr (positional ++ [JStr value]) /\
    toNumber (getProp args' key) name = Continue (Some 1%Q).
Proof.
  intros Hpre Hkey Hk1 Hk2 Hv1 Hv2 Hv3 Hparse Hpos.
  exists (<[ lit "_" := JArr (positional ++ [JStr value]) ]>
            (<[ key := JBool true ]> args)).
  assert (Hget : getProp (<[ lit "_" := JArr (positional ++ [JStr value]) ]>
                            (<[ key := JBool true ]> args)) key = JBool true).
  { unfold getProp. rewrite lookup_insert_ne by congruence.
    now rewrite lookup_insert_eq. }
  split; [|split; [exact Hget|split]].
  - unfold parseArgs in *.
    rewrite (parseLoop_split_some pre _ _ _ args) by (assumption || reflexivity).
    rewrite parseLoop_keyToken by assumption. rewrite Hv1.
    rewrite parseLoop_cons. unfold jsstring_eqb.
    rewrite (bool_decide_eq_false_2 (value = lit "-h")) by assumption.
    rewrite (bool_decide_eq_false_2 (value = lit "--help"))
      by (intros ->; discriminate Hv2).
    rewrite (bool_decide_eq_false_2 (value = lit "--"))
      by (intros ->; discriminate Hv2).
    rewrite Hv2. simpl orb. cbv iota.
    unfold pushAll, setProp, jsstring_eqb.
    rewrite (bool_decide_eq_false_2 (key = lit "__proto__")) by assumption.
    rewrite lookup_insert_ne by assumption. rewrite Hpos. reflexivity.
  - unfold getProp. now rewrite lookup_insert_eq.
  - rewrite Hget. reflexivity.
Qed.

End CommandLine.

Lemma main_throws_after_positional_option_witness :
  parseArgs ([lit "export-path-visitors"] ++ lit "--_=x" :: [lit "--"; lit "y"]) = None /\
  main (B := samplePlatform)
       ([lit "export-path-visitors"] ++ lit "--_=x" :: [lit "--"; lit "y"])
       noEnvironment (scenarioServer 500) = Stop (Uncaught TypeError).
Proof.
  apply (main_throws_after_positional_option (B := samplePlatform)
           [lit "export-path-visitors"] (lit "--_=x") [lit "--"; lit "y"]).
  - intros H. apply list_elem_of_In in H. simpl in H. intuition discriminate.
  - reflexivity.
  - apply elem_of_cons. now left.
Defined.

Lemma parseArgs_dash_value_witness :
  exists args',
    parseArgs ([lit "export"] ++ [keyToken (lit "startAt"); lit "-5"]) = Some args' /\
    getProp args' (lit "startAt") = JBool true /\
    getProp args' (lit "_") = JArr ([JStr (lit "export")] ++ [JStr (lit "-5")]) /\
    toNumber (B := samplePlatform) (getProp args' (lit "startAt")) "startAt"
      = Continue (Some 1%Q).
Proof.
  apply (parseArgs_dash_value (B := samplePlatform) [lit "export"] (lit "startAt")
           (lit "-5") {[ lit "_" := JArr [JStr (lit "export")] ]}
           [JStr (lit "export")] "startAt").
  - intros H. apply list_elem_of_In in H. simpl in H. intuition discriminate.
  - repeat split; try discriminate.
    intros H. apply list_elem_of_In in H. simpl in H. intuition discriminate.
  - discriminate.
  - discriminate.
  - reflexivity.
  - reflexivity.
  - discriminate.
  - vm_compute. reflexivity.
  - reflexivity.
Defined.


(** * Base URL and messages *)

(** ** What [trim] and the two [replace] calls remove *)

Lemma trimStart_spec (s : jsstring) :
  exists ws, s = ws ++ trimStart s /\ allWhiteSpace ws /\
             startsWithSpace (trimStart s) = false.
Proof.
  induction s as [|c t (ws & Hs & Hws & Hh)]; [exists []; split; [reflexivity|split; [constructor|reflexivity]]|].
  simpl. destruct (isWhiteSpace c) eqn:Hc.
  - exists (c :: ws). simpl. rewrite <- Hs.
    split; [reflexivity|]. split; [now constructor|assumption].
  - exists []. split; [reflexivity|]. split; [constructor|exact Hc].
Qed.

Lemma dropSlashes_spec (s : jsstring) :
  exists sl, s = sl ++ dropSlashes s /\ allSlashes sl /\
             startsWithSlash (dropSlashes s) = false.
Proof.
  induction s as [|c t (sl & Hs & Hsl & Hh)]; [exists []; split; [reflexivity|split; [constructor|reflexivity]]|].
  simpl. destruct (N.eqb_spec c chSlash) as [->|Hc].
  - exists (chSlash :: sl). simpl. rewrite <- Hs.
    split; [reflexivity|]. split; [now constructor|assumption].
  - exists []. split; [reflexivity|]. split; [constructor|].
    simpl. now apply N.eqb_neq.
Qed.

Lemma trimEnd_spec (s : jsstring) :
  exists ws, s = trimEnd s ++ ws /\ allWhiteSpace ws /\
             endsWithSpace (trimEnd s) = false.
Proof.
  destruct (trimStart_spec (rev s)) as (ws & Hs & Hws & Hh).
  exists (rev ws). unfold trimEnd, endsWithSpace. rewrite rev_involutive.
  split; [|split; [now apply Forall_rev|assumption]].
  rewrite <- rev_app_distr, <- Hs. now rewrite rev_involutive.
Qed.

Lemma stripTrailingSlashes_spec (s : jsstring) :
  exists sl, s = stripTrailingSlashes s ++ sl /\ allSlashes sl /\
             endsWithSlash (stripTrailingSlashes s) = false.
Proof.
  destruct (dropSlashes_spec (rev s)) as (sl & Hs & Hsl & Hh).
  exists (rev sl). unfold stripTrailingSlashes, endsWithSlash. rewrite rev_involutive.
  split; [|split; [now apply Forall_rev|assumption]].
  rewrite <- rev_app_distr, <- Hs. now rewrite rev_involutive.
Qed.

Lemma trimStart_id (s : jsstring) : startsWithSpace s = false -> trimStart s = s.
Proof. destruct s as [|c t]; [reflexivity|]. simpl. now intros ->. Qed.

Lemma trimEnd_id (s : jsstring) : endsWithSpace s = false -> trimEnd s = s.
Proof.
  intros H. unfold trimEnd. rewrite trimStart_id by exact H. apply rev_involutive.
Qed.

Lemma stripTrailingSlashes_id (s : jsstring) :
  endsWithSlash s = false -> stripTrailingSlashes s = s.
Proof.
  unfold endsWithSlash, stripTrailingSlashes. intros H.
  destruct (rev s) as [|c t] eqn:E.
  - simpl. apply (f_equal (@rev N)) in E. now rewrite rev_involutive in E.
  - simpl in *. rewrite H. rewrite <- E. apply rev_involutive.
Qed.

(** The first character of a string is the first character of each of
    its prefixes, the empty one apart. *)
Lemma startsWithSpace_prefix (r t : jsstring) :
  startsWithSpace (r ++ t) = false -> startsWithSpace r = false.
Proof. destruct r; [reflexivity|exact (fun H => H)]. Qed.

Section BaseUrl.
Context {B : Builtins}.

Lemma normalizeBaseUrl_nonempty (s : jsstring) :
  s <> [] ->
  normalizeBaseUrl (JStr s) = Some (JStr (stripTrailingSlashes (trim s))).
Proof. destruct s; [congruence|reflexivity]. Qed.

Lemma strip_trim_parts (s : jsstring) :
  exists lead trail,
    s = lead ++ stripTrailingSlashes (trim s) ++ trail /\
    allWhiteSpace lead /\
    Forall (fun c => isWhiteSpace c = true \/ c = chSlash) trail /\
    startsWithSpace (stripTrailingSlashes (trim s)) = false /\
    endsWithSlash (stripTrailingSlashes (trim s)) = false.
Proof.
  destruct (trimStart_spec s) as (lead & Hs & Hlead & Hhead).
  destruct (trimEnd_spec (trimStart s)) as (ws & Ht & Hws & _).
  destruct (stripTrailingSlashes_spec (trimEnd (trimStart s))) as (sl & Hu & Hsl & Hend).
  exists lead, (sl ++ ws). unfold trim. split.
  { rewrite Hs at 1. rewrite Ht at 1. rewrite Hu at 1. now rewrite <- !app_assoc. }
  split; [assumption|]. split.
  { apply Forall_app. split.
    - eapply Forall_impl; [exact Hsl|]. intros c Hc. now right.
    - eapply Forall_impl; [exact Hws|]. intros c Hc. now left. }
  split; [|assumption].
  rewrite Ht, Hu, <- app_assoc in Hhead. now apply startsWithSpace_prefix in Hhead.
Qed.

Lemma normalizeBaseUrl_ends (s r : jsstring) :
  normalizeBaseUrl (JStr s) = Some (JStr r) ->
  startsWithSpace r = false /\ endsWithSlash r = false.
Proof.
  destruct s as [|c0 s0]; [now intros [= <-]|].
  rewrite normalizeBaseUrl_nonempty by discriminate. intros [= <-].
  destruct (strip_trim_parts (c0 :: s0)) as (lead & trail & _ & _ & _ & H).
  exact H.
Qed.

(** X9.  What [normalizeBaseUrl] removes.  From a string it removes white
    space at the start, and white space and slashes at the end, and
    nothing else; what it returns does not start with white space and
    does not end with a slash. *)
Theorem normalizeBaseUrl_removes (s : jsstring) :
  exists lead r trail,
    normalizeBaseUrl (JStr s) = Some (JStr r) /\
    s = lead ++ r ++ trail /\
    allWhiteSpace lead /\
    Forall (fun c => isWhiteSpace c = true \/ c = chSlash) trail /\
    startsWithSpace r = false /\ endsWithSlash r = false.
Proof.
  destruct s as [|c0 s0].
  { exists [], [], []. repeat split; constructor. }
  remember (c0 :: s0) as s eqn:Es.
  destruct (strip_trim_parts s) as (lead & trail & H).
  exists lead, (stripTrailingSlashes (trim s)), trail.
  split; [now subst s|exact H].
Qed.

(** X10.  [normalizeBaseUrl] can leave white space at the end.  The
    slashes at the end are removed after the white space, so the white
    space before them stays (["a /"] gives ["a "]); normalizing the result
    again gives the same string exactly when it does not end with white
    space. *)
Theorem normalizeBaseUrl_twice (s r : jsstring) :
  normalizeBaseUrl (JStr s) = Some (JStr r) ->
  (normalizeBaseUrl (JStr r) = Some (JStr r) <-> endsWithSpace r = false).
Proof.
  intros H. destruct (normalizeBaseUrl_ends s r H) as [Hstart Hend].
  destruct r as [|c0 r0]; [now split|].
  remember (c0 :: r0) as r eqn:Er.
  assert (Hn : normalizeBaseUrl (JStr r) = Some (JStr (stripTrailingSlashes (trimEnd r)))).
  { rewrite normalizeBaseUrl_nonempty by (subst r; discriminate).
    unfold trim. now rewrite (trimStart_id r) by assumption. }
  rewrite Hn. split.
  - intros [= Hr].
    destruct (trimEnd_spec r) as (ws & Ht & _ & Hsp).
    destruct (stripTrailingSlashes_spec (trimEnd r)) as (sl & Hu & _ & _).
    rewrite Hr in Hu. rewrite Hu, <- app_assoc in Ht.
    rewrite <- (app_nil_r r) in Ht at 1. apply app_inv_head in Ht.
    symmetry in Ht. apply app_eq_nil in Ht as [-> _].
    rewrite app_nil_r in Hu. now rewrite Hu in Hsp.
  - intros Hsp. rewrite (trimEnd_id r) by assumption.
    now rewrite stripTrailingSlashes_id.
Qed.

End BaseUrl.

Lemma normalizeBaseUrl_twice_witness :
  normalizeBaseUrl (B := samplePlatform) (JStr (lit "a /")) = Some (JStr (lit "a ")) /\
  (normalizeBaseUrl (B := samplePlatform) (JStr (lit "a ")) = Some (JStr (lit "a "))
   <-> endsWithSpace (lit "a ") = false).
Proof.
  split; [reflexivity|].
  apply (normalizeBaseUrl_twice (B := samplePlatform) (lit "a /") (lit "a ")).
  reflexivity.
Defined.

(** X11.  What [die] writes.  The message without the white space at its
    end, and one line feed: the text before the line feed does not end
    with white space, so messages that differ in the white space at their
    end are written the same. *)
Theorem dieOutput_line (message : jsstring) :
  exists body ws,
    message = body ++ ws /\ allWhiteSpace ws /\ endsWithSpace body = false /\
    dieOutput message = body ++ [chLF] /\
    forall ws', allWhiteSpace ws' -> dieOutput (body ++ ws') = dieOutput message.
Proof.
  destruct (trimEnd_spec message) as (ws & Hm & Hws & Hsp).
  exists (trimEnd message), ws. repeat split; try assumption.
  intros ws' Hws'. unfold dieOutput. f_equal.
  unfold trimEnd at 1. rewrite rev_app_distr.
  assert (Hdrop : forall w t, allWhiteSpace w -> trimStart (w ++ t) = trimStart t).
  { induction w as [|c w IH]; intros t Hw; [reflexivity|].
    apply Forall_cons in Hw as [Hc Hw]. simpl. rewrite Hc. now apply IH. }
  rewrite Hdrop by now apply Forall_rev.
  fold (trimEnd (trimEnd message)). now apply trimEnd_id.
Qed.

(** * More on the pagination loop *)

Section PaginationFailures.
Context {B : Builtins}.

Lemma requestPage_pageAt (srv : Server) (offset : Z) (rows : list JsValue) :
  requestPage srv offset = Ok rows <-> pageAt srv offset = Some rows.
Proof.
  unfold requestPage, pageAt.
  destruct (fetchJson _) as [json|e|x]; simpl; [|split; discriminate..].
  destruct (extractRows json); split; congruence.
Qed.

(** The loop body in terms of one request. *)
Lemma paginate_unfold (srv : Server) (limit : Z) (fuel : nat) (offset : Z)
    (totals : gmap jsstring Q) :
  paginate srv limit (S fuel) offset totals =
  match requestPage srv offset with
  | Ok [] => Some (Ok totals)
  | Ok rows =>
      match accumulatePage totals rows with
      | Some totals' => paginate srv limit fuel (offset + limit) totals'
      | None => Some (Thrown TypeError)
      end
  | Died e => Some (Died e)
  | Thrown x => Some (Thrown x)
  end.
Proof.
  unfold requestPage. simpl.
  destruct (fetchJson _) as [json|e|x]; simpl; try reflexivity.
  destruct (extractRows json) as [[|r rows]|]; reflexivity.
Qed.





End PaginationFailures.



(** * More on the credential exchange *)

Section ExchangeFacts.
Context {B : Builtins}.

Lemma ToString_primitive (v : JsValue) :
  primitive v = true -> is_Some (ToString v).
Proof. destruct v as [| |[]| | | |]; try discriminate; intros _; eexists; reflexivity. Qed.

(** What the resolver returns in token mode has a truthy token. *)
Lemma resolveAuthArgs_token (args : Args) (env : Env) (auth : AuthSpec) :
  resolveAuthArgs args env = Ok auth -> mode auth = token_mode ->
  truthy (token auth) = true /\
  token auth = nullish (arg_token args) (envValue (UMAMI_TOKEN env)).
Proof.
  rewrite resolveAuthArgs_cases. cbv zeta.
  unfold presentModes, tokenPresent, present.
  destruct (shareIdPresent args env),
           (truthy (nullish (arg_token args) (envValue (UMAMI_TOKEN env)))) eqn:Ht,
           (usernamePresent args env || passwordPresent args env);
    simpl; try discriminate;
    try (destruct (usernamePresent args env && passwordPresent args env));
    try discriminate; intros [= <-]; simpl; try discriminate;
    intros _; now split.
Qed.

(** X14.  Token mode makes no request.  With the auth that the resolver
    returns in token mode, the exchange gives the same result whatever the
    server is, and never the missing-token error of line 211; it fails
    with the missing-websiteId error exactly when [websiteIdArg] is falsy,
    and otherwise, for a token that is a string or [true], it returns
    [websiteIdArg] and the one header [authorization: Bearer <token>]. *)
Theorem getAuthHeaders_token_mode (args : Args) (env : Env) (auth : AuthSpec)
    (srv : Server) (websiteIdArg : JsValue) :
  resolveAuthArgs args env = Ok auth -> mode auth = token_mode ->
  (forall srv', getAuthHeaders srv' auth websiteIdArg =
                getAuthHeaders srv auth websiteIdArg) /\
  getAuthHeaders srv auth websiteIdArg <> Died MissingToken /\
  (getAuthHeaders srv auth websiteIdArg = Died MissingWebsiteId <->
   truthy websiteIdArg = false) /\
  (truthy websiteIdArg = true -> primitive (token auth) = true ->
   exists bearer,
     ToString (token auth) = Some bearer /\
     getAuthHeaders srv auth websiteIdArg =
     Ok {| websiteId := websiteIdArg;
           headers := [("authorization"%string, JStr (lit "Bearer " ++ bearer))] |}).
Proof.
  intros Hres Hmode. destruct (resolveAuthArgs_token _ _ _ Hres Hmode) as [Ht _].
  unfold getAuthHeaders. rewrite Hmode, Ht. simpl negb. cbv iota.
  split; [reflexivity|]. split; [|split].
  - destruct (truthy websiteIdArg); simpl; [|discriminate].
    destruct (ToString (token auth)); discriminate.
  - destruct (truthy websiteIdArg); simpl; [|now split].
    split; [|discriminate]. destruct (ToString (token auth)); discriminate.
  - intros -> Hp. destruct (ToString_primitive _ Hp) as [bearer Hb].
    exists bearer. rewrite Hb. now split.
Qed.

(** X15.  In userpass mode the login comes before the website id is
    looked at.  The result depends on the server through its reply to the
    login only; the missing-websiteId error is reported only after a login
    that returned a token, so a failing login is reported as such also
    when [websiteIdArg] is missing; the website id is never taken from the
    login response. *)
Theorem getAuthHeaders_userpass_mode (auth : AuthSpec) (srv : Server)
    (websiteIdArg : JsValue) :
  mode auth = userpass ->
  (forall srv',
     loginEndpoint srv' (username auth) (password auth) =
     loginEndpoint srv (username auth) (password auth) ->
     getAuthHeaders srv' auth websiteIdArg = getAuthHeaders srv auth websiteIdArg) /\
  (forall e, fetchJson (loginEndpoint srv (username auth) (password auth)) = Died e ->
     getAuthHeaders srv auth websiteIdArg = Died e) /\
  (getAuthHeaders srv auth websiteIdArg = Died MissingWebsiteId ->
   truthy websiteIdArg = false /\
   exists json,
     fetchJson (loginEndpoint srv (username auth) (password auth)) = Ok json /\
     truthy (optProp json (lit "token")) = true) /\
  (forall c, getAuthHeaders srv auth websiteIdArg = Ok c ->
     websiteId c = websiteIdArg /\ truthy websiteIdArg = true).
Proof.
  intros Hmode. unfold getAuthHeaders. rewrite Hmode.
  split; [now intros srv' ->|]. split; [now intros e ->|].
  assert (Hfetch : forall reply, fetchJson reply <> Died MissingWebsiteId).
  { intros [|[] [|[]]]; discriminate. }
  specialize (Hfetch (loginEndpoint srv (username auth) (password auth))).
  destruct (fetchJson (loginEndpoint srv (username auth) (password auth)))
    as [json|e|x]; simpl.
  - destruct (truthy (optProp json (lit "token"))) eqn:Ht; simpl.
    + destruct (truthy websiteIdArg) eqn:Hw; simpl.
      * split.
        -- destruct (ToString (optProp json (lit "token"))); discriminate.
        -- intros c. destruct (ToString (optProp json (lit "token")));
             simpl; [|discriminate]. intros [= <-]. now split.
      * split; [|discriminate]. intros _. split; [reflexivity|]. now exists json.
    + split; discriminate.
  - split; [|discriminate]. intros [= ->]. now destruct Hfetch.
  - split; discriminate.
Qed.

Lemma getAuthHeaders_ok (srv : Server) (auth : AuthSpec)
    (websiteIdArg : JsValue) (c : Credentials) :
  getAuthHeaders srv auth websiteIdArg = Ok c ->
  truthy (websiteId c) = true /\
  exists v, headers c = [(headerName (mode auth), v)] /\ truthy v = true.
Proof.
  unfold getAuthHeaders. destruct (mode auth).
  - destruct (fetchJson _) as [json|e|x]; simpl; try discriminate.
    destruct (truthy (optProp json (lit "token"))) eqn:Ht; simpl; [|discriminate].
    destruct (truthy (nullish websiteIdArg _)) eqn:Hw; simpl; [|discriminate].
    intros [= <-]. simpl. split; [assumption|]. eexists. now split.
  - destruct (truthy (token auth)); simpl; [|discriminate].
    destruct (truthy websiteIdArg) eqn:Hw; simpl; [|discriminate].
    destruct (ToString (token auth)) as [bearer|]; simpl; [|discriminate].
    intros [= <-]. simpl. split; [assumption|]. eexists. now split.
  - destruct (fetchJson _) as [json|e|x]; simpl; try discriminate.
    destruct (truthy (optProp json (lit "token"))); simpl; [|discriminate].
    destruct (truthy websiteIdArg) eqn:Hw; simpl; [|discriminate].
    destruct (ToString (optProp json (lit "token"))) as [bearer|]; simpl;
      [|discriminate].
    intros [= <-]. simpl. split; [assumption|]. eexists. now split.
Qed.

(** X16.  What a successful exchange returns, in every mode: a website id
    that is truthy, and exactly one header, [x-umami-share-token] in share
    mode and [authorization] in the two others, whose value is truthy; in
    the two others the value is a string that starts with ["Bearer "] and
    the website id is [websiteIdArg]. *)
Theorem getAuthHeaders_success (srv : Server) (auth : AuthSpec)
    (websiteIdArg : JsValue) (c : Credentials) :
  getAuthHeaders srv auth websiteIdArg = Ok c ->
  truthy (websiteId c) = true /\
  (exists v, headers c = [(headerName (mode auth), v)] /\ truthy v = true /\
             (mode auth <> share ->
              exists bearer, v = JStr (lit "Bearer " ++ bearer))) /\
  (mode auth <> share -> websiteId c = websiteIdArg).
Proof.
  unfold getAuthHeaders. destruct (mode auth).
  - destruct (fetchJson _) as [json|e|x]; simpl; try discriminate.
    destruct (truthy (optProp json (lit "token"))) eqn:Ht; simpl; [|discriminate].
    destruct (truthy (nullish websiteIdArg _)) eqn:Hw; simpl; [|discriminate].
    intros [= <-]. simpl. split; [assumption|]. split; [|congruence].
    eexists. split; [reflexivity|]. split; [assumption|congruence].
  - destruct (truthy (token auth)); simpl; [|discriminate].
    destruct (truthy websiteIdArg) eqn:Hw; simpl; [|discriminate].
    destruct (ToString (token auth)) as [bearer|]; simpl; [|discriminate].
    intros [= <-]. simpl. split; [assumption|]. split; [|reflexivity].
    eexists. split; [reflexivity|]. split; [reflexivity|]. intros _. now exists bearer.
  - destruct (fetchJson _) as [json|e|x]; simpl; try discriminate.
    destruct (truthy (optProp json (lit "token"))); simpl; [|discriminate].
    destruct (truthy websiteIdArg) eqn:Hw; simpl; [|discriminate].
    destruct (ToString (optProp json (lit "token"))) as [bearer|]; simpl;
      [|discriminate].
    intros [= <-]. simpl. split; [assumption|]. split; [|reflexivity].
    eexists. split; [reflexivity|]. split; [reflexivity|]. intros _. now exists bearer.
Qed.

End ExchangeFacts.

Lemma getAuthHeaders_token_mode_witness :
  (forall srv', getAuthHeaders (B := samplePlatform) srv' tokenAuth (JStr (lit "W")) =
                getAuthHeaders (B := samplePlatform) (shareServer JNull) tokenAuth
                  (JStr (lit "W"))) /\
  getAuthHeaders (B := samplePlatform) (shareServer JNull) tokenAuth (JStr (lit "W"))
    <> Died MissingToken /\
  (getAuthHeaders (B := samplePlatform) (shareServer JNull) tokenAuth (JStr (lit "W"))
     = Died MissingWebsiteId <-> truthy (JStr (lit "W")) = false) /\
  (truthy (JStr (lit "W")) = true -> primitive (token tokenAuth) = true ->
   exists bearer,
     ToString (B := samplePlatform) (token tokenAuth) = Some bearer /\
     getAuthHeaders (B := samplePlatform) (shareServer JNull) tokenAuth (JStr (lit "W")) =
     Ok {| websiteId := JStr (lit "W");
           headers := [("authorization"%string, JStr (lit "Bearer " ++ bearer))] |}).
Proof.
  apply (getAuthHeaders_token_mode (B := samplePlatform) tokenArgs noEnv tokenAuth
           (shareServer JNull) (JStr (lit "W"))); reflexivity.
Defined.

Lemma getAuthHeaders_userpass_mode_witness :
  getAuthHeaders (B := samplePlatform) (shareServer JNull) userpassAuth JUndefined
    = Died RequestFailed /\
  getAuthHeaders (B := samplePlatform)
    (loginServer (JObj [(lit "token", JStr (lit "T")); (lit "websiteId", JStr (lit "W"))]))
    userpassAuth JUndefined = Died MissingWebsiteId.
Proof.
  split.
  - apply (getAuthHeaders_userpass_mode (B := samplePlatform) userpassAuth
             (shareServer JNull) JUndefined); reflexivity.
  - reflexivity.
Defined.

Lemma getAuthHeaders_success_witness :
  truthy (JStr (lit "W")) = true /\
  (exists v, [("authorization"%string, JStr (lit "Bearer T"))] =
             [(headerName (mode tokenAuth), v)] /\ truthy v = true /\
             (mode tokenAuth <> share ->
              exists bearer, v = JStr (lit "Bearer " ++ bearer))) /\
  (mode tokenAuth <> share -> JStr (lit "W") = JStr (lit "W")).
Proof.
  apply (getAuthHeaders_success (B := samplePlatform) (shareServer JNull) tokenAuth
           (JStr (lit "W"))
           {| websiteId := JStr (lit "W");
              headers := [("authorization"%string, JStr (lit "Bearer T"))] |}).
  reflexivity.
Defined.

(** * The start of a run *)

Section StartFacts.
Context {B : Builtins}.

(** What [prepareExport] has checked when it goes on. *)
Lemma prepareExport_inv (args : gmap jsstring JsValue) (env : Environment)
    (srv : Server) (p : Prepared) :
  prepareExport args env srv = Continue p ->
  truthy (getProp args (lit "help")) = false /\
  truthy (getProp args (lit "h")) = false /\
  normalizeBaseUrl (nullish (getProp args (lit "baseUrl"))
                            (envValue (UMAMI_BASE_URL env))) = Some (baseUrl p) /\
  truthy (baseUrl p) = true /\
  toNumber (getProp args (lit "startAt")) "startAt" = Continue (Some (startAt p)) /\
  toNumber (getProp args (lit "endAt")) "endAt" = Continue (Some (endAt p)) /\
  (exists l, toNumber (nullish (getProp args (lit "limit"))
                               (JNum (NumFinite DEFAULT_LIMIT))) "limit" = Continue l /\
             limit p = default DEFAULT_LIMIT l) /\
  isInteger (limit p) = true /\ Qle_bool (limit p) 0 = false /\
  exists auth,
    resolveAuthArgs (authArgs args) (authEnv env) = Ok auth /\
    getAuthHeaders srv auth
      (nullish (getProp args (lit "websiteId")) (envValue (UMAMI_WEBSITE_ID env)))
      = Ok (credentials p) /\
    outPath p = getProp args (lit "out").
Proof.
  unfold prepareExport.
  destruct (truthy (getProp args (lit "help"))) eqn:Hhelp; [discriminate|].
  destruct (truthy (getProp args (lit "h"))) eqn:Hh; [discriminate|].
  simpl orb. cbv iota.
  destruct (normalizeBaseUrl _) as [b|] eqn:Hb; [|discriminate]. simpl.
  destruct (truthy b) eqn:Htb; [|discriminate]. simpl.
  destruct (toNumber (getProp args (lit "startAt")) "startAt") as [[s|]|] eqn:Hs;
    simpl;
    (destruct (toNumber (getProp args (lit "endAt")) "endAt") as [[e|]|] eqn:He;
     simpl; try discriminate).
  destruct (toNumber (nullish (getProp args (lit "limit")) _) "limit") as [l|] eqn:Hl;
    simpl; [|discriminate].
  destruct (isInteger (default DEFAULT_LIMIT l)) eqn:Hint; [|discriminate].
  destruct (Qle_bool (default DEFAULT_LIMIT l) 0) eqn:Hpos; [discriminate|].
  simpl. destruct (resolveAuthArgs _ _) as [auth|e'|x]; simpl; try discriminate.
  destruct (getAuthHeaders srv auth _) as [c|e'|x] eqn:Hc; simpl; try discriminate.
  intros [= <-]. simpl. repeat split; try assumption; try reflexivity.
  - now exists l.
  - now exists auth.
Qed.

Lemma isInteger_spec (q : Q) :
  isInteger q = true -> (q == inject_Z (Qnum (Qred q)))%Q.
Proof.
  unfold isInteger. intros H. apply Pos.eqb_eq in H.
  rewrite <- (Qred_correct q) at 1. destruct (Qred q) as [n d]. simpl in *.
  now subst d.
Qed.

(** X17.  What the loop starts with.  When the checks of lines 248-262
    pass, the base URL is a non-empty string that does not end with a
    slash and does not start with white space, the page size is a positive
    integer, the website id is truthy, and there is exactly one auth
    header. *)
Theorem prepareExport_validated (args : gmap jsstring JsValue) (env : Environment)
    (srv : Server) (p : Prepared) :
  prepareExport args env srv = Continue p ->
  (exists s, baseUrl p = JStr s /\ s <> [] /\
             startsWithSpace s = false /\ endsWithSlash s = false) /\
  (exists n : Z, 0 < n /\ (limit p == inject_Z n)%Q) /\
  truthy (websiteId (credentials p)) = true /\
  (exists name v, headers (credentials p) = [(name, v)] /\ truthy v = true).
Proof.
  intros H. apply prepareExport_inv in H
    as (_ & _ & Hb & Htb & _ & _ & _ & Hint & Hpos & auth & _ & Hc & _).
  split; [|split].
  - unfold normalizeBaseUrl in Hb.
    destruct (truthy (nullish _ _)) eqn:Hraw; simpl in Hb.
    + destruct (ToString _) as [str|]; [|discriminate]. simpl in Hb.
      injection Hb as Hb. exists (stripTrailingSlashes (trim str)).
      destruct (strip_trim_parts str) as (lead & trail & _ & _ & _ & Hs & He).
      rewrite <- Hb in Htb. simpl in Htb.
      repeat split; try assumption; [now symmetry|].
      intros E. rewrite E in Htb. discriminate.
    + injection Hb as Hb. rewrite <- Hb, Hraw in Htb. discriminate.
  - exists (Qnum (Qred (limit p))). pose proof (isInteger_spec _ Hint) as Hq.
    split; [|exact Hq].
    assert (Hlt : (0 < limit p)%Q).
    { apply Qnot_le_lt. intros Hle. apply Qle_bool_iff in Hle. congruence. }
    rewrite Hq in Hlt. unfold Qlt, inject_Z in Hlt. simpl in Hlt. lia.
  - destruct (getAuthHeaders_ok _ _ _ _ Hc) as (Hw & v & Hh & Hv).
    split; [assumption|]. now exists (headerName (mode auth)), v.
Qed.

Lemma getAuthHeaders_not_config (srv : Server) (auth : AuthSpec) (w : JsValue)
    (e : Fatal) :
  getAuthHeaders srv auth w = Died e -> ~ isConfigError e.
Proof.
  assert (Hfetch : forall reply e, fetchJson reply = Died e -> ~ isConfigError e).
  { intros [|[] [|[]]] e'; try discriminate; intros [= <-] [H|[H|H]]; discriminate. }
  unfold getAuthHeaders. destruct (mode auth).
  - destruct (fetchJson _) as [json|e'|x] eqn:Hf; simpl; try discriminate.
    + destruct (truthy (optProp json (lit "token"))); simpl;
        [|intros [= <-] [H|[H|H]]; discriminate].
      destruct (truthy (nullish w _)); simpl;
        [discriminate|intros [= <-] [H|[H|H]]; discriminate].
    + intros [= <-]. now apply (Hfetch _ _ Hf).
  - destruct (truthy (token auth)); simpl;
      [|intros [= <-] [H|[H|H]]; discriminate].
    destruct (truthy w); simpl; [|intros [= <-] [H|[H|H]]; discriminate].
    destruct (ToString (token auth)); discriminate.
  - destruct (fetchJson _) as [json|e'|x] eqn:Hf; simpl; try discriminate.
    + destruct (truthy (optProp json (lit "token"))); simpl;
        [|intros [= <-] [H|[H|H]]; discriminate].
      destruct (truthy w); simpl; [|intros [= <-] [H|[H|H]]; discriminate].
      destruct (ToString (optProp json (lit "token"))); discriminate.
    + intros [= <-]. now apply (Hfetch _ _ Hf).
Qed.

(** X18.  The parameters are checked before any request.  When the run
    stops at the help text, at a missing or invalid parameter, or at a
    configuration error of the auth resolver, it stops in the same way
    whatever the server answers. *)
Theorem prepareExport_checks_before_requests (args : gmap jsstring JsValue)
    (env : Environment) (srv srv' : Server) (s : StopReason) :
  prepareExport args env srv = Stop s -> beforeRequests s ->
  prepareExport args env srv' = Stop s.
Proof.
  unfold prepareExport.
  destruct (truthy (getProp args (lit "help")) || truthy (getProp args (lit "h")));
    [auto|].
  destruct (normalizeBaseUrl _) as [b|]; simpl; [|auto].
  destruct (truthy b); simpl; [|auto].
  destruct (toNumber (getProp args (lit "startAt")) "startAt") as [[st|]|]; simpl;
    (destruct (toNumber (getProp args (lit "endAt")) "endAt") as [[en|]|]; simpl;
     try (intros ? ?; assumption)).
  destruct (toNumber (nullish (getProp args (lit "limit")) _) "limit") as [l|]; simpl;
    [|auto].
  destruct (negb (isInteger (default DEFAULT_LIMIT l))
            || Qle_bool (default DEFAULT_LIMIT l) 0); [auto|].
  destruct (resolveAuthArgs _ _) as [auth|e|x]; simpl; [|auto..].
  destruct (getAuthHeaders srv auth _) as [c|e|x] eqn:Hc; simpl; [discriminate| |].
  - intros [= <-] [H|[[e' H]|(e' & H & Hcfg)]]; try discriminate.
    injection H as <-. now destruct (getAuthHeaders_not_config _ _ _ _ Hc).
  - intros [= <-] [H|[[e' H]|(e' & H & Hcfg)]]; discriminate.
Qed.

(** X19.  The page size.  In a run that passes the checks, an option
    [limit] that is absent or empty gives the default of 500 rows; given
    without a value, so that the parser made it [true], it gives one row
    a page, and so does [startAt] give the time 1. *)
Theorem prepareExport_limit (args : gmap jsstring JsValue) (env : Environment)
    (srv : Server) (p : Prepared) :
  prepareExport args env srv = Continue p ->
  (getProp args (lit "limit") = JUndefined \/ getProp args (lit "limit") = JStr [] ->
   limit p = 500%Q) /\
  (getProp args (lit "limit") = JBool true -> limit p = 1%Q) /\
  (getProp args (lit "startAt") = JBool true -> startAt p = 1%Q).
Proof.
  intros H. apply prepareExport_inv in H
    as (_ & _ & _ & _ & Hs & _ & (l & Hl & Hlim) & _).
  rewrite Hlim. repeat split.
  - intros [E|E]; rewrite E in Hl; simpl in Hl; injection Hl as <-; reflexivity.
  - intros E. rewrite E in Hl. simpl in Hl. injection Hl as <-. reflexivity.
  - intros E. rewrite E in Hs. simpl in Hs. now injection Hs as <-.
Qed.

(** X20.  A base URL of slashes is no base URL.  When [--baseUrl] is a
    string that, trimmed, consists of slashes only (the empty string,
    ["/"], [" // "]), the run stops at the missing-baseUrl error, also
    when [UMAMI_BASE_URL] is set: the environment is the fallback of an
    absent option only. *)
Theorem prepareExport_empty_base_url (args : gmap jsstring JsValue)
    (env : Environment) (srv : Server) (s : jsstring) :
  truthy (getProp args (lit "help")) = false ->
  truthy (getProp args (lit "h")) = false ->
  getProp args (lit "baseUrl") = JStr s -> allSlashes (trim s) ->
  prepareExport args env srv = Stop (BadParam MissingBaseUrl).
Proof.
  intros Hhelp Hh Hb Hs. unfold prepareExport. rewrite Hhelp, Hh, Hb. simpl orb.
  cbv iota. simpl nullish.
  assert (Hstrip : stripTrailingSlashes (trim s) = []).
  { unfold stripTrailingSlashes.
    assert (Hd : forall t, allSlashes t -> dropSlashes t = []).
    { induction t as [|c t IH]; intros Ht; [reflexivity|].
      apply Forall_cons in Ht as [-> Ht]. simpl. now apply IH. }
    rewrite Hd by now apply Forall_rev. reflexivity. }
  destruct s as [|c0 s0]; [reflexivity|].
  rewrite normalizeBaseUrl_nonempty by discriminate. now rewrite Hstrip.
Qed.

End StartFacts.

Lemma prepareExport_validated_witness :
  (exists s, baseUrl samplePrepared = JStr s /\ s <> [] /\
             startsWithSpace s = false /\ endsWithSlash s = false) /\
  (exists n : Z, 0 < n /\ (limit samplePrepared == inject_Z n)%Q) /\
  truthy (websiteId (credentials samplePrepared)) = true /\
  (exists name v, headers (credentials samplePrepared) = [(name, v)] /\
                  truthy v = true).
Proof.
  apply (prepareExport_validated (B := samplePlatform) sampleArgs noEnvironment
           (shareServer JNull) samplePrepared).
  vm_compute. reflexivity.
Defined.

Lemma prepareExport_checks_before_requests_witness :
  prepareExport (B := samplePlatform) {[ lit "_" := JArr [] ]} noEnvironment
    (loginServer JNull) = Stop (BadParam MissingBaseUrl).
Proof.
  apply (prepareExport_checks_before_requests (B := samplePlatform)
           {[ lit "_" := JArr [] ]} noEnvironment (shareServer JNull)).
  - reflexivity.
  - right. left. now exists MissingBaseUrl.
Defined.

Lemma prepareExport_limit_witness :
  (getProp sampleArgs (lit "limit") = JUndefined \/
   getProp sampleArgs (lit "limit") = JStr [] -> limit samplePrepared = 500%Q) /\
  (getProp sampleArgs (lit "limit") = JBool true -> limit samplePrepared = 1%Q) /\
  (getProp sampleArgs (lit "startAt") = JBool true -> startAt samplePrepared = 1%Q).
Proof.
  apply (prepareExport_limit (B := samplePlatform) sampleArgs noEnvironment
           (shareServer JNull) samplePrepared).
  vm_compute. reflexivity.
Defined.

Lemma prepareExport_empty_base_url_witness :
  prepareExport (B := samplePlatform)
    (<[ lit "baseUrl" := JStr (lit " // ") ]> {[ lit "_" := JArr [] ]})
    (baseUrlEnvironment (lit "https://h")) (shareServer JNull)
  = Stop (BadParam MissingBaseUrl).
Proof.
  apply (prepareExport_empty_base_url (B := samplePlatform) _ _ _ (lit " // "));
    try reflexivity.
  repeat constructor.
Defined.

(** * Command lines that behave the same *)





Section SameRuns.
Context {B : Builtins}.



End SameRuns.

Section CommandFacts.
Context {B : Builtins}.

Lemma sameArgs_refl (keys : list jsstring) (a : gmap jsstring JsValue) :
  sameArgs keys a a.
Proof. now split. Qed.

Lemma sameResults_refl (keys : list jsstring) (r : option (gmap jsstring JsValue)) :
  sameResults keys r r.
Proof. destruct r; [apply sameArgs_refl|exact I]. Qed.




End CommandFacts.


(** * Help *)

Lemma indexOfFrom_split (c : N) (s : jsstring) (i : Z) :
  indexOfFrom c s i <> -1 -> 0 <= i ->
  s = firstn (Z.to_nat (indexOfFrom c s i - i)) s ++
      c :: skipn (S (Z.to_nat (indexOfFrom c s i - i))) s.
Proof.
  revert i. induction s as [|d t IH]; intros i Hi Hpos; simpl in *; [congruence|].
  destruct (N.eqb_spec d c) as [->|Hne].
  - replace (Z.to_nat (i - i)) with 0%nat by lia. reflexivity.
  - destruct (indexOfFrom_range c t (i + 1)) as [E|E]; [lia|congruence|].
    replace (Z.to_nat (indexOfFrom c t (i + 1) - i))
      with (S (Z.to_nat (indexOfFrom c t (i + 1) - (i + 1)))) by lia.
    simpl. f_equal. apply IH; [assumption|lia].
Qed.

(** An option token with [=] is [--key=value] for the key and the value
    that the parser takes from it. *)
Lemma equals_token_parts (a : jsstring) :
  startsWith (lit "--") a = true -> indexOf chEquals a <> -1 ->
  a = eqToken (slice 2 (indexOf chEquals a) a) (sliceFrom (indexOf chEquals a + 1) a).
Proof.
  intros Ha Hi. apply startsWith_app in Ha.
  remember (skipn (length (lit "--")) a) as t eqn:Ht. clear Ht. subst a.
  change (lit "--" ++ t) with (chDash :: chDash :: t) in *.
  unfold indexOf in *. simpl in Hi |- *.
  change (0 + 1 + 1) with 2 in *.
  destruct (indexOfFrom_range chEquals t 2) as [E|E]; [lia|congruence|].
  unfold eqToken, slice, sliceFrom.
  replace (Z.to_nat (indexOfFrom chEquals t 2 + 1))
    with (S (S (S (Z.to_nat (indexOfFrom chEquals t 2 - 2))))) by lia.
  change (lit "--") with [chDash; chDash]. simpl. do 2 f_equal.
  rewrite drop_0. apply indexOfFrom_split; [assumption|lia].
Qed.

Lemma parseLoop_keeps_help (argv : list jsstring) (args : gmap jsstring JsValue) :
  Forall (fun tok => startsWith (lit "--help=") tok = false) argv ->
  args !! lit "help" = Some (JBool true) ->
  forall args', parseLoop argv args = Some args' ->
    args' !! lit "help" = Some (JBool true).
Proof.
  apply (parseLoop_induction (fun argv args r =>
    Forall (fun tok => startsWith (lit "--help=") tok = false) argv ->
    args !! lit "help" = Some (JBool true) ->
    forall args', r = Some args' -> args' !! lit "help" = Some (JBool true))).
  - intros a _ H a' [= <-]. exact H.
  - intros a rest a0 r _ IH Hall _. apply Forall_cons in Hall as [_ Hall].
    apply IH; [assumption|]. unfold setProp. simpl. apply lookup_insert_eq.
  - intros rest a0 _ H a'. unfold pushAll.
    destruct (a0 !! lit "_") as [[]|]; try discriminate. intros [= <-].
    now rewrite lookup_insert_ne by discriminate.
  - intros a rest a0 r Ha Hi IH Hall H. apply Forall_cons in Hall as [Hn Hall].
    apply IH; [assumption|]. unfold setProp.
    destruct (jsstring_eqb _ (lit "__proto__")); [assumption|].
    rewrite lookup_insert_ne; [assumption|]. intros Hk.
    rewrite (equals_token_parts a Ha Hi), Hk in Hn. discriminate Hn.
  - intros a rest a0 r Ha _ Hhelp _ _ IH Hall H. apply Forall_cons in Hall as [_ Hall].
    apply IH; [assumption|]. unfold setProp.
    destruct (jsstring_eqb _ (lit "__proto__")); [assumption|].
    rewrite lookup_insert_ne; [assumption|]. intros Hk. apply Hhelp.
    apply startsWith_app in Ha.
    change (skipn (length (lit "--")) a) with (sliceFrom 2 a) in Ha.
    now rewrite Hk in Ha.
  - intros a next rest a0 r Ha _ Hhelp _ _ IH Hall H.
    apply Forall_cons in Hall as [_ Hall]. apply Forall_cons in Hall as [_ Hall].
    apply IH; [assumption|]. unfold setProp.
    destruct (jsstring_eqb _ (lit "__proto__")); [assumption|].
    rewrite lookup_insert_ne; [assumption|]. intros Hk. apply Hhelp.
    apply startsWith_app in Ha.
    change (skipn (length (lit "--")) a) with (sliceFrom 2 a) in Ha.
    now rewrite Hk in Ha.
  - intros a rest a0 args' r _ _ Hpush IH Hall H. apply Forall_cons in Hall as [_ Hall].
    apply IH; [assumption|]. unfold pushAll in Hpush.
    destruct (a0 !! lit "_") as [[]|]; try discriminate. injection Hpush as <-.
    now rewrite lookup_insert_ne by discriminate.
  - discriminate.
Qed.

Section HelpFacts.
Context {B : Builtins}.

(** X22.  Help wins.  When [-h] or [--help] stands before any [--], no
    later token is [--help=...], and no token assigns to [_], the run
    prints a help text and exits with code 0: no parameter is checked and
    no request is made, whatever else is on the command line. *)
Theorem main_help (pre : list jsstring) (h : jsstring) (rest : list jsstring)
    (env : Environment) (srv : Server) :
  lit "--" ∉ pre -> h = lit "-h" \/ h = lit "--help" ->
  Forall (fun tok => clobbersPositional tok = false) (pre ++ h :: rest) ->
  Forall (fun tok => startsWith (lit "--help=") tok = false) rest ->
  exists s, main (pre ++ h :: rest) env srv = Stop s /\
            (s = ShowHelp \/ s = ShowExportHelp) /\ exitCode s = 0.
Proof.
  intros Hpre Hh Hall Hrest. apply Forall_app in Hall as [Hall1 Hall2].
  apply Forall_cons in Hall2 as [_ Hall2].
  assert (Hinit : parsedArgs {[ lit "_" := JArr [] ]} []).
  { split; [reflexivity|]. intros key v Hk.
    rewrite lookup_singleton_ne by congruence. discriminate. }
  destruct (parseLoop_parsedArgs pre _ Hall1 [] Hinit) as (a & l & Ha & Hinv & _).
  assert (Hparse : parseArgs (pre ++ h :: rest) =
                   parseLoop rest (setProp (lit "help") (JBool true) a)).
  { unfold parseArgs.
    rewrite (parseLoop_split_some pre h rest _ a); try assumption.
    - rewrite parseLoop_cons. now destruct Hh as [-> | ->].
    - now destruct Hh as [-> | ->]. }
  destruct (parseLoop_parsedArgs rest (setProp (lit "help") (JBool true) a) Hall2
              ([] ++ l)) as (args & l' & Hargs & _ & _).
  { apply parsedArgs_setProp; [discriminate|apply optionValue_true|assumption]. }
  assert (Hhelp : getProp args (lit "help") = JBool true).
  { unfold getProp.
    rewrite (parseLoop_keeps_help rest (setProp (lit "help") (JBool true) a) Hrest)
      with (args' := args); [reflexivity| |assumption].
    unfold setProp. simpl. apply lookup_insert_eq. }
  unfold main. rewrite Hparse, Hargs. simpl mbind. rewrite Hhelp.
  destruct (negb (truthy (index0 (getProp args (lit "_"))))
            || isString (index0 (getProp args (lit "_"))) (lit "help")
            || isString (index0 (getProp args (lit "_"))) (lit "--help")
            || isString (index0 (getProp args (lit "_"))) (lit "-h")).
  { exists ShowHelp. repeat split. now left. }
  destruct (isString (index0 (getProp args (lit "_"))) (lit "export-path-visitors")).
  - exists ShowExportHelp. repeat split. now right.
  - exists ShowHelp. repeat split. now left.
Qed.

End HelpFacts.

Lemma main_help_witness :
  exists s, main (B := samplePlatform)
              ([exportCommand; lit "--limit=0"] ++ lit "-h" :: [lit "--baseUrl"])
              noEnvironment (shareServer JNull) = Stop s /\
            (s = ShowHelp \/ s = ShowExportHelp) /\ exitCode s = 0.
Proof.
  apply (main_help (B := samplePlatform) [exportCommand; lit "--limit=0"] (lit "-h")
           [lit "--baseUrl"]).
  - intros H. apply list_elem_of_In in H. simpl in H. intuition discriminate.
  - now left.
  - repeat constructor.
  - repeat constructor.
Defined.

(** * More on the totals *)

Lemma totalVisitors_insert_new (totals : gmap jsstring Q) (k : jsstring) (x : Q) :
  totals !! k = None ->
  totalVisitors (<[ k := x ]> totals) = Qplus (totalVisitors totals) x.
Proof.
  intros Hk. unfold totalVisitors.
  apply (map_fold_insert_L (fun _ v acc => Qplus acc v)); [|assumption].
  intros j1 j2 z1 z2 y _ _ _. apply Qplus_swap_eq.
Qed.

Lemma totalVisitors_delete (totals : gmap jsstring Q) (k : jsstring) (x : Q) :
  totals !! k = Some x ->
  totalVisitors totals = Qplus (totalVisitors (delete k totals)) x.
Proof.
  intros Hk. unfold totalVisitors.
  apply (map_fold_delete_L (fun _ v acc => Qplus acc v)); [|assumption].
  intros j1 j2 z1 z2 y _ _ _. apply Qplus_swap_eq.
Qed.

Lemma totalVisitors_addTo (totals : gmap jsstring Q) (p : jsstring) (v : Q) :
  (totalVisitors (addTo totals (Some (p, v))) == totalVisitors totals + v)%Q.
Proof.
  simpl. destruct (totals !! p) as [old|] eqn:Hp; simpl.
  - rewrite <- insert_delete_eq.
    rewrite totalVisitors_insert_new by apply lookup_delete_eq.
    rewrite (totalVisitors_delete totals p old Hp). ring.
  - rewrite totalVisitors_insert_new by assumption. ring.
Qed.

Section TotalsFacts.
Context {B : Builtins}.

Lemma accumulateRow_total (totals totals' : gmap jsstring Q) (row : JsValue) :
  accumulateRow totals row = Some totals' ->
  (totalVisitors totals' == totalVisitors totals + counted row)%Q.
Proof.
  rewrite accumulateRow_contribution. unfold counted.
  destruct (contribution row) as [[[p v]|]|]; simpl; try discriminate;
    intros [= <-].
  - apply totalVisitors_addTo.
  - ring.
Qed.

Lemma accumulatePage_total (rows : list JsValue) :
  forall totals totals',
    accumulatePage totals rows = Some totals' ->
    (totalVisitors totals' == totalVisitors totals + countedSum rows)%Q.
Proof.
  induction rows as [|r rows IH]; intros totals totals' H; simpl in H.
  - injection H as <-. simpl. ring.
  - destruct (accumulateRow totals r) as [t1|] eqn:E1; [|discriminate].
    simpl in H. rewrite (IH _ _ H), (accumulateRow_total _ _ _ E1).
    simpl. ring.
Qed.

Lemma accumulateRow_pathKeys (totals totals' : gmap jsstring Q) (row : JsValue) :
  accumulateRow totals row = Some totals' -> pathKeys totals -> pathKeys totals'.
Proof.
  unfold accumulateRow.
  destruct (ToNumber _) as [[v| | |]|]; simpl; try discriminate;
    try (now intros [= <-]).
  destruct (normalizePath _) as [path|] eqn:Hp; simpl; [|discriminate].
  intros [= <-] Hkeys k. destruct (decide (path = k)) as [<-|Hne].
  - intros _. now apply normalizePath_PathKey in Hp.
  - rewrite lookup_insert_ne by assumption. apply Hkeys.
Qed.

Lemma accumulatePage_pathKeys (rows : list JsValue) :
  forall totals totals',
    accumulatePage totals rows = Some totals' -> pathKeys totals -> pathKeys totals'.
Proof.
  induction rows as [|r rows IH]; intros totals totals' H Hk; simpl in H.
  - now injection H as <-.
  - destruct (accumulateRow totals r) as [t1|] eqn:E1; [|discriminate].
    simpl in H. apply (IH _ _ H). now apply (accumulateRow_pathKeys _ _ _ E1).
Qed.

(** X23.  Every key of the output is a normalized path.  Whatever the
    server answers, the totals that the loop returns have only keys that
    start and end with a slash and hold no [?], no [#] and no two slashes
    in a row. *)
Theorem paginate_keys_are_path_keys (srv : Server) (limit : Z) (fuel : nat)
    (offset : Z) (t : gmap jsstring Q) :
  paginate srv limit fuel offset ∅ = Some (Ok t) ->
  forall k, is_Some (t !! k) -> PathKey k.
Proof.
  assert (H : forall fuel offset totals t,
             pathKeys totals ->
             paginate srv limit fuel offset totals = Some (Ok t) -> pathKeys t).
  { clear. induction fuel as [|fuel IH]; intros offset totals t Hk H;
      [discriminate|].
    rewrite paginate_unfold in H.
    destruct (requestPage srv offset) as [[|r rows]|e|x]; try discriminate.
    - now injection H as <-.
    - destruct (accumulatePage totals (r :: rows)) as [t'|] eqn:Hacc;
        [|discriminate].
      apply (IH _ _ _ (accumulatePage_pathKeys _ _ _ Hacc Hk) H). }
  intros Hp. apply (H _ _ _ _ ltac:(intros k [v Hv]; now rewrite lookup_empty in Hv) Hp).
Qed.

(** X24.  No visitor is lost or counted twice.  When the website id
    encodes and the server serves pages whose rows convert, at offsets and
    with counts that the program's doubles hold and add exactly (whole
    numbers, not negative, that sum to at most [2^53]), the loop returns
    totals whose values sum to the visitors of all the rows that count,
    however the rows share their keys. *)
Theorem visitors_are_conserved (websiteId : JsValue) (srv : Server) (limit : Z)
    (pages : list (list JsValue)) (fuel : nat) :
  encodeURIComponent_throws websiteId = None ->
  exactOffsets limit 0 (length pages) ->
  servesPages srv limit 0 pages ->
  Forall convertible (concat pages) ->
  exactCounts (concat pages) ->
  (length pages < fuel)%nat ->
  exists t, exportLoop websiteId srv limit fuel = Some (Paginated (Ok t)) /\
            (totalVisitors t == countedSum (concat pages))%Q.
Proof.
  intros Hurl _ Hs Hconv _ Hfuel. unfold exportLoop. rewrite Hurl.
  rewrite (paginate_served srv limit pages fuel 0 ∅ Hs Hfuel).
  rewrite accumulatePages_concat.
  destruct (accumulatePage_convertible _ Hconv ∅) as [t Ht]. rewrite Ht.
  exists t. split; [reflexivity|].
  rewrite (accumulatePage_total _ _ _ Ht). unfold totalVisitors at 1.
  rewrite map_fold_empty. ring.
Qed.

End TotalsFacts.

Lemma visitors_are_conserved_witness :
  exists t,
    exportLoop (B := samplePlatform) (JStr (lit "W"))
      (pagesServer 2 [[mkRow "/a" 3; mkRow "/a/" 2]; [mkRow "/b" 1]]) 2 3
      = Some (Paginated (Ok t)) /\
    (totalVisitors t ==
     countedSum (B := samplePlatform)
       (concat [[mkRow "/a" 3; mkRow "/a/" 2]; [mkRow "/b" 1]]))%Q.
Proof.
  apply (visitors_are_conserved (B := samplePlatform) (JStr (lit "W"))
           (pagesServer 2 [[mkRow "/a" 3; mkRow "/a/" 2]; [mkRow "/b" 1]]) 2
           [[mkRow "/a" 3; mkRow "/a/" 2]; [mkRow "/b" 1]] 3).
  - reflexivity.
  - unfold exactOffsets. simpl. lia.
  - repeat split; discriminate.
  - repeat constructor; eexists; reflexivity.
  - split.
    + repeat constructor;
        [exists 3|exists 2|exists 1]; split; try lia; reflexivity.
    + vm_compute. discriminate.
  - simpl. lia.
Defined.

Lemma paginate_keys_are_path_keys_witness : PathKey (lit "/a/").
Proof.
  apply (paginate_keys_are_path_keys (B := samplePlatform) (scenarioServer 500) 500
           2 0 (<[ lit "/a/" := 5%Q ]> ∅)).
  - vm_compute. reflexivity.
  - eexists. apply lookup_insert_eq.
Defined.

(** * More on the path normalizer *)

Lemma trimStart_stop (x : jsstring) (c : N) (y : jsstring) :
  isWhiteSpace c = false -> trimStart (x ++ c :: y) = trimStart x ++ c :: y.
Proof.
  intros Hc. induction x as [|d x IH]; simpl; [now rewrite Hc|].
  destruct (isWhiteSpace d); [exact IH|reflexivity].
Qed.

Lemma trimEnd_stop (x : jsstring) (c : N) (y : jsstring) :
  isWhiteSpace c = false -> trimEnd (x ++ c :: y) = x ++ c :: trimEnd y.
Proof.
  intros Hc. unfold trimEnd. rewrite rev_app_distr. simpl rev at 1.
  rewrite <- app_assoc. simpl app at 2.
  rewrite trimStart_stop by assumption.
  rewrite rev_app_distr. simpl. rewrite rev_involutive, <- app_assoc. reflexivity.
Qed.

Lemma indexOfFrom_skip (c : N) (pre post : jsstring) (i : Z) :
  c ∉ pre ->
  indexOfFrom c (pre ++ post) i = indexOfFrom c post (i + Z.of_nat (length pre)).
Proof.
  revert i. induction pre as [|d pre IH]; intros i Hn; simpl.
  - f_equal. lia.
  - apply not_elem_of_cons in Hn as [Hd Hn].
    destruct (N.eqb_spec d c); [congruence|]. rewrite IH by assumption. f_equal. lia.
Qed.

Lemma firstCut_first (q h : Z) :
  0 <= q -> h = -1 \/ q <= h -> firstCut q h = Some q.
Proof.
  intros Hq Hh. unfold firstCut. simpl.
  destruct (Z.leb_spec 0 q); [|lia]. destruct (Z.leb_spec 0 h); simpl.
  - destruct (Z.leb_spec q h); [reflexivity|lia].
  - reflexivity.
Qed.

Lemma firstCut_second (q h : Z) :
  0 <= h -> q = -1 \/ h < q -> firstCut q h = Some h.
Proof.
  intros Hq Hh. unfold firstCut. simpl.
  destruct (Z.leb_spec 0 h); [|lia]. destruct (Z.leb_spec 0 q); simpl.
  - destruct (Z.leb_spec q h); [lia|reflexivity].
  - reflexivity.
Qed.

(** Lines 96-99 on a string whose first [?] or [#] comes after [s]. *)
Lemma cut_at_separator (s : jsstring) (sep : N) (q : jsstring) :
  sep = chQuestion \/ sep = chHash -> chQuestion ∉ s -> chHash ∉ s ->
  match firstCut (indexOf chQuestion (s ++ sep :: q)) (indexOf chHash (s ++ sep :: q)) with
  | Some cut => slice0 cut (s ++ sep :: q)
  | None => s ++ sep :: q
  end = s.
Proof.
  intros Hsep Hq Hh. unfold indexOf.
  assert (Hcut : firstCut (indexOfFrom chQuestion (s ++ sep :: q) 0)
                          (indexOfFrom chHash (s ++ sep :: q) 0)
                 = Some (Z.of_nat (length s))).
  { destruct Hsep as [-> | ->].
    - rewrite (indexOfFrom_app_found chQuestion s q 0 Hq).
      rewrite (indexOfFrom_skip chHash s _ 0 Hh).
      change (0 + Z.of_nat (length s)) with (Z.of_nat (length s)).
      apply firstCut_first; [lia|].
      destruct (indexOfFrom_range chHash (chQuestion :: q) (Z.of_nat (length s)));
        [lia|now left|now right].
    - rewrite (indexOfFrom_app_found chHash s q 0 Hh).
      rewrite (indexOfFrom_skip chQuestion s _ 0 Hq).
      change (0 + Z.of_nat (length s)) with (Z.of_nat (length s)).
      apply firstCut_second; [lia|]. simpl.
      change (chHash =? chQuestion)%N with false. cbv iota.
      destruct (indexOfFrom_range chQuestion q (Z.of_nat (length s) + 1));
        [lia|now left|right; lia]. }
  rewrite Hcut. unfold slice0. rewrite Nat2Z.id. apply take_app_length.
Qed.

Lemma cut_without_separator (s : jsstring) :
  chQuestion ∉ s -> chHash ∉ s ->
  match firstCut (indexOf chQuestion s) (indexOf chHash s) with
  | Some cut => slice0 cut s
  | None => s
  end = s.
Proof.
  intros Hq Hh. unfold indexOf.
  now rewrite (indexOfFrom_notin _ _ 0 Hq), (indexOfFrom_notin _ _ 0 Hh).
Qed.

Lemma finishPath_separator (s : jsstring) (sep : N) (q : jsstring) :
  sep = chQuestion \/ sep = chHash -> chQuestion ∉ s -> chHash ∉ s ->
  finishPath (s ++ sep :: q) = finishPath s.
Proof.
  intros Hsep Hq Hh. unfold finishPath. cbv zeta.
  now rewrite (cut_at_separator s sep q Hsep Hq Hh), (cut_without_separator s Hq Hh).
Qed.

(** The regular expression of line 86 cannot match across a [?] or a
    [#]. *)
Lemma afterSchemeChars_separator (t : jsstring) (sep : N) (q : jsstring) :
  sep = chQuestion \/ sep = chHash ->
  match afterSchemeChars (t ++ sep :: q) with
  | c1 :: c2 :: c3 :: _ => ((c1 =? chColon) && (c2 =? chSlash) && (c3 =? chSlash))%N
  | _ => false
  end =
  match afterSchemeChars t with
  | c1 :: c2 :: c3 :: _ => ((c1 =? chColon) && (c2 =? chSlash) && (c3 =? chSlash))%N
  | _ => false
  end.
Proof.
  intros Hsep. induction t as [|d t IH].
  - destruct Hsep as [-> | ->]; destruct q as [|a [|b q]]; reflexivity.
  - simpl. destruct (isSchemeChar d); [exact IH|].
    destruct t as [|e [|f t]]; [| |reflexivity];
      destruct Hsep as [-> | ->]; destruct q as [|a q]; simpl;
      try reflexivity;
      try (destruct (d =? chColon)%N; simpl; try reflexivity;
           destruct (e =? chSlash)%N; reflexivity).
Qed.

Lemma looksLikeUrl_separator (s : jsstring) (sep : N) (q : jsstring) :
  sep = chQuestion \/ sep = chHash ->
  looksLikeUrl (s ++ sep :: q) = looksLikeUrl s.
Proof.
  intros Hsep. destruct s as [|c t].
  - destruct Hsep as [-> | ->]; reflexivity.
  - simpl. f_equal. now apply afterSchemeChars_separator.
Qed.

Section QueryFacts.
Context {B : Builtins}.

(** X25.  The query and the fragment do not count.  For a name that is
    not a full URL and has no white space at its ends, what follows the
    first [?] or [#] does not change the key: ["/a?x=1"], ["/a#top"] and
    ["/a"] are counted together. *)
Theorem normalizePath_drops_query (s : jsstring) (sep : N) (q : jsstring) :
  sep = chQuestion \/ sep = chHash ->
  chQuestion ∉ s -> chHash ∉ s ->
  startsWithSpace s = false -> endsWithSpace s = false ->
  looksLikeUrl s = false ->
  normalizePath (JStr (s ++ sep :: q)) = normalizePath (JStr s).
Proof.
  intros Hsep Hq Hh Hstart Hend Hurl.
  assert (Hws : isWhiteSpace sep = false) by (destruct Hsep as [-> | ->]; reflexivity).
  assert (Htrim : trim (s ++ sep :: q) = s ++ sep :: trimEnd q).
  { unfold trim. rewrite trimStart_stop by assumption.
    rewrite (trimStart_id s Hstart). now apply trimEnd_stop. }
  assert (Hs : trim s = s).
  { unfold trim. rewrite (trimStart_id s Hstart). now apply trimEnd_id. }
  rewrite !normalizePath_stages by discriminate. simpl ToString. simpl mbind.
  cbv zeta. rewrite Htrim, Hs.
  rewrite (looksLikeUrl_separator s sep _ Hsep), Hurl.
  rewrite (finishPath_separator s sep _ Hsep Hq Hh).
  destruct s as [|c t]; reflexivity.
Qed.

End QueryFacts.

Lemma normalizePath_drops_query_witness :
  normalizePath (B := samplePlatform) (JStr (lit "/a" ++ chQuestion :: lit "x=1")) =
  normalizePath (B := samplePlatform) (JStr (lit "/a")).
Proof.
  apply (normalizePath_drops_query (B := samplePlatform) (lit "/a") chQuestion
           (lit "x=1")); try reflexivity.
  - now left.
  - intros H. apply list_elem_of_In in H. simpl in H. intuition discriminate.
  - intros H. apply list_elem_of_In in H. simpl in H. intuition discriminate.
Defined.

Lemma collapseSlashes_nonempty (b : N) (t : jsstring) :
  collapseSlashes (b :: t) <> [].
Proof.
  revert b. induction t as [|c t IH]; intros b; [discriminate|].
  collapse_step b c t. destruct ((b =? chSlash) && (c =? chSlash))%N;
    [apply IH|discriminate].
Qed.

Lemma collapseSlashes_tail (s : jsstring) :
  endsWithSlash (collapseSlashes s) = endsWithSlash s.
Proof.
  induction s as [|a t IH]; [reflexivity|].
  destruct t as [|b t']; [reflexivity|].
  collapse_step a b t'. rewrite endsWithSlash_cons2.
  destruct ((a =? chSlash) && (b =? chSlash))%N; [exact IH|].
  pose proof (collapseSlashes_nonempty b t') as Hne.
  destruct (collapseSlashes (b :: t')) as [|c r]; [congruence|].
  now rewrite endsWithSlash_cons2.
Qed.

Lemma collapseSlashes_snoc (s : jsstring) :
  collapseSlashes (s ++ [chSlash]) =
  if endsWithSlash s then collapseSlashes s else collapseSlashes s ++ [chSlash].
Proof.
  induction s as [|a t IH]; [reflexivity|].
  destruct t as [|b t'].
  - change (collapseSlashes ([a] ++ [chSlash]))
      with (if ((a =? chSlash) && (chSlash =? chSlash))%N then [chSlash]
            else [a; chSlash]).
    unfold endsWithSlash. simpl.
    destruct (N.eqb_spec a chSlash) as [->|Ha]; reflexivity.
  - change (collapseSlashes ((a :: b :: t') ++ [chSlash]))
      with (if ((a =? chSlash) && (b =? chSlash))%N
            then collapseSlashes ((b :: t') ++ [chSlash])
            else a :: collapseSlashes ((b :: t') ++ [chSlash])).
    collapse_step a b t'. rewrite endsWithSlash_cons2, IH.
    destruct ((a =? chSlash) && (b =? chSlash))%N; [reflexivity|].
    destruct (endsWithSlash (b :: t')); reflexivity.
Qed.

Lemma finishPath_trailing_slash (s : jsstring) :
  chQuestion ∉ s -> chHash ∉ s ->
  finishPath (s ++ [chSlash]) = finishPath s.
Proof.
  intros Hq Hh. unfold finishPath. cbv zeta.
  rewrite (cut_without_separator s Hq Hh).
  rewrite (cut_without_separator (s ++ [chSlash])).
  2,3: (intros H; apply elem_of_app in H as [H|H]; [tauto|];
        apply list_elem_of_singleton in H; discriminate H).
  rewrite collapseSlashes_snoc. rewrite <- (collapseSlashes_tail s).
  destruct (endsWithSlash (collapseSlashes s)) eqn:He; [reflexivity|].
  destruct (collapseSlashes s) as [|c r]; [reflexivity|].
  change (startsWithSlash ((c :: r) ++ [chSlash])) with (startsWithSlash (c :: r)).
  set (r' := if startsWithSlash (c :: r) then c :: r else chSlash :: c :: r).
  assert (Hr' : (if startsWithSlash (c :: r) then (c :: r) ++ [chSlash]
                 else chSlash :: (c :: r) ++ [chSlash]) = r' ++ [chSlash])
    by (unfold r'; destruct (startsWithSlash (c :: r)); reflexivity).
  rewrite Hr'. clear Hr'.
  assert (He' : endsWithSlash r' = false)
    by (unfold r'; destruct (startsWithSlash (c :: r));
        [|rewrite endsWithSlash_cons2]; assumption).
  assert (Hne : r' <> lit "/") by (intros E; rewrite E in He'; discriminate).
  assert (Hcons : exists d u, r' = d :: u)
    by (unfold r'; destruct (startsWithSlash (c :: r)); eauto).
  destruct Hcons as (d & u & Hdu).
  rewrite endsWithSlash_snoc, N.eqb_refl, He', andb_false_r, andb_true_r.
  replace (1 <? Z.of_nat (length (r' ++ [chSlash]))) with true.
  2: { symmetry. apply Z.ltb_lt. rewrite Hdu. rewrite length_app. simpl. lia. }
  unfold jsstring_eqb. rewrite (bool_decide_eq_false_2 _ Hne). simpl negb. cbv iota.
  rewrite Hdu. reflexivity.
Qed.

Section SlashFacts.
Context {B : Builtins}.

(** X26.  A slash at the end does not count.  For a name without [?] and
    [#] that is not a full URL, with or without the slash, and has no
    white space at its ends, the name with a slash added at its end has
    the same key: ["/a"] and ["/a/"] are counted together. *)
Theorem normalizePath_trailing_slash (s : jsstring) :
  chQuestion ∉ s -> chHash ∉ s ->
  startsWithSpace s = false -> endsWithSpace s = false ->
  looksLikeUrl s = false -> looksLikeUrl (s ++ lit "/") = false ->
  normalizePath (JStr (s ++ lit "/")) = normalizePath (JStr s).
Proof.
  intros Hq Hh Hstart Hend Hurl Hurl'.
  assert (Hs : trim s = s).
  { unfold trim. rewrite (trimStart_id s Hstart). now apply trimEnd_id. }
  assert (Htrim : trim (s ++ lit "/") = s ++ lit "/").
  { unfold trim. change (lit "/") with [chSlash].
    rewrite trimStart_stop by reflexivity. rewrite (trimStart_id s Hstart).
    now rewrite trimEnd_stop by reflexivity. }
  rewrite !normalizePath_stages by discriminate. simpl ToString. simpl mbind.
  cbv zeta. rewrite Htrim, Hs, Hurl, Hurl'.
  change (lit "/") with [chSlash]. rewrite (finishPath_trailing_slash s Hq Hh).
  destruct s as [|c t]; reflexivity.
Qed.

End SlashFacts.

Lemma normalizePath_trailing_slash_witness :
  normalizePath (B := samplePlatform) (JStr (lit "/a//b" ++ lit "/")) =
  normalizePath (B := samplePlatform) (JStr (lit "/a//b")).
Proof.
  apply (normalizePath_trailing_slash (B := samplePlatform) (lit "/a//b"));
    try reflexivity.
  - intros H. apply list_elem_of_In in H. simpl in H. intuition discriminate.
  - intros H. apply list_elem_of_In in H. simpl in H. intuition discriminate.
Defined.

(** * The loop with rows that convert *)

Section ConvertingRows.
Context {B : Builtins}.

Lemma paginate_running (srv : Server) (limit : Z) (fuel : nat) :
  forall (offset : Z) (totals : gmap jsstring Q),
    (forall i : nat, (i < fuel)%nat ->
       exists rows, pageAt srv (offset + limit * Z.of_nat i) = Some rows /\
                    rows <> [] /\ Forall convertible rows) ->
    paginate srv limit fuel offset totals = None.
Proof.
  induction fuel as [|fuel IH]; intros offset totals Hall; [reflexivity|].
  destruct (Hall 0%nat ltac:(lia)) as (rows & Hp & Hne & Hconv).
  replace (offset + limit * Z.of_nat 0) with offset in Hp by lia.
  destruct (accumulatePage_convertible rows Hconv totals) as [t' Hacc].
  rewrite (paginate_step srv limit _ _ _ t' rows Hp Hne Hacc). apply IH.
  intros i Hi. specialize (Hall (S i) ltac:(lia)).
  replace (offset + limit + limit * Z.of_nat i)
    with (offset + limit * Z.of_nat (S i)) by lia.
  exact Hall.
Qed.

(** X27.  The loop with rows that convert ends at the empty page and
    nowhere else.  With a website id that encodes: when the pages at the
    offsets 0, 500, 1000 and 1500 have 500, 500, 3 and 0 rows, and the
    rows convert and count for whole numbers that the program adds
    exactly, the loop with [limit = 500] is still running after three
    requests and returns at the fourth the three pages accumulated, the
    short page like the full ones; and as long as every request gives a
    page with rows, at offsets that a double holds exactly, the loop is
    still running. *)
Theorem pagination_of_rows_that_convert (websiteId : JsValue) (srv : Server) :
  encodeURIComponent_throws websiteId = None ->
  (forall p0 p1 p2 : list JsValue,
     length p0 = 500%nat -> length p1 = 500%nat -> length p2 = 3%nat ->
     pageAt srv 0 = Some p0 -> pageAt srv 500 = Some p1 ->
     pageAt srv 1000 = Some p2 -> pageAt srv 1500 = Some [] ->
     Forall convertible (p0 ++ p1 ++ p2) -> exactCounts (p0 ++ p1 ++ p2) ->
     exportLoop websiteId srv 500 3 = None /\
     exists t,
       accumulatePages ∅ [p0; p1; p2] = Some t /\
       forall fuel, (4 <= fuel)%nat ->
         exportLoop websiteId srv 500 fuel = Some (Paginated (Ok t))) /\
  (forall (limit : Z) (fuel : nat),
     exactOffsets limit 0 fuel ->
     (forall i : nat, (i < fuel)%nat ->
        exists rows, pageAt srv (limit * Z.of_nat i) = Some rows /\
                     rows <> [] /\ Forall convertible rows) ->
     exportLoop websiteId srv limit fuel = None).
Proof.
  intros Hurl. unfold exportLoop. rewrite Hurl. split.
  - intros p0 p1 p2 H0 H1 H2 Hp0 Hp1 Hp2 Hp3 Hconv _.
    assert (Hne : p0 <> [] /\ p1 <> [] /\ p2 <> [])
      by (repeat split; intros ->; discriminate).
    destruct Hne as (N0 & N1 & N2).
    assert (Hs : servesPages srv 500 0 [p0; p1; p2])
      by (simpl; repeat split; assumption).
    assert (Hacc : is_Some (accumulatePages ∅ [p0; p1; p2])).
    { rewrite accumulatePages_concat. apply accumulatePage_convertible.
      simpl. now rewrite app_nil_r. }
    destruct Hacc as [t Hacc]. split.
    + rewrite (paginate_running srv 500 3 0 ∅); [reflexivity|].
      apply Forall_app in Hconv as [C0 Hconv].
      apply Forall_app in Hconv as [C1 C2].
      intros [|[|[|i]]] Hi; try lia; eexists; (split; [eassumption|now split]).
    + exists t. split; [exact Hacc|]. intros fuel Hf.
      rewrite (paginate_served srv 500 [p0; p1; p2] fuel 0 ∅ Hs) by (simpl; lia).
      now rewrite Hacc.
  - intros limit fuel _ Hall.
    now rewrite (paginate_running srv limit fuel 0 ∅).
Qed.

End ConvertingRows.

(** A server with pages of 500, 500, 3 and 0 rows. *)
Lemma pagination_of_rows_that_convert_witness :
  let p0 := repeat (mkRow "/a" 1) 500 in
  let p1 := repeat (mkRow "/b" 1) 500 in
  let p2 := repeat (mkRow "a" 2) 3 in
  let srv := pagesServer 500 [p0; p1; p2] in
  @exportLoop samplePlatform (JStr (lit "W")) srv 500 3 = None /\
  exists t,
    @accumulatePages samplePlatform ∅ [p0; p1; p2] = Some t /\
    forall fuel, (4 <= fuel)%nat ->
      @exportLoop samplePlatform (JStr (lit "W")) srv 500 fuel
      = Some (Paginated (Ok t)).
Proof.
  cbv zeta.
  assert (Hrows : forall row,
            row ∈ repeat (mkRow "/a" 1) 500 ++ repeat (mkRow "/b" 1) 500 ++
                  repeat (mkRow "a" 2) 3 ->
            row = mkRow "/a" 1 \/ row = mkRow "/b" 1 \/ row = mkRow "a" 2).
  { intros row H. apply elem_of_app in H as [H|H];
      [|apply elem_of_app in H as [H|H]];
      apply list_elem_of_In, repeat_spec in H; auto. }
  apply (proj1 (@pagination_of_rows_that_convert samplePlatform (JStr (lit "W"))
                  (pagesServer 500 [repeat (mkRow "/a" 1) 500;
                                    repeat (mkRow "/b" 1) 500;
                                    repeat (mkRow "a" 2) 3]) eq_refl));
    try reflexivity.
  - apply Forall_forall. intros row H.
    destruct (Hrows row H) as [-> | [-> | ->]]; eexists; reflexivity.
  - split.
    + apply Forall_forall. intros row H.
      destruct (Hrows row H) as [-> | [-> | ->]];
        [exists 1|exists 1|exists 2]; split; try lia; reflexivity.
    + vm_compute. discriminate.
Defined.
